(** * The semantic response cache of lulu, embedded in Rocq

    The development follows the layout of [src/modules/cache]:

    - [cache-store.js]       : module [Store]
    - [cache-compression.js] : module [Compression]
    - [cache-similarity.js]  : module [Similarity]
    - [cache-stats.js]       : module [Stats]
    - [cache-index.js]       : module [Cache] (the facade)

    and adds the caller of the cache in [src/modules/ai]:

    - [ai-index.js]          : module [AI] ([complete] and its helpers;
                               the two providers are parameters)

    What the cache takes from the platform is modelled next to it:
    [JSMap] (the built-in [Map]), [JSON] ([stringify] and [parse]),
    [JSString] (string methods and the two regular expressions of
    [_normalize]), [Double] (the double-precision arithmetic of the
    scores) and [MD5] (the hash behind [_generateKey]); zlib and
    base64 are parameters of [Compression].

    JavaScript values are a small inductive type, a [Map] is an association
    list in insertion order (iteration order is observable in the source),
    [Date.now()] is read from a clock carried by the state, and exceptions
    are an explicit result type.  The properties follow the modules. *)

From Stdlib Require Import ZArith QArith List String Ascii Bool Arith Lia.
From Stdlib Require Import DecimalString DecimalZ Lqa Qabs.
Import ListNotations.

Set Warnings "-register-all".

Local Open Scope string_scope.
Local Open Scope list_scope.
Local Open Scope Z_scope.

(* ================================================================== *)
(** * JavaScript values *)
(* ================================================================== *)

(** Strings are sequences of code units; the model interprets the code
    units 0..255 (Latin-1).  Numbers stored in values are integers
    (timestamps, lengths) within the safe range, where the arithmetic of
    doubles is exact: the only fractional numbers of the cache are the
    similarity scores and thresholds, which are doubles kept by their
    rational values (see [Double]). *)
Inductive JValue : Type :=
| JUndefined
| JNull
| JBool (b : bool)
| JNum (n : Z)
| JStr (s : string)
| JArr (items : list JValue)
| JObj (fields : list (string * JValue)).

(** Exceptions that the cache code can raise. *)
Inductive JSError : Type :=
| TypeError      (* property of null/undefined, method missing, bad argument *)
| SyntaxError    (* JSON.parse *)
| ZlibError.     (* zlib.gunzip on a corrupt stream *)

Inductive Result (A : Type) : Type :=
| Ok (a : A)
| Throw (e : JSError).
Arguments Ok {A} a.
Arguments Throw {A} e.

Definition bindR {A B : Type} (r : Result A) (k : A -> Result B) : Result B :=
  match r with
  | Ok a => k a
  | Throw e => Throw e
  end.

Notation "x <-- r ;; k" := (bindR r (fun x => k))
  (at level 61, r at next level, right associativity).

(** [!!v] *)
Definition truthy (v : JValue) : bool :=
  match v with
  | JUndefined | JNull => false
  | JBool b => b
  | JNum n => negb (n =? 0)
  | JStr s => negb (String.eqb s EmptyString)
  | JArr _ | JObj _ => true
  end.

(** Association lists: own properties of an object, entries of a [Map]. *)
Fixpoint assoc {V : Type} (k : string) (m : list (string * V)) : option V :=
  match m with
  | [] => None
  | (k', v) :: r => if String.eqb k k' then Some v else assoc k r
  end.

Fixpoint decimal_nat (acc : N) (s : string) : option N :=
  match s with
  | EmptyString => Some acc
  | String c r =>
      let d := N_of_ascii c in
      if ((48 <=? d) && (d <=? 57))%N
      then decimal_nat (acc * 10 + (d - 48))%N r
      else None
  end.

(** A property name is an array index when it is the canonical decimal
    form of an integer below 2^32 - 1. *)
Definition array_index (k : string) : option N :=
  match k with
  | EmptyString => None
  | String "0" EmptyString => Some 0%N
  | String "0" _ => None
  | _ =>
      if (10 <? String.length k)%nat then None
      else match decimal_nat 0%N k with
           | Some n => if (n <? 4294967295)%N then Some n else None
           | None => None
           end
  end.

(** [v[k]] / [v.k] for the property names the cache uses. *)
Definition get_prop (v : JValue) (k : string) : Result JValue :=
  match v with
  | JUndefined | JNull => Throw TypeError
  | JBool _ | JNum _ => Ok JUndefined
  | JStr s =>
      if String.eqb k "length" then Ok (JNum (Z.of_nat (String.length s)))
      else match array_index k with
           | Some i => match String.get (N.to_nat i) s with
                       | Some c => Ok (JStr (String c EmptyString))
                       | None => Ok JUndefined
                       end
           | None => Ok JUndefined
           end
  | JArr l =>
      if String.eqb k "length" then Ok (JNum (Z.of_nat (List.length l)))
      else match array_index k with
           | Some i => Ok (nth (N.to_nat i) l JUndefined)
           | None => Ok JUndefined
           end
  | JObj fs => match assoc k fs with
               | Some x => Ok x
               | None => Ok JUndefined
               end
  end.

(* ================================================================== *)
(** * Map: insertion-ordered association list with unique keys *)
(* ================================================================== *)

Module JSMap.

Section Ops.
Context {V : Type}.
Definition t := list (string * V).

Definition get (k : string) (m : t) : option V := assoc k m.

Definition has (k : string) (m : t) : bool :=
  match assoc k m with Some _ => true | None => false end.

(** [Map.prototype.set]: an existing key keeps its position. *)
Fixpoint set (k : string) (v : V) (m : t) : t :=
  match m with
  | [] => [(k, v)]
  | (k', v') :: r =>
      if String.eqb k k' then (k, v) :: r else (k', v') :: set k v r
  end.

Fixpoint delete (k : string) (m : t) : t :=
  match m with
  | [] => []
  | (k', v') :: r =>
      if String.eqb k k' then r else (k', v') :: delete k r
  end.

Definition keys (m : t) : list string := map fst m.

Definition size (m : t) : nat := List.length m.

(** The representation invariant of a [Map]: one entry per key. *)
Definition wf (m : t) : Prop := NoDup (keys m).
End Ops.
Arguments t : clear implicits.

Section Facts.
Context {V : Type}.
Implicit Types (m : t V) (k : string) (v : V).

Lemma get_in k m v : get k m = Some v -> In (k, v) m.
Proof.
  unfold get. induction m as [|[k' v'] r IH]; simpl; [discriminate|].
  destruct (String.eqb_spec k k') as [->|Hne].
  - intros [= ->]. now left.
  - intros H. right. now apply IH.
Qed.

Lemma get_none_notin k m : get k m = None -> ~ In k (keys m).
Proof.
  unfold get, keys. induction m as [|[k' v'] r IH]; simpl; [tauto|].
  destruct (String.eqb_spec k k') as [->|Hne]; [discriminate|].
  intros H [Heq|Hin]; [congruence|]. now apply IH.
Qed.

Lemma notin_get_none k m : ~ In k (keys m) -> get k m = None.
Proof.
  unfold get, keys. induction m as [|[k' v'] r IH]; simpl; [reflexivity|].
  intros H. destruct (String.eqb_spec k k') as [->|Hne]; [tauto|].
  apply IH. tauto.
Qed.

Lemma in_get k v m : wf m -> In (k, v) m -> get k m = Some v.
Proof.
  unfold wf, get, keys. induction m as [|[k' v'] r IH]; simpl; [tauto|].
  intros Hnd [Heq|Hin]; inversion Hnd as [|? ? Hnotin Hnd']; subst.
  - injection Heq as -> ->. now rewrite String.eqb_refl.
  - destruct (String.eqb_spec k k') as [->|Hne].
    + exfalso. apply Hnotin. now apply (in_map fst) in Hin.
    + now apply IH.
Qed.

Lemma delete_notin k m : ~ In k (keys m) -> delete k m = m.
Proof.
  unfold keys. induction m as [|[k' v'] r IH]; simpl; [reflexivity|].
  intros H. destruct (String.eqb_spec k k') as [->|Hne]; [tauto|].
  f_equal. apply IH. tauto.
Qed.

Lemma keys_delete_incl k m x : In x (keys (delete k m)) -> In x (keys m).
Proof.
  unfold keys. induction m as [|[k' v'] r IH]; simpl; [tauto|].
  destruct (String.eqb_spec k k') as [->|Hne]; simpl; tauto.
Qed.

Lemma wf_delete k m : wf m -> wf (delete k m).
Proof.
  unfold wf. induction m as [|[k' v'] r IH]; simpl; [trivial|].
  intros Hnd. inversion Hnd as [|? ? Hnotin Hnd']; subst.
  destruct (String.eqb_spec k k') as [->|Hne]; [assumption|].
  simpl. constructor; [|now apply IH].
  intros Hin. apply Hnotin. now apply keys_delete_incl in Hin.
Qed.

Lemma get_delete_same k m : wf m -> get k (delete k m) = None.
Proof.
  unfold wf, get. induction m as [|[k' v'] r IH]; simpl; [reflexivity|].
  intros Hnd. inversion Hnd as [|? ? Hnotin Hnd']; subst.
  destruct (String.eqb_spec k k') as [->|Hne].
  - now apply notin_get_none.
  - simpl. destruct (String.eqb_spec k k'); [congruence|]. now apply IH.
Qed.

Lemma get_delete_other k k' m : k <> k' -> get k' (delete k m) = get k' m.
Proof.
  unfold get. intros Hne. induction m as [|[k0 v0] r IH]; simpl; [reflexivity|].
  destruct (String.eqb_spec k k0) as [->|Hne0]; simpl.
  - destruct (String.eqb_spec k' k0); [congruence|reflexivity].
  - destruct (String.eqb_spec k' k0); [reflexivity|apply IH].
Qed.

Lemma keys_set k v m x : In x (keys (set k v m)) <-> x = k \/ In x (keys m).
Proof.
  unfold keys. induction m as [|[k' v'] r IH]; simpl.
  - intuition congruence.
  - destruct (String.eqb_spec k k') as [->|Hne]; simpl.
    + intuition congruence.
    + rewrite IH. intuition congruence.
Qed.

Lemma wf_set k v m : wf m -> wf (set k v m).
Proof.
  unfold wf. induction m as [|[k' v'] r IH]; simpl.
  - intros _. constructor; [simpl; tauto|constructor].
  - intros Hnd. inversion Hnd as [|? ? Hnotin Hnd']; subst.
    destruct (String.eqb_spec k k') as [->|Hne]; simpl.
    + now constructor.
    + constructor; [|now apply IH].
      intros Hin. apply keys_set in Hin. destruct Hin; [congruence|tauto].
Qed.

Lemma get_set_same k v m : get k (set k v m) = Some v.
Proof.
  unfold get. induction m as [|[k' v'] r IH]; simpl.
  - now rewrite String.eqb_refl.
  - destruct (String.eqb_spec k k') as [->|Hne]; simpl.
    + now rewrite String.eqb_refl.
    + destruct (String.eqb_spec k k'); [congruence|apply IH].
Qed.

Lemma get_set_other k k' v m : k <> k' -> get k' (set k v m) = get k' m.
Proof.
  unfold get. intros Hne. induction m as [|[k0 v0] r IH]; simpl.
  - destruct (String.eqb_spec k' k); [congruence|reflexivity].
  - destruct (String.eqb_spec k k0) as [->|Hne0]; simpl.
    + destruct (String.eqb_spec k' k0); [congruence|reflexivity].
    + destruct (String.eqb_spec k' k0); [reflexivity|apply IH].
Qed.
End Facts.

End JSMap.

(* ================================================================== *)
(** * cache-store.js *)
(* ================================================================== *)

Module Store.

(** The object kept in [_store] for a key: [{ value, createdAt, expiresAt }]. *)
Record Entry : Type := mkEntry {
  value : JValue;
  createdAt : Z;
  expiresAt : Z
}.

(** [storeService._store] *)
Definition t := JSMap.t Entry.

(** The entry as the JavaScript object that [get] hands to its caller. *)
Definition entry_object (e : Entry) : JValue :=
  JObj [("value", value e); ("createdAt", JNum (createdAt e));
        ("expiresAt", JNum (expiresAt e))].

(** [set(key, value, ttl)]; [now] is the result of [Date.now()].  The sum
    is the sum of the code as long as [now], [ttl] and [now + ttl] are
    safe integers; statements about [expiresAt] carry that bound. *)
Definition set (now : Z) (key : string) (v : JValue) (ttl : Z) (s : t)
  : bool * t :=
  let expires := now + ttl in
  (true, JSMap.set key (mkEntry v now expires) s).

(** [get(key)]: [None] is [null]. *)
Definition get (now : Z) (key : string) (s : t) : option Entry * t :=
  match JSMap.get key s with
  | None => (None, s)
  | Some item =>
      if expiresAt item <? now
      then (None, JSMap.delete key s)
      else (Some item, s)
  end.

(** [remove(key)] returns what [Map.prototype.delete] returns. *)
Definition remove (key : string) (s : t) : bool * t :=
  (JSMap.has key s, JSMap.delete key s).

Definition clear (s : t) : bool * t := (true, []).

(** The loop of [cleanup] over [this._store.entries()]: the entries are
    visited in insertion order and the visited entry is the only one the
    body deletes, so the iterator sees every entry of the initial map. *)
Fixpoint cleanup_loop (now : Z) (entries : list (string * Entry))
  (s : t) (removed : Z) : Z * t :=
  match entries with
  | [] => (removed, s)
  | (key, item) :: rest =>
      if expiresAt item <? now
      then cleanup_loop now rest (JSMap.delete key s) (removed + 1)
      else cleanup_loop now rest s removed
  end.

Definition cleanup (now : Z) (s : t) : Z * t := cleanup_loop now s s 0.

Definition getKeys (s : t) : list string := JSMap.keys s.

(** [_loadFromDisk] on the parsed snapshot. *)
Fixpoint load_entries (now : Z) (entries : list (string * Entry)) (s : t) : t :=
  match entries with
  | [] => s
  | (key, item) :: rest =>
      if now <? expiresAt item
      then load_entries now rest (JSMap.set key item s)
      else load_entries now rest s
  end.

(** ** Facts used by the claims *)

Definition expired (now : Z) (e : Entry) : bool := expiresAt e <? now.
Definition live (now : Z) (e : Entry) : bool := negb (expired now e).

Definition keep_live (now : Z) (s : t) : t :=
  filter (fun kv => live now (snd kv)) s.

Definition count_expired (now : Z) (s : t) : nat :=
  List.length (filter (fun kv => expired now (snd kv)) s).

Lemma keep_live_keys now s x :
  In x (JSMap.keys (keep_live now s)) -> In x (JSMap.keys s).
Proof.
  unfold JSMap.keys, keep_live. rewrite !in_map_iff.
  intros [kv [<- Hin]]. apply filter_In in Hin. exists kv. tauto.
Qed.

Lemma delete_app_notin k (pre post : t) :
  ~ In k (JSMap.keys pre) ->
  JSMap.delete k (pre ++ post) = pre ++ JSMap.delete k post.
Proof.
  unfold JSMap.keys. induction pre as [|[k' v'] r IH]; simpl; [reflexivity|].
  intros H. destruct (String.eqb_spec k k') as [->|Hne]; [tauto|].
  f_equal. apply IH. tauto.
Qed.

(** The loop invariant of [cleanup]: the part already swept holds the live
    entries only, the rest is untouched. *)
Lemma cleanup_loop_spec now rest : forall (done : t) (removed : Z),
  JSMap.wf (done ++ rest) ->
  cleanup_loop now rest (done ++ rest) removed
  = (removed + Z.of_nat (count_expired now rest), done ++ keep_live now rest).
Proof.
  induction rest as [|[k e] rest IH]; intros done removed Hwf; simpl.
  - unfold count_expired. simpl. now rewrite Z.add_0_r.
  - unfold count_expired, keep_live, live, expired in *. simpl.
    assert (Hk : ~ In k (JSMap.keys done)).
    { unfold JSMap.wf, JSMap.keys in *. rewrite map_app in Hwf. simpl in Hwf.
      apply NoDup_remove_2 in Hwf. intros Hin. apply Hwf.
      apply in_or_app. now left. }
    destruct (expiresAt e <? now) eqn:He; simpl.
    + rewrite delete_app_notin by assumption. simpl.
      rewrite String.eqb_refl. rewrite IH.
      * f_equal. lia.
      * unfold JSMap.wf, JSMap.keys in *. rewrite map_app in *. simpl in Hwf.
        now apply NoDup_remove_1 in Hwf.
    + specialize (IH (done ++ [(k, e)]) removed).
      rewrite <- !app_assoc in IH. simpl in IH. now apply IH.
Qed.

Lemma cleanup_spec now s :
  JSMap.wf s ->
  cleanup now s = (Z.of_nat (count_expired now s), keep_live now s).
Proof.
  intros Hwf. unfold cleanup.
  exact (cleanup_loop_spec now s [] 0 Hwf).
Qed.

Lemma wf_keep_live now s : JSMap.wf s -> JSMap.wf (keep_live now s).
Proof.
  unfold JSMap.wf, JSMap.keys, keep_live.
  induction s as [|[k e] r IH]; simpl; [trivial|].
  intros Hnd. inversion Hnd as [|? ? Hnotin Hnd']; subst.
  destruct (live now e); simpl; [|now apply IH].
  constructor; [|now apply IH].
  intros Hin. apply Hnotin. now apply (keep_live_keys now r k).
Qed.

Lemma get_keep_live now s k :
  JSMap.wf s ->
  JSMap.get k (keep_live now s)
  = match JSMap.get k s with
    | Some e => if live now e then Some e else None
    | None => None
    end.
Proof.
  unfold JSMap.wf, JSMap.get, JSMap.keys, keep_live.
  induction s as [|[k' e'] r IH]; simpl; [reflexivity|].
  intros Hnd. inversion Hnd as [|? ? Hnotin Hnd']; subst.
  destruct (String.eqb_spec k k') as [->|Hne].
  - destruct (live now e') eqn:Hl; simpl.
    + now rewrite String.eqb_refl.
    + apply JSMap.notin_get_none. intros Hin. apply Hnotin.
      now apply (keep_live_keys now r k').
  - destruct (live now e'); simpl.
    + destruct (String.eqb_spec k k'); [congruence|]. now apply IH.
    + now apply IH.
Qed.

Lemma past_future_length (now : Z) (s : t) :
  (List.length (filter (fun kv => (expiresAt (snd kv) <? now)%Z) s)
   + List.length (filter (fun kv => (now <? expiresAt (snd kv))%Z) s)
   <= List.length s)%nat.
Proof.
  induction s as [|[k e] r IH]; simpl; [lia|].
  destruct (expiresAt e <? now) eqn:H1;
    destruct (now <? expiresAt e) eqn:H2; simpl; lia.
Qed.

Lemma set_keeps_wf now key v ttl s : JSMap.wf s -> JSMap.wf (snd (set now key v ttl s)).
Proof. apply JSMap.wf_set. Qed.

Lemma get_keeps_wf now key s : JSMap.wf s -> JSMap.wf (snd (get now key s)).
Proof.
  intros Hwf. unfold get. destruct (JSMap.get key s) as [item|]; [|assumption].
  destruct (expiresAt item <? now); simpl; [now apply JSMap.wf_delete|assumption].
Qed.

End Store.

(* ================================================================== *)
(** * JSON.stringify and JSON.parse *)
(* ================================================================== *)

Module JSON.

Definition dquote : ascii := "034"%char.
Definition backslash : ascii := "092"%char.

Definition str1 (c : ascii) : string := String c EmptyString.

Definition hex_digit (n : N) : ascii :=
  ascii_of_N (if (n <? 10)%N then 48 + n else 87 + n)%N.

(** The escapes of [QuoteJSONString]. *)
Definition escape_char (c : ascii) : string :=
  let n := N_of_ascii c in
  if (n =? 34)%N then String backslash (str1 dquote)
  else if (n =? 92)%N then String backslash (str1 backslash)
  else if (n =? 8)%N then String backslash "b"
  else if (n =? 9)%N then String backslash "t"
  else if (n =? 10)%N then String backslash "n"
  else if (n =? 12)%N then String backslash "f"
  else if (n =? 13)%N then String backslash "r"
  else if (n <? 32)%N
       then String backslash
              (String "u" (String "0" (String "0"
                 (String (hex_digit (n / 16)) (str1 (hex_digit (n mod 16)))))))
  else str1 c.

Fixpoint escape (s : string) : string :=
  match s with
  | EmptyString => EmptyString
  | String c r => (escape_char c ++ escape r)%string
  end.

Definition quote (s : string) : string :=
  String dquote (escape s ++ str1 dquote)%string.

Fixpoint join_comma (l : list string) : string :=
  match l with
  | [] => EmptyString
  | [x] => x
  | x :: r => (x ++ "," ++ join_comma r)%string
  end.

Definition number_to_string (n : Z) : string :=
  NilZero.string_of_int (Z.to_int n).

(** [JSON.stringify(v)] without indentation; [None] is [undefined].
    Undefined array items print as [null], undefined properties are
    left out. *)
Fixpoint stringify (v : JValue) : option string :=
  match v with
  | JUndefined => None
  | JNull => Some "null"
  | JBool true => Some "true"
  | JBool false => Some "false"
  | JNum n => Some (number_to_string n)
  | JStr s => Some (quote s)
  | JArr l =>
      let items :=
        (fix go (l : list JValue) : list string :=
           match l with
           | [] => []
           | x :: r =>
               match stringify x with
               | Some s => s
               | None => "null"
               end :: go r
           end) l in
      Some ("[" ++ join_comma items ++ "]")%string
  | JObj fs =>
      let members :=
        (fix go (fs : list (string * JValue)) : list string :=
           match fs with
           | [] => []
           | (k, x) :: r =>
               match stringify x with
               | Some s => (quote k ++ ":" ++ s)%string :: go r
               | None => go r
               end
           end) fs in
      Some ("{" ++ join_comma members ++ "}")%string
  end.

(** Property creation order of an ordinary object: array indices first, in
    ascending order, then the other names in creation order; assigning an
    existing property keeps its place. *)
Fixpoint insert_index (i : N) (k : string) (v : JValue)
  (fs : list (string * JValue)) : list (string * JValue) :=
  match fs with
  | [] => [(k, v)]
  | (k', v') :: r =>
      match array_index k' with
      | Some j => if (j <? i)%N then (k', v') :: insert_index i k v r
                  else (k, v) :: fs
      | None => (k, v) :: fs
      end
  end.

Definition obj_set (k : string) (v : JValue) (fs : list (string * JValue))
  : list (string * JValue) :=
  match assoc k fs with
  | Some _ => JSMap.set k v fs
  | None =>
      match array_index k with
      | Some i => insert_index i k v fs
      | None => fs ++ [(k, v)]
      end
  end.

Definition obj_of_members (ms : list (string * JValue)) : list (string * JValue) :=
  fold_left (fun o kv => obj_set (fst kv) (snd kv) o) ms [].

Definition is_ws (c : ascii) : bool :=
  let n := N_of_ascii c in
  ((n =? 32) || (n =? 9) || (n =? 10) || (n =? 13))%N.

Fixpoint skip_ws (s : string) : string :=
  match s with
  | String c r => if is_ws c then skip_ws r else s
  | EmptyString => s
  end.

Definition hex_value (c : ascii) : option N :=
  let n := N_of_ascii c in
  if ((48 <=? n) && (n <=? 57))%N then Some (n - 48)%N
  else if ((97 <=? n) && (n <=? 102))%N then Some (n - 87)%N
  else if ((65 <=? n) && (n <=? 70))%N then Some (n - 55)%N
  else None.

(** The characters of a string literal after its opening quote, up to the
    closing quote.  [\uXXXX] escapes above 255 are outside the model. *)
Fixpoint parse_chars (s : string) : option (string * string) :=
  match s with
  | EmptyString => None
  | String c r =>
      if (c =? dquote)%char then Some (EmptyString, r)
      else if (c =? backslash)%char then
        match r with
        | EmptyString => None
        | String e r' =>
            let continue (x : ascii) (rest : option (string * string)) :=
              match rest with
              | Some (str, out) => Some (String x str, out)
              | None => None
              end in
            if (e =? dquote)%char then continue dquote (parse_chars r')
            else if (e =? backslash)%char then continue backslash (parse_chars r')
            else if (e =? "/")%char then continue "/"%char (parse_chars r')
            else if (e =? "b")%char then continue "008"%char (parse_chars r')
            else if (e =? "t")%char then continue "009"%char (parse_chars r')
            else if (e =? "n")%char then continue "010"%char (parse_chars r')
            else if (e =? "f")%char then continue "012"%char (parse_chars r')
            else if (e =? "r")%char then continue "013"%char (parse_chars r')
            else if (e =? "u")%char then
              match r' with
              | String h1 (String h2 (String h3 (String h4 r''))) =>
                  match hex_value h1, hex_value h2, hex_value h3, hex_value h4 with
                  | Some 0%N, Some 0%N, Some a, Some b =>
                      continue (ascii_of_N (a * 16 + b)) (parse_chars r'')
                  | _, _, _, _ => None
                  end
              | _ => None
              end
            else None
        end
      else if (N_of_ascii c <? 32)%N then None
      else match parse_chars r with
           | Some (str, out) => Some (String c str, out)
           | None => None
           end
  end.

Definition is_digit (c : ascii) : bool :=
  let n := N_of_ascii c in ((48 <=? n) && (n <=? 57))%N.

Fixpoint span_digits (s : string) : string * string :=
  match s with
  | String c r =>
      if is_digit c then let (d, out) := span_digits r in (String c d, out)
      else (EmptyString, s)
  | EmptyString => (EmptyString, s)
  end.

(** An integer literal: optional minus sign, digits without a leading zero.
    Fractions and exponents are outside the model (numbers are integers). *)
Definition leading_zero (digits : string) : bool :=
  match digits with
  | String c (String _ _) => (c =? "0")%char
  | _ => false
  end.

Definition fraction_follows (out : string) : bool :=
  match out with
  | String c _ => ((c =? ".") || (c =? "e") || (c =? "E"))%char
  | EmptyString => false
  end.

Definition parse_number (s : string) : option (Z * string) :=
  let (neg, body) :=
    match s with
    | String c r => if (c =? "-")%char then (true, r) else (false, s)
    | EmptyString => (false, s)
    end in
  let (digits, out) := span_digits body in
  if leading_zero digits || fraction_follows out then None
  else
    match NilZero.uint_of_string digits with
    | Some u =>
        let n := Z.of_N (N.of_uint u) in
        Some (if neg then - n else n, out)
    | None => None
    end.

Fixpoint expect (lit s : string) : option string :=
  match lit, s with
  | EmptyString, _ => Some s
  | String a l, String b r => if (a =? b)%char then expect l r else None
  | String _ _, EmptyString => None
  end.

Definition starts_with (c : ascii) (s : string) : bool :=
  match s with
  | String d _ => (d =? c)%char
  | EmptyString => false
  end.

Definition tail (s : string) : string :=
  match s with
  | String _ r => r
  | EmptyString => EmptyString
  end.

Fixpoint parse_value (fuel : nat) (s : string) : option (JValue * string) :=
  match fuel with
  | O => None
  | S f =>
      match skip_ws s with
      | EmptyString => None
      | String c r =>
          if (c =? "n")%char then option_map (pair JNull) (expect "ull" r)
          else if (c =? "t")%char then option_map (pair (JBool true)) (expect "rue" r)
          else if (c =? "f")%char then option_map (pair (JBool false)) (expect "alse" r)
          else if (c =? dquote)%char then
            match parse_chars r with
            | Some (str, out) => Some (JStr str, out)
            | None => None
            end
          else if (c =? "[")%char then
            if starts_with "]" (skip_ws r) then Some (JArr [], tail (skip_ws r))
            else match parse_elements f r with
                 | Some (items, out) => Some (JArr items, out)
                 | None => None
                 end
          else if (c =? "{")%char then
            if starts_with "}" (skip_ws r) then Some (JObj [], tail (skip_ws r))
            else match parse_members f r with
                 | Some (ms, out) => Some (JObj (obj_of_members ms), out)
                 | None => None
                 end
          else if (is_digit c || (c =? "-")%char) then
            match parse_number (String c r) with
            | Some (n, out) => Some (JNum n, out)
            | None => None
            end
          else None
      end
  end

with parse_elements (fuel : nat) (s : string) : option (list JValue * string) :=
  match fuel with
  | O => None
  | S f =>
      match parse_value f s with
      | Some (v, r) =>
          if starts_with "," (skip_ws r) then
            match parse_elements f (tail (skip_ws r)) with
            | Some (vs, out) => Some (v :: vs, out)
            | None => None
            end
          else if starts_with "]" (skip_ws r) then Some ([v], tail (skip_ws r))
          else None
      | None => None
      end
  end

with parse_members (fuel : nat) (s : string)
  : option (list (string * JValue) * string) :=
  match fuel with
  | O => None
  | S f =>
      if starts_with dquote (skip_ws s) then
        match parse_chars (tail (skip_ws s)) with
        | Some (k, r1) =>
            if starts_with ":" (skip_ws r1) then
              match parse_value f (tail (skip_ws r1)) with
              | Some (v, r3) =>
                  if starts_with "," (skip_ws r3) then
                    match parse_members f (tail (skip_ws r3)) with
                    | Some (ms, out) => Some ((k, v) :: ms, out)
                    | None => None
                    end
                  else if starts_with "}" (skip_ws r3)
                       then Some ([(k, v)], tail (skip_ws r3))
                  else None
              | None => None
              end
            else None
        | None => None
        end
      else None
  end.

(** [JSON.parse(text)]: every nesting level and every list item consumes a
    character, so the length of the text (plus one) is enough fuel. *)
Definition parse (text : string) : Result JValue :=
  match parse_value (S (String.length text)) text with
  | Some (v, rest) =>
      match skip_ws rest with
      | EmptyString => Ok v
      | String _ _ => Throw SyntaxError
      end
  | None => Throw SyntaxError
  end.

End JSON.

(* ================================================================== *)
(** * cache-compression.js *)
(* ================================================================== *)

Module Compression.

(** What the service takes from Node: [zlib.gzip] (applied to the UTF-8
    bytes of a string), [zlib.gunzip] followed by [toString('utf8')],
    [buffer.toString('base64')] and [Buffer.from(text, 'base64')].
    Buffers are byte strings. *)
Record Zlib : Type := mkZlib {
  gzip : string -> string;
  gunzip : string -> Result string;
  base64_encode : string -> string;
  base64_decode : string -> string
}.

(** The contract of these library functions that the codec relies on. *)
Record ZlibLaws (z : Zlib) : Prop := mkZlibLaws {
  gunzip_gzip : forall s, gunzip z (gzip z s) = Ok s;
  base64_decode_encode : forall b, base64_decode z (base64_encode z b) = b
}.

(** A codec that stores the text as it is, behind a one-byte header; it
    meets [ZlibLaws] and lets the service run on concrete inputs. *)
Definition stored_zlib : Zlib :=
  {| gzip := fun s => String "031"%char s;
     gunzip := fun b => match b with
                        | String "031"%char s => Ok s
                        | _ => Throw ZlibError
                        end;
     base64_encode := fun b => b;
     base64_decode := fun t => t |}.

Lemma stored_zlib_laws : ZlibLaws stored_zlib.
Proof. split; reflexivity. Qed.

Record Config : Type := mkConfig {
  enabled : bool;
  minLength : Z
}.

Definition default_config : Config := {| enabled := true; minLength := 500 |}.

Definition wrapper (data : string) (originalLength : Z) : JValue :=
  JObj [("compressed", JBool true); ("encoding", JStr "gzip");
        ("data", JStr data); ("originalLength", JNum originalLength)].

Section Service.
Variable z : Zlib.
Variable cfg : Config.

Definition compress (payload : JValue) : Result JValue :=
  if negb (enabled cfg) then Ok payload
  else
    match JSON.stringify payload with
    | None => Throw TypeError          (* [str] is undefined: [str.length] *)
    | Some str =>
        let len := Z.of_nat (String.length str) in
        if len <? minLength cfg then Ok payload
        else Ok (wrapper (base64_encode z (gzip z str)) len)
    end.

(** [Buffer.from(entry.data, 'base64')] rejects undefined, null, numbers,
    booleans and plain objects; byte arrays as [data] are not modelled. *)
Definition decompress (entry : JValue) : Result JValue :=
  tag <-- get_prop entry "compressed" ;;
  if negb (truthy tag) then Ok entry
  else
    data <-- get_prop entry "data" ;;
    match data with
    | JStr text =>
        json <-- gunzip z (base64_decode z text) ;;
        JSON.parse json
    | _ => Throw TypeError
    end.

End Service.

End Compression.

(* ================================================================== *)
(** * cache-stats.js *)
(* ================================================================== *)

Module Stats.

Record t : Type := mkStats {
  sets : Z;
  gets : Z;
  hits : Z;
  misses : Z;
  clears : Z;
  removed : Z;
  cleaned : Z
}.

Definition initial : t := mkStats 0 0 0 0 0 0 0.

Definition recordSet (s : t) : t :=
  mkStats (sets s + 1) (gets s) (hits s) (misses s) (clears s) (removed s) (cleaned s).

Definition recordGet (hit : bool) (s : t) : t :=
  if hit
  then mkStats (sets s) (gets s + 1) (hits s + 1) (misses s) (clears s) (removed s) (cleaned s)
  else mkStats (sets s) (gets s + 1) (hits s) (misses s + 1) (clears s) (removed s) (cleaned s).

Definition recordRemove (s : t) : t :=
  mkStats (sets s) (gets s) (hits s) (misses s) (clears s) (removed s + 1) (cleaned s).

Definition recordCleanup (count : Z) (s : t) : t :=
  mkStats (sets s) (gets s) (hits s) (misses s) (clears s) (removed s) (cleaned s + count).

Definition recordClear (s : t) : t :=
  mkStats (sets s) (gets s) (hits s) (misses s) (clears s + 1) (removed s) (cleaned s).

End Stats.

(* ================================================================== *)
(** * String methods *)
(* ================================================================== *)

Module JSString.

(** [toLowerCase] on a code unit: A-Z, and the Latin-1 capitals except the
    multiplication sign. *)
Definition lower_char (c : ascii) : ascii :=
  let n := N_of_ascii c in
  if (((65 <=? n) && (n <=? 90))
      || ((192 <=? n) && (n <=? 222) && negb (n =? 215)))%N
  then ascii_of_N (n + 32)
  else c.

Fixpoint toLowerCase (s : string) : string :=
  match s with
  | EmptyString => EmptyString
  | String c r => String (lower_char c) (toLowerCase r)
  end.

(** White space and line terminators: what [trim] strips and the class
    [\s] matches. *)
Definition is_space (c : ascii) : bool :=
  let n := N_of_ascii c in
  (((9 <=? n) && (n <=? 13)) || (n =? 32) || (n =? 160))%N.

(** The class [\w]. *)
Definition is_word (c : ascii) : bool :=
  let n := N_of_ascii c in
  (((48 <=? n) && (n <=? 57)) || ((65 <=? n) && (n <=? 90))
   || (n =? 95) || ((97 <=? n) && (n <=? 122)))%N.

Fixpoint trimStart (s : string) : string :=
  match s with
  | String c r => if is_space c then trimStart r else s
  | EmptyString => s
  end.

Fixpoint trimEnd (s : string) : string :=
  match s with
  | EmptyString => EmptyString
  | String c r =>
      match trimEnd r with
      | EmptyString => if is_space c then EmptyString else String c EmptyString
      | r' => String c r'
      end
  end.

Definition trim (s : string) : string := trimEnd (trimStart s).

(** [s.replace(/[^\w\s]/gi, '')] *)
Fixpoint strip_non_word (s : string) : string :=
  match s with
  | EmptyString => EmptyString
  | String c r =>
      if is_word c || is_space c then String c (strip_non_word r)
      else strip_non_word r
  end.

(** [s.replace(/\s+/g, ' ')]; [in_run] tells that the previous code unit
    was white space, already replaced. *)
Fixpoint collapse_spaces (in_run : bool) (s : string) : string :=
  match s with
  | EmptyString => EmptyString
  | String c r =>
      if is_space c
      then if in_run then collapse_spaces true r
           else String " " (collapse_spaces true r)
      else String c (collapse_spaces false r)
  end.

(** [[a, b].sort().join(sep)]: the default sort compares code units. *)
Definition sort_join (sep a b : string) : string :=
  if String.ltb b a then (b ++ sep ++ a)%string else (a ++ sep ++ b)%string.

End JSString.

(* ================================================================== *)
(** * Double-precision numbers between 0 and 1 *)
(* ================================================================== *)

(** A finite double is a rational number; the model keeps that value and
    rounds after each operation as IEEE 754 does (to the nearest double,
    ties to the even significand).  The scores of the matcher and its
    thresholds are the only fractional numbers of the cache, and all of
    them lie between 0 and 1, which is the range rounded here. *)
Module Double.

Definition pow2 (k : Z) : positive := Z.to_pos (2 ^ k).

(** For [0 < p <= q], the [s >= 0] with [2^-s <= p/q < 2^(1-s)]. *)
Definition binade (p q : Z) : Z :=
  let s0 := Z.log2 q - Z.log2 p in
  if q <=? p * 2 ^ s0 then s0 else s0 + 1.

(** The integer nearest to [n + rem/q], the even one of two at a tie. *)
Definition nearest_even (n rem q : Z) : Z :=
  if 2 * rem <? q then n
  else if q <? 2 * rem then n + 1
  else if Z.even n then n else n + 1.

(** The double nearest to [x], for [0 < x <= 1]: a significand of 53 bits
    at the exponent of [x].  (0 is a double; other values are not
    rounded by the code modelled here and are left as they are.) *)
Definition round (x : Q) : Q :=
  let p := Qnum x in
  let q := Zpos (Qden x) in
  if (0 <? p) && (p <=? q)
  then
    let k := 52 + binade p q in
    let num := p * 2 ^ k in
    nearest_even (num / q) (num mod q) q # pow2 k
  else x.

(** [1 - d / m] on a distance [d] and a length [m]: the quotient is
    rounded, then the difference.  A JavaScript string has fewer than
    2^53 code units; beyond that length, which no run reaches, the model
    keeps the exact value. *)
Definition one_minus_ratio (d m : nat) : Q :=
  let x := Z.of_nat d # Pos.of_nat m in
  if Z.of_nat m <? 2 ^ 53
  then round (1 - round x)
  else 1 - x.

End Double.

(* ================================================================== *)
(** * cache-similarity.js *)
(* ================================================================== *)

Module Similarity.

Record Config : Type := mkConfig {
  enabled : bool;
  threshold : Q;
  ignoreCase : bool;
  normalizeText : bool;
  useCache : bool;
  cacheSize : Z
}.

Definition default_config : Config :=
  {| enabled := true; threshold := Double.round (8 # 10); ignoreCase := true;
     normalizeText := true; useCache := true; cacheSize := 500 |}.

(** [similarityService._cache]: scores by pair key.  A score is a double,
    kept by its value. *)
Definition Memo := JSMap.t Q.

(** ** [_levenshteinSim] *)

(** A matrix cell is a number or a hole; a hole reads as [undefined] and
    turns arithmetic into [NaN], for which [None] stands as well. *)
Abbreviation cell := (option nat).
Abbreviation row := (list (option nat)).
Abbreviation matrix := (list (list (option nat))).

(** [r[j] = v]: writing past the end extends the array. *)
Fixpoint row_set (j : nat) (v : cell) (r : row) : row :=
  match j, r with
  | O, [] => [v]
  | O, _ :: t => v :: t
  | S j', [] => None :: row_set j' v []
  | S j', x :: t => x :: row_set j' v t
  end.

Definition row_get (j : nat) (r : row) : cell := nth j r None.

(** [m[i][j] = v]; the matrix has [a.length + 1] rows and [i] stays below. *)
Fixpoint mat_set (i j : nat) (v : cell) (m : matrix) : matrix :=
  match i, m with
  | _, [] => []
  | O, r :: rest => row_set j v r :: rest
  | S i', r :: rest => r :: mat_set i' j v rest
  end.

Definition mat_get (i j : nat) (m : matrix) : cell := row_get j (nth i m []).

Definition plus_cell (c : cell) (k : nat) : cell :=
  option_map (fun n => (n + k)%nat) c.

(** [Math.min(x, y, z)] *)
Definition min3 (x y z : cell) : cell :=
  match x, y, z with
  | Some p, Some q, Some r => Some (Nat.min p (Nat.min q r))
  | _, _, _ => None
  end.

(** [a[i] === b[j]] on code units, [undefined] past the end. *)
Definition same_unit (x y : option ascii) : bool :=
  match x, y with
  | Some c, Some d => Ascii.eqb c d
  | None, None => true
  | _, _ => false
  end.

Section Levenshtein.
Variables a b : string.

Definition fill_cell (i j : nat) (m : matrix) : matrix :=
  let cost := if same_unit (String.get (i - 1) a) (String.get (j - 1) b)
              then O else 1%nat in
  mat_set i j
    (min3 (plus_cell (mat_get (i - 1) j m) 1)
          (plus_cell (mat_get i (j - 1) m) 1)
          (plus_cell (mat_get (i - 1) (j - 1) m) cost))
    m.

Definition fill_row (i : nat) (m : matrix) : matrix :=
  fold_left (fun m j => fill_cell i j m) (seq 1 (String.length b)) m.

Definition levenshtein_matrix : matrix :=
  let la := String.length a in
  let lb := String.length b in
  let m0 := repeat ([] : row) (la + 1) in
  let m1 := fold_left (fun m i => mat_set i 0 (Some i) m) (seq 0 (la + 1)) m0 in
  let m2 := fold_left (fun m j => mat_set 0 j (Some j) m) (seq 0 (lb + 1)) m1 in
  fold_left (fun m i => fill_row i m) (seq 1 la) m2.

Definition distance : cell :=
  mat_get (String.length a) (String.length b) levenshtein_matrix.

(** [1 - distance / Math.max(a.length, b.length)], in double precision.
    [NaN] (a hole in the matrix, or 0/0 for two empty strings) has no
    rational value; it is given 0 here, and [distance_defined] and the
    guards of [_calculate] show that [_calculate] never reaches it. *)
Definition _levenshteinSim : Q :=
  match distance, Nat.max (String.length a) (String.length b) with
  | Some d, S n => Double.one_minus_ratio d (S n)
  | _, _ => 0
  end.

End Levenshtein.

(** ** [_normalize] *)

Definition normalize_string (cfg : Config) (text : string) : string :=
  let out := if ignoreCase cfg then JSString.toLowerCase text else text in
  if normalizeText cfg
  then JSString.trim (JSString.collapse_spaces false (JSString.strip_non_word out))
  else out.

(** A truthy value that is not a string has no [toLowerCase] and no
    [replace]: with [ignoreCase] or [normalizeText] on, the source raises
    a TypeError on it.  With both off the source passes such a value on
    as it is and goes on to score it (a number, for one, scores [NaN] and
    is never matched).  Scoring values that are not strings is outside
    the model, which raises in that case too; what is stated of runs
    that may meet such values says so. *)
Definition _normalize (cfg : Config) (text : JValue) : Result string :=
  if negb (truthy text) then Ok EmptyString
  else match text with
       | JStr s => Ok (normalize_string cfg s)
       | _ => Throw TypeError
       end.

(** ** [_calculate] *)

Definition cacheKey (a b : string) : string := JSString.sort_join "||" a b.

(** [this._cache.delete(this._cache.keys().next().value)]: the key is
    [undefined] when the map is empty and nothing is deleted. *)
Definition delete_oldest (memo : Memo) : Memo :=
  match memo with
  | [] => memo
  | (k, _) :: _ => JSMap.delete k memo
  end.

Definition is_empty (s : string) : bool := String.eqb s EmptyString.

Definition _calculate (cfg : Config) (a b : string) (memo : Memo) : Q * Memo :=
  if String.eqb a b then (1%Q, memo)
  else if is_empty a || is_empty b then (0%Q, memo)
  else
    let key := cacheKey a b in
    match (if useCache cfg then JSMap.get key memo else None) with
    | Some cached => (cached, memo)
    | None =>
        let score := _levenshteinSim a b in
        if useCache cfg then
          let memo1 :=
            if cacheSize cfg <? Z.of_nat (JSMap.size memo)
            then delete_oldest memo else memo in
          (score, JSMap.set key score memo1)
        else (score, memo)
    end.

(** ** [findBestMatch] *)

(** [x > y] on doubles: the order of their values. *)
Definition Qgtb (x y : Q) : bool := negb (Qle_bool x y).

(** The object [{ key, query: value, score }]. *)
Record Match : Type := mkMatch {
  key : string;
  query : JValue;
  score : Q
}.

(** [score > threshold && (!best || score > best.score)] *)
Definition improves (threshold : Q) (best : option Match) (s : Q) : bool :=
  Qgtb s threshold &&
  match best with
  | None => true
  | Some m => Qgtb s (score m)
  end.

(** The loop over [Object.entries(pool)]; the memo keeps what was written
    before an exception. *)
Fixpoint match_loop (cfg : Config) (normalized : string) (threshold : Q)
  (entries : list (string * JValue)) (best : option Match) (memo : Memo)
  : Result (option Match) * Memo :=
  match entries with
  | [] => (Ok best, memo)
  | (k, v) :: rest =>
      match _normalize cfg v with
      | Throw e => (Throw e, memo)
      | Ok candidate =>
          let (s, memo') := _calculate cfg normalized candidate memo in
          let best' := if improves threshold best s
                       then Some (mkMatch k v s) else best in
          match_loop cfg normalized threshold rest best' memo'
      end
  end.

(** [pool] lists the own properties of the pool object in the order of
    [Object.entries]. *)
Definition findBestMatch (cfg : Config) (q : JValue)
  (pool : list (string * JValue)) (threshold : Q) (memo : Memo)
  : Result (option Match) * Memo :=
  if negb (enabled cfg) || negb (truthy q) then (Ok None, memo)
  else
    match _normalize cfg q with
    | Throw e => (Throw e, memo)
    | Ok normalized => match_loop cfg normalized threshold pool None memo
    end.

End Similarity.

(* ================================================================== *)
(** * crypto.createHash('md5') *)
(* ================================================================== *)

Module MD5.

Definition add32 (x y : Z) : Z := (x + y) mod 4294967296.

Definition rotl32 (x c : Z) : Z :=
  Z.lor (Z.shiftl x c mod 4294967296) (Z.shiftr x (32 - c)).

Definition not32 (x : Z) : Z := Z.lxor x 4294967295.

Definition shifts : list Z :=
  [7; 12; 17; 22; 7; 12; 17; 22; 7; 12; 17; 22; 7; 12; 17; 22;
   5; 9; 14; 20; 5; 9; 14; 20; 5; 9; 14; 20; 5; 9; 14; 20;
   4; 11; 16; 23; 4; 11; 16; 23; 4; 11; 16; 23; 4; 11; 16; 23;
   6; 10; 15; 21; 6; 10; 15; 21; 6; 10; 15; 21; 6; 10; 15; 21].

(** floor(2^32 * |sin(i + 1)|) *)
Definition sines : list Z :=
  [
   3614090360; 3905402710; 606105819; 3250441966;
   4118548399; 1200080426; 2821735955; 4249261313;
   1770035416; 2336552879; 4294925233; 2304563134;
   1804603682; 4254626195; 2792965006; 1236535329;
   4129170786; 3225465664; 643717713; 3921069994;
   3593408605; 38016083; 3634488961; 3889429448;
   568446438; 3275163606; 4107603335; 1163531501;
   2850285829; 4243563512; 1735328473; 2368359562;
   4294588738; 2272392833; 1839030562; 4259657740;
   2763975236; 1272893353; 4139469664; 3200236656;
   681279174; 3936430074; 3572445317; 76029189;
   3654602809; 3873151461; 530742520; 3299628645;
   4096336452; 1126891415; 2878612391; 4237533241;
   1700485571; 2399980690; 4293915773; 2240044497;
   1873313359; 4264355552; 2734768916; 1309151649;
   4149444226; 3174756917; 718787259; 3951481745].

(** The UTF-8 bytes of a string of Latin-1 code units. *)
Fixpoint utf8 (s : string) : list Z :=
  match s with
  | EmptyString => []
  | String c r =>
      let n := Z.of_N (N_of_ascii c) in
      if n <? 128 then n :: utf8 r
      else Z.lor 192 (Z.shiftr n 6) :: Z.lor 128 (Z.land n 63) :: utf8 r
  end.

Definition le_bytes (count : nat) (x : Z) : list Z :=
  map (fun i => Z.land (Z.shiftr x (8 * Z.of_nat i)) 255) (seq 0 count).

Definition pad (msg : list Z) : list Z :=
  let len := Z.of_nat (List.length msg) in
  let zeros := Z.to_nat ((55 - len) mod 64) in
  msg ++ [128] ++ repeat 0 zeros ++ le_bytes 8 ((8 * len) mod 18446744073709551616).

Fixpoint le_word (bytes : list Z) : Z :=
  match bytes with
  | [] => 0
  | x :: r => x + 256 * le_word r
  end.

Fixpoint words (count : nat) (bytes : list Z) : list Z :=
  match count with
  | O => []
  | S n => le_word (firstn 4 bytes) :: words n (skipn 4 bytes)
  end.

Definition state : Type := (Z * Z * Z * Z)%type.

Definition step (block : list Z) (st : state) (i : nat) : state :=
  let '(a, b, c, d) := st in
  let zi := Z.of_nat i in
  let '(f, g) :=
    if zi <? 16 then (Z.lor (Z.land b c) (Z.land (not32 b) d), zi)
    else if zi <? 32 then (Z.lor (Z.land d b) (Z.land (not32 d) c), (5 * zi + 1) mod 16)
    else if zi <? 48 then (Z.lxor (Z.lxor b c) d, (3 * zi + 5) mod 16)
    else (Z.lxor c (Z.lor b (not32 d)), (7 * zi) mod 16) in
  let f' := add32 (add32 (add32 f a) (nth i sines 0)) (nth (Z.to_nat g) block 0) in
  (d, add32 b (rotl32 f' (nth i shifts 0)), b, c).

Definition compress_block (st : state) (block : list Z) : state :=
  let '(a0, b0, c0, d0) := st in
  let '(a, b, c, d) := fold_left (step block) (seq 0 64) st in
  (add32 a0 a, add32 b0 b, add32 c0 c, add32 d0 d).

Fixpoint blocks (count : nat) (bytes : list Z) : list (list Z) :=
  match count with
  | O => []
  | S n => words 16 (firstn 64 bytes) :: blocks n (skipn 64 bytes)
  end.

Definition initial : state := (1732584193, 4023233417, 2562383102, 271733878).

Definition digest (msg : list Z) : list Z :=
  let padded := pad msg in
  let '(a, b, c, d) :=
    fold_left compress_block (blocks (List.length padded / 64) padded) initial in
  le_bytes 4 a ++ le_bytes 4 b ++ le_bytes 4 c ++ le_bytes 4 d.

Definition hex_byte (x : Z) : string :=
  String (JSON.hex_digit (Z.to_N (x / 16)))
         (String (JSON.hex_digit (Z.to_N (x mod 16))) EmptyString).

Fixpoint hex (bytes : list Z) : string :=
  match bytes with
  | [] => EmptyString
  | x :: r => (hex_byte x ++ hex r)%string
  end.

(** [createHash('md5').update(text).digest('hex')] *)
Definition md5_hex (text : string) : string := hex (digest (utf8 text)).

End MD5.

(* ================================================================== *)
(** * cache-index.js *)
(* ================================================================== *)

Module Cache.

(** [cacheModule._config]; the cleanup timer is not part of the model. *)
Record Config : Type := mkConfig {
  enabled : bool;
  similarity_enabled : bool;
  similarity_threshold : Q;
  compression_enabled : bool;
  compression_minLength : Z;
  ttl : Z
}.

Definition default_config : Config :=
  {| enabled := true; similarity_enabled := true;
     similarity_threshold := Double.round (8 # 10);
     compression_enabled := true; compression_minLength := 500;
     ttl := 30 * 24 * 60 * 60 * 1000 |}.

(** The configurations of the facade and of the services it initialises,
    and the Node functions behind the codec. *)
Record Services : Type := mkServices {
  config : Config;
  similarity : Similarity.Config;
  compression : Compression.Config;
  zlib : Compression.Zlib
}.

Definition default_services (z : Compression.Zlib) : Services :=
  mkServices default_config Similarity.default_config
             Compression.default_config z.

(** The [options] argument: each field is absent or a string. *)
Record Options : Type := mkOptions {
  opt_key : option string;
  userId : option string;
  model : option string
}.

Definition no_options : Options := mkOptions None None None.

(** [o || ''] on an optional string. *)
Definition or_empty (o : option string) : string :=
  match o with
  | Some s => s
  | None => EmptyString
  end.

(** The process state: the clock behind [Date.now()] ([clock n] is what
    the n-th call returns), the store, the similarity memo, the counters. *)
Record World : Type := mkWorld {
  clock : nat -> Z;
  tick : nat;
  store : Store.t;
  memo : Similarity.Memo;
  stats : Stats.t
}.

Definition M (A : Type) : Type := World -> Result A * World.

Definition ret {A : Type} (a : A) : M A := fun w => (Ok a, w).

Definition throw {A : Type} (e : JSError) : M A := fun w => (Throw e, w).

Definition bind {A B : Type} (c : M A) (k : A -> M B) : M B :=
  fun w =>
    match c w with
    | (Ok a, w') => k a w'
    | (Throw e, w') => (Throw e, w')
    end.

Notation "x <- c ;; k" := (bind c (fun x => k))
  (at level 61, c at next level, right associativity).

Definition lift {A : Type} (r : Result A) : M A := fun w => (r, w).

Definition dateNow : M Z :=
  fun w => (Ok (clock w (tick w)),
            mkWorld (clock w) (S (tick w)) (store w) (memo w) (stats w)).

Definition on_store {A : Type} (f : Store.t -> A * Store.t) : M A :=
  fun w => let (a, s) := f (store w) in
           (Ok a, mkWorld (clock w) (tick w) s (memo w) (stats w)).

Definition on_stats (f : Stats.t -> Stats.t) : M unit :=
  fun w => (Ok tt, mkWorld (clock w) (tick w) (store w) (memo w) (f (stats w))).

Definition store_set (key : string) (v : JValue) (ttl : Z) : M bool :=
  now <- dateNow ;; on_store (Store.set now key v ttl).

(** [store.get(key)] as the caller sees it: the entry object or [null]. *)
Definition store_get (key : string) : M JValue :=
  now <- dateNow ;;
  item <- on_store (Store.get now key) ;;
  ret match item with
      | Some e => Store.entry_object e
      | None => JNull
      end.

Definition store_cleanup : M Z :=
  now <- dateNow ;; on_store (Store.cleanup now).

Section Facade.
Variable sv : Services.

(** [_generateKey(query, options)]: [query.toLowerCase] exists on strings
    only. *)
Definition key_base (q : string) (options : Options) : string :=
  (JSString.trim (JSString.toLowerCase q) ++ "|" ++ or_empty (userId options)
   ++ "|" ++ or_empty (model options))%string.

Definition _generateKey (q : JValue) (options : Options) : Result string :=
  match q with
  | JStr text => Ok ("cache:" ++ MD5.md5_hex (key_base text options))%string
  | _ => Throw TypeError
  end.

(** [options.key || this._generateKey(query, options)] *)
Definition resolve_key (q : JValue) (options : Options) : Result string :=
  match opt_key options with
  | Some k => if Similarity.is_empty k then _generateKey q options else Ok k
  | None => _generateKey q options
  end.

Definition set (q response : JValue) (options : Options) : M bool :=
  if negb (enabled (config sv)) then ret false
  else
    key <- lift (resolve_key q options) ;;
    ts <- dateNow ;;
    let payload :=
      JObj [("query", q); ("response", response);
            ("meta", JObj [("ts", JNum ts); ("key", JStr key)])] in
    let large :=
      compression_enabled (config sv) &&
      match JSON.stringify payload with
      | Some str => compression_minLength (config sv) <? Z.of_nat (String.length str)
      | None => false
      end in
    payload' <- (if large
                 then lift (Compression.compress (zlib sv) (compression sv) payload)
                 else ret payload) ;;
    success <- store_set key payload' (ttl (config sv)) ;;
    _ <- on_stats Stats.recordSet ;;
    ret success.

Definition _getByKey (key : string) : M JValue :=
  cached <- store_get key ;;
  if negb (truthy cached) then ret JNull
  else
    tag <- lift (get_prop cached "compressed") ;;
    cached' <- (if truthy tag
                then lift (Compression.decompress (zlib sv) cached)
                else ret cached) ;;
    lift (get_prop cached' "response").

(** [queries[key] = q] on the plain object [queries]: the name
    [__proto__] reaches the prototype setter and creates no property. *)
Definition assign (k : string) (v : JValue) (fs : list (string * JValue))
  : list (string * JValue) :=
  if String.eqb k "__proto__" then fs else JSON.obj_set k v fs.

(** The loop of [_findSimilar] that builds the pool. *)
Fixpoint build_pool (keys : list string) (queries : list (string * JValue))
  : M (list (string * JValue)) :=
  match keys with
  | [] => ret queries
  | key :: rest =>
      item <- store_get key ;;
      tag <- lift (get_prop item "compressed") ;;
      q <- (if truthy tag
            then (d <- lift (Compression.decompress (zlib sv) item) ;;
                  lift (get_prop d "query"))
            else lift (get_prop item "query")) ;;
      build_pool rest (assign key q queries)
  end.

Definition find_best (q : JValue) (pool : list (string * JValue))
  : M (option Similarity.Match) :=
  fun w =>
    let (r, memo') :=
      Similarity.findBestMatch (similarity sv) q pool
        (similarity_threshold (config sv)) (memo w) in
    (r, mkWorld (clock w) (tick w) (store w) memo' (stats w)).

Definition _findSimilar (q : JValue) : M JValue :=
  keys <- on_store (fun s => (Store.getKeys s, s)) ;;
  queries <- build_pool keys [] ;;
  best <- find_best q queries ;;
  match best with
  | None => ret JNull
  | Some m =>
      item <- store_get (Similarity.key m) ;;
      tag <- lift (get_prop item "compressed") ;;
      if truthy tag then lift (Compression.decompress (zlib sv) item)
      else ret item
  end.

Definition get (q : JValue) (options : Options) : M JValue :=
  if negb (enabled (config sv)) then ret JNull
  else
    match (match opt_key options with
           | Some k => if Similarity.is_empty k then None else Some k
           | None => None
           end) with
    | Some k =>
        item <- _getByKey k ;;
        _ <- on_stats (Stats.recordGet (truthy item)) ;;
        ret item
    | None =>
        best <- (if similarity_enabled (config sv)
                 then _findSimilar q else ret JNull) ;;
        if truthy best
        then
          _ <- on_stats (Stats.recordGet true) ;;
          lift (get_prop best "response")
        else
          _ <- on_stats (Stats.recordGet false) ;;
          ret JNull
    end.

Definition remove (key : string) : M bool :=
  result <- on_store (Store.remove key) ;;
  _ <- on_stats Stats.recordRemove ;;
  ret result.

Definition cleanup : M Z :=
  removed <- store_cleanup ;;
  _ <- on_stats (Stats.recordCleanup removed) ;;
  ret removed.

Definition clear : M bool :=
  result <- on_store Store.clear ;;
  _ <- on_stats Stats.recordClear ;;
  ret result.

End Facade.

(** The state after [initialize]: empty store (no snapshot), empty memo. *)
Definition initial_world (clk : nat -> Z) : World :=
  mkWorld clk 0 [] [] Stats.initial.

End Cache.

(* ================================================================== *)
(** * ai-index.js: the caller of the cache *)
(* ================================================================== *)

Module AI.

(** What [callOllama] and [callClaude] return: [{ content, model }]. *)
Record Response : Type := mkResponse {
  content : string;
  response_model : string
}.

(** The object built by [buildSettings]. *)
Record Settings : Type := mkSettings {
  model : string;
  temperature : Q;
  maxTokens : Z;
  systemPrompt : string;
  useCache : bool;
  userId : string
}.

(** The [options] argument of [complete]: each field is absent or has
    the type the module expects. *)
Record Options : Type := mkOptions {
  opt_model : option string;
  opt_temperature : option Q;
  opt_maxTokens : option Z;
  opt_systemPrompt : option string;
  opt_useCache : option bool;
  opt_userId : option string
}.

Definition no_options : Options := mkOptions None None None None None None.

(** [_config.services]: for each provider, its [enabled] flag when the
    provider is configured. *)
Record Services : Type := mkServices {
  ollama : option bool;
  claude : option bool
}.

(** [_config]; [services] is absent before [initialize]. *)
Record Config : Type := mkConfig {
  services : option Services;
  defaultModel : string;
  default_temperature : Q;
  default_maxTokens : Z;
  default_systemPrompt : string;
  caching_enabled : bool
}.

(** [_config] after [initialize({})] with no API key in the environment. *)
Definition default_config : Config :=
  {| services := Some (mkServices (Some true) (Some false));
     defaultModel := "llama3.1:8b";
     default_temperature := Double.round (7 # 10);
     default_maxTokens := 1024;
     default_systemPrompt :=
       "Rispondi sempre e solo in italiano con tono professionale.";
     caching_enabled := true |}.

(** The two network calls: each answers or raises an error with a
    message. *)
Inductive Attempt : Type :=
| Answered (r : Response)
| Refused (message : string).

Record Providers : Type := mkProviders {
  callOllama : string -> Settings -> Attempt;
  callClaude : string -> Settings -> Attempt
}.

(** What [complete] raises: an [Error] with a message (its own or a
    provider's), or what the cache raised. *)
Inductive Error : Type :=
| Failure (message : string)
| CacheFailure (e : JSError).

Inductive Outcome (A : Type) : Type :=
| Returned (a : A)
| Raised (e : Error).
Arguments Returned {A} a.
Arguments Raised {A} e.

(** The object [{ completion, model }] that [complete] returns. *)
Record Completion : Type := mkCompletion {
  completion : JValue;
  completion_model : string
}.

(** [o || d] on an optional string, [o || d] on an optional number. *)
Definition string_or (o : option string) (d : string) : string :=
  match o with
  | Some s => if Similarity.is_empty s then d else s
  | None => d
  end.

Definition number_or (o : option Z) (d : Z) : Z :=
  match o with
  | Some n => if n =? 0 then d else n
  | None => d
  end.

(** [o ?? d] *)
Definition nullish_or {A : Type} (o : option A) (d : A) : A :=
  match o with
  | Some a => a
  | None => d
  end.

Definition buildSettings (cfg : Config) (options : Options) : Settings :=
  {| model := string_or (opt_model options) (defaultModel cfg);
     temperature := nullish_or (opt_temperature options) (default_temperature cfg);
     maxTokens := number_or (opt_maxTokens options) (default_maxTokens cfg);
     systemPrompt := string_or (opt_systemPrompt options) (default_systemPrompt cfg);
     useCache := nullish_or (opt_useCache options) (caching_enabled cfg);
     userId := string_or (opt_userId options) "anon" |}.

Definition generateCacheKey (text : string) (opts : Settings) : string :=
  ("ai:" ++ MD5.md5_hex (text ++ "|" ++ model opts ++ "|" ++ userId opts))%string.

(** [_config.services.x && _config.services.x.enabled] *)
Definition service_on (flag : option bool) : bool :=
  match flag with
  | Some b => b
  | None => false
  end.

Section Complete.
Variable cfg : Config.
(** [_cache]: the cache module handed to [initialize], or [null]. *)
Variable cache : option Cache.Services.
Variable providers : Providers.

(** [settings.useCache && _cache] *)
Definition cache_in_use (settings : Settings) : option Cache.Services :=
  if useCache settings then cache else None.

Definition complete (promptText : string) (options : Options) (w : Cache.World)
  : Outcome Completion * Cache.World :=
  match services cfg with
  | None =>
      (Raised (Failure
         "Modulo AI non inizializzato correttamente - configurazione mancante"), w)
  | Some svc =>
      let settings := buildSettings cfg options in
      let cacheKey := generateCacheKey promptText settings in
      let keyed := Cache.mkOptions (Some cacheKey) None None in
      (* the lookup: [Some c] when the function returns from the cache *)
      let lookup : Outcome (option Completion) * Cache.World :=
        match cache_in_use settings with
        | None => (Returned None, w)
        | Some sv =>
            match Cache.get sv (JStr promptText) keyed w with
            | (Throw e, w1) => (Raised (CacheFailure e), w1)
            | (Ok cached, w1) =>
                if truthy cached
                then match get_prop cached "content" with
                     | Throw e => (Raised (CacheFailure e), w1)
                     | Ok c =>
                         (Returned (Some (mkCompletion
                                            (if truthy c then c else cached)
                                            (model settings))), w1)
                     end
                else (Returned None, w1)
            end
        end in
      match lookup with
      | (Raised e, w1) => (Raised e, w1)
      | (Returned (Some c), w1) => (Returned c, w1)
      | (Returned None, w1) =>
          let answer :=
            if service_on (ollama svc)
            then match callOllama providers promptText settings with
                 | Answered r => Answered r
                 | Refused err =>
                     if service_on (claude svc)
                     then callClaude providers promptText settings
                     else Refused err
                 end
            else if service_on (claude svc)
                 then callClaude providers promptText settings
                 else Refused "Nessun servizio AI disponibile" in
          match answer with
          | Refused message => (Raised (Failure message), w1)
          | Answered response =>
              let result := mkCompletion (JStr (content response))
                                         (response_model response) in
              match cache_in_use settings with
              | None => (Returned result, w1)
              | Some sv =>
                  match Cache.set sv (JStr promptText) (JStr (content response))
                          keyed w1 with
                  | (Throw e, w2) => (Raised (CacheFailure e), w2)
                  | (Ok _, w2) => (Returned result, w2)
                  end
              end
          end
      end
  end.

End Complete.

End AI.

(* ================================================================== *)
(** * Properties of the store *)
(* ================================================================== *)

(** C3, as the code has it: [Store.get] at time [now] returns the entry
    kept under the key exactly when the entry's [expiresAt] is not below
    [now], and leaves the store as it is; an entry whose [expiresAt] is
    below [now] is answered with [null] and deleted from the store; an
    absent key is answered with [null].  Every entry returned satisfies
    [now <= expiresAt]. *)
Theorem store_get_live_or_purged (now : Z) (key : string) (s : Store.t) :
  JSMap.wf s ->
  (forall e s', Store.get now key s = (Some e, s') ->
     JSMap.get key s = Some e /\ now <= Store.expiresAt e /\ s' = s) /\
  (forall e, JSMap.get key s = Some e -> now <= Store.expiresAt e ->
     Store.get now key s = (Some e, s)) /\
  (forall e, JSMap.get key s = Some e -> Store.expiresAt e < now ->
     Store.get now key s = (None, JSMap.delete key s) /\
     JSMap.get key (JSMap.delete key s) = None) /\
  (JSMap.get key s = None -> Store.get now key s = (None, s)).
Proof.
  intros Hwf. unfold Store.get. split; [|split; [|split]].
  - intros e s' H.
    destruct (JSMap.get key s) as [item|] eqn:Hget; [|discriminate].
    destruct (Store.expiresAt item <? now) eqn:Hexp; [discriminate|].
    injection H as <- <-. apply Z.ltb_ge in Hexp. auto.
  - intros e Hget Hle. rewrite Hget.
    apply Z.ltb_ge in Hle. now rewrite Hle.
  - intros e Hget Hlt. rewrite Hget. apply Z.ltb_lt in Hlt. rewrite Hlt.
    split; [reflexivity|]. now apply JSMap.get_delete_same.
  - intros ->. reflexivity.
Qed.

Lemma store_get_live_or_purged_witness :
  let s : Store.t := [("k", Store.mkEntry (JStr "v") 0 10)] in
  Store.get 11 "k" s = (None, []) /\ Store.get 10 "k" s = (Some (Store.mkEntry (JStr "v") 0 10), s).
Proof.
  intros s.
  assert (Hwf : JSMap.wf s).
  { unfold s, JSMap.wf. simpl. constructor; [simpl; tauto|constructor]. }
  split.
  - apply (proj1 (proj1 (proj2 (proj2 (store_get_live_or_purged 11 "k" s Hwf)))
                   (Store.mkEntry (JStr "v") 0 10) eq_refl ltac:(simpl; lia))).
  - apply (proj1 (proj2 (store_get_live_or_purged 10 "k" s Hwf))
             (Store.mkEntry (JStr "v") 0 10) eq_refl ltac:(simpl; lia)).
Defined.

(** C3 as stated fails at the instant of expiry: an entry stored at time 0
    with a time to live of 5 is returned by a [get] at time 5, where
    [now < expiresAt] does not hold. *)
Lemma store_get_returns_entry_at_expiry_instant :
  let s := snd (Store.set 0 "k" (JStr "v") 5 []) in
  exists e, Store.get 5 "k" s = (Some e, s) /\ ~ (5 < Store.expiresAt e).
Proof.
  simpl. eexists. split; [reflexivity|]. simpl. lia.
Qed.

(** C8: on a store whose entries are N entries with [expiresAt] in the
    past and M entries with [expiresAt] in the future, [cleanup] returns N,
    the store it leaves holds exactly the M future entries, unchanged and
    in their order, every past entry is gone, and [getKeys] then has
    length M. *)
Theorem cleanup_removes_exactly_the_expired
  (now : Z) (s : Store.t) (N M : nat) :
  JSMap.wf s ->
  List.length (filter (fun kv => Store.expiresAt (snd kv) <? now) s) = N ->
  List.length (filter (fun kv => now <? Store.expiresAt (snd kv)) s) = M ->
  List.length s = (N + M)%nat ->
  let (removed, s') := Store.cleanup now s in
  removed = Z.of_nat N /\
  s' = filter (fun kv => now <? Store.expiresAt (snd kv)) s /\
  List.length (Store.getKeys s') = M /\
  (forall k e, JSMap.get k s = Some e -> now < Store.expiresAt e ->
     JSMap.get k s' = Some e) /\
  (forall k e, JSMap.get k s = Some e -> Store.expiresAt e < now ->
     JSMap.get k s' = None).
Proof.
  intros Hwf HN HM Hlen. rewrite (Store.cleanup_spec now s Hwf).
  assert (Hfut : Store.keep_live now s
                 = filter (fun kv => now <? Store.expiresAt (snd kv)) s).
  { clear Hwf. revert N M HN HM Hlen.
    unfold Store.keep_live, Store.live, Store.expired.
    induction s as [|[k e] r IH]; intros N M HN HM Hlen; simpl in *; [reflexivity|].
    pose proof (Store.past_future_length now r) as L.
    destruct (Store.expiresAt e <? now) eqn:H1;
      destruct (now <? Store.expiresAt e) eqn:H2; simpl in *.
    - apply Z.ltb_lt in H1, H2. lia.
    - eapply IH; eauto. lia.
    - f_equal. eapply IH; eauto. lia.
    - exfalso. lia. }
  repeat split.
  - unfold Store.count_expired, Store.expired. now rewrite HN.
  - exact Hfut.
  - unfold Store.getKeys, JSMap.keys. rewrite length_map, Hfut. exact HM.
  - intros k e Hget Hlt. rewrite Store.get_keep_live by assumption.
    rewrite Hget. unfold Store.live, Store.expired.
    assert ((Store.expiresAt e <? now) = false) as -> by (apply Z.ltb_ge; lia).
    reflexivity.
  - intros k e Hget Hlt. rewrite Store.get_keep_live by assumption.
    rewrite Hget. unfold Store.live, Store.expired.
    assert ((Store.expiresAt e <? now) = true) as -> by (apply Z.ltb_lt; lia).
    reflexivity.
Qed.

Lemma cleanup_removes_exactly_the_expired_witness :
  let s : Store.t :=
    [("a", Store.mkEntry (JStr "x") 0 5); ("b", Store.mkEntry (JStr "y") 0 50);
     ("c", Store.mkEntry (JStr "z") 1 7)] in
  Store.cleanup 10 s = (2, [("b", Store.mkEntry (JStr "y") 0 50)]).
Proof.
  intros s.
  assert (Hwf : JSMap.wf s).
  { unfold s, JSMap.wf. simpl.
    repeat constructor; simpl; intuition discriminate. }
  pose proof (cleanup_removes_exactly_the_expired 10 s 2 1 Hwf
                eq_refl eq_refl eq_refl) as H.
  destruct (Store.cleanup 10 s) as [removed s'].
  destruct H as (-> & -> & _). reflexivity.
Defined.

(* ================================================================== *)
(** * JSON.parse inverts JSON.stringify *)
(* ================================================================== *)

Lemma append_assoc (s1 s2 s3 : string) :
  ((s1 ++ s2) ++ s3 = s1 ++ (s2 ++ s3))%string.
Proof. induction s1 as [|c s1 IH]; simpl; [reflexivity|]. now rewrite IH. Qed.

Lemma append_length (s1 s2 : string) :
  String.length (s1 ++ s2) = (String.length s1 + String.length s2)%nat.
Proof. induction s1 as [|c s1 IH]; simpl; [reflexivity|]. now rewrite IH. Qed.

(** Induction on values, with the items of arrays and objects. *)
Section ValueInduction.
Variable P : JValue -> Prop.
Hypothesis Hundefined : P JUndefined.
Hypothesis Hnull : P JNull.
Hypothesis Hbool : forall b, P (JBool b).
Hypothesis Hnum : forall n, P (JNum n).
Hypothesis Hstr : forall s, P (JStr s).
Hypothesis Harr : forall l, Forall P l -> P (JArr l).
Hypothesis Hobj : forall fs, Forall (fun kv => P (snd kv)) fs -> P (JObj fs).

Fixpoint value_ind (v : JValue) : P v :=
  match v with
  | JUndefined => Hundefined
  | JNull => Hnull
  | JBool b => Hbool b
  | JNum n => Hnum n
  | JStr s => Hstr s
  | JArr l =>
      Harr l ((fix items (l : list JValue) : Forall P l :=
                 match l with
                 | [] => Forall_nil P
                 | x :: r => Forall_cons x (value_ind x) (items r)
                 end) l)
  | JObj fs =>
      Hobj fs ((fix fields (fs : list (string * JValue))
                  : Forall (fun kv => P (snd kv)) fs :=
                  match fs with
                  | [] => Forall_nil _
                  | kv :: r => Forall_cons kv (value_ind (snd kv)) (fields r)
                  end) fs)
  end.
End ValueInduction.

(** The JSON values of the model: no [undefined] inside, integers that
    a double holds exactly, object properties in creation order. *)
Fixpoint json_value (v : JValue) : Prop :=
  match v with
  | JUndefined => False
  | JNull | JBool _ | JStr _ => True
  | JNum n => Z.abs n <= 9007199254740991
  | JArr l =>
      (fix items (l : list JValue) : Prop :=
         match l with
         | [] => True
         | x :: r => json_value x /\ items r
         end) l
  | JObj fs =>
      JSON.obj_of_members fs = fs /\
      (fix fields (fs : list (string * JValue)) : Prop :=
         match fs with
         | [] => True
         | kv :: r => json_value (snd kv) /\ fields r
         end) fs
  end.

Lemma json_value_items (l : list JValue) :
  json_value (JArr l) <-> Forall json_value l.
Proof.
  simpl. induction l as [|x r IH]; split; intros H.
  - constructor.
  - exact I.
  - destruct H as [Hx Hr]. constructor; [exact Hx|]. now apply IH.
  - inversion H; subst. split; [assumption|]. now apply IH.
Qed.

Lemma json_value_fields (fs : list (string * JValue)) :
  json_value (JObj fs) <->
  JSON.obj_of_members fs = fs /\ Forall (fun kv => json_value (snd kv)) fs.
Proof.
  simpl. apply and_iff_compat_l.
  induction fs as [|kv r IH]; split; intros H.
  - constructor.
  - exact I.
  - destruct H as [Hx Hr]. constructor; [exact Hx|]. now apply IH.
  - inversion H; subst. split; [assumption|]. now apply IH.
Qed.

(** String literals. *)
Lemma parse_escaped_char (c : ascii) (rest : string) :
  JSON.parse_chars (JSON.escape_char c ++ rest)
  = match JSON.parse_chars rest with
    | Some (str, out) => Some (String c str, out)
    | None => None
    end.
Proof.
  destruct c as [b0 b1 b2 b3 b4 b5 b6 b7].
  destruct b0, b1, b2, b3, b4, b5, b6, b7; reflexivity.
Qed.

Lemma parse_escaped (s rest : string) :
  JSON.parse_chars (JSON.escape s ++ String JSON.dquote rest) = Some (s, rest).
Proof.
  induction s as [|c s IH]; simpl.
  - reflexivity.
  - rewrite append_assoc, parse_escaped_char, IH. reflexivity.
Qed.

Lemma parse_quoted (s rest : string) :
  JSON.parse_chars (JSON.tail (JSON.quote s ++ rest)) = Some (s, rest).
Proof.
  unfold JSON.quote. simpl. rewrite append_assoc. simpl. apply parse_escaped.
Qed.

(** Number literals. *)
Definition follows (rest : string) : bool :=
  match rest with
  | EmptyString => true
  | String c _ => ((c =? ",") || (c =? "]") || (c =? "}"))%char
  end.

Fixpoint all_digits (s : string) : bool :=
  match s with
  | EmptyString => true
  | String c r => JSON.is_digit c && all_digits r
  end.

Lemma follows_cases (rest : string) :
  follows rest = true ->
  JSON.skip_ws rest = rest /\ JSON.fraction_follows rest = false /\
  JSON.span_digits rest = (EmptyString, rest).
Proof.
  destruct rest as [|c rest]; [auto|]. simpl.
  destruct c as [b0 b1 b2 b3 b4 b5 b6 b7].
  destruct b0, b1, b2, b3, b4, b5, b6, b7; simpl; intros H;
    try discriminate H; auto.
Qed.

Lemma span_all_digits (s rest : string) :
  all_digits s = true ->
  JSON.span_digits rest = (EmptyString, rest) ->
  JSON.span_digits (s ++ rest) = (s, rest).
Proof.
  intros Hs Hrest. induction s as [|c s IH]; simpl in *; [exact Hrest|].
  apply andb_true_iff in Hs as [Hc Hs]. rewrite Hc, (IH Hs). reflexivity.
Qed.

Lemma uint_digits (u : Decimal.uint) :
  all_digits (NilEmpty.string_of_uint u) = true.
Proof. induction u; simpl; try reflexivity; rewrite IHu; reflexivity. Qed.

Lemma uint_string_digits (u : Decimal.uint) :
  all_digits (NilZero.string_of_uint u) = true.
Proof. destruct u; try reflexivity; apply uint_digits. Qed.

Lemma pos_uint_normal (p : positive) :
  Decimal.unorm (Pos.to_uint p) = Pos.to_uint p.
Proof.
  rewrite <- (DecimalPos.Unsigned.to_of (Pos.to_uint p)).
  now rewrite DecimalPos.Unsigned.of_to.
Qed.

Lemma pos_uint_head (p : positive) :
  exists c r, NilZero.string_of_uint (Pos.to_uint p) = String c r /\
              JSON.is_digit c = true /\ (c =? "0")%char = false /\
              (c =? "-")%char = false.
Proof.
  pose proof (pos_uint_normal p) as Hnorm.
  pose proof (DecimalPos.Unsigned.of_to p) as Hof.
  destruct (Pos.to_uint p) as [|d|d|d|d|d|d|d|d|d|d] eqn:Hu;
    try (simpl; eexists; eexists; repeat split; reflexivity).
  - discriminate Hof.
  - exfalso. unfold Decimal.unorm in Hnorm. rewrite DecimalFacts.nzhead_D0 in Hnorm.
    destruct (Decimal.nzhead d) eqn:Hd.
    + injection Hnorm as <-. discriminate Hof.
    + apply (DecimalFacts.nzhead_nonzero d d). congruence.
    + pose proof (DecimalFacts.nzhead_nonzero d d). congruence.
    + pose proof (DecimalFacts.nzhead_nonzero d d). congruence.
    + pose proof (DecimalFacts.nzhead_nonzero d d). congruence.
    + pose proof (DecimalFacts.nzhead_nonzero d d). congruence.
    + pose proof (DecimalFacts.nzhead_nonzero d d). congruence.
    + pose proof (DecimalFacts.nzhead_nonzero d d). congruence.
    + pose proof (DecimalFacts.nzhead_nonzero d d). congruence.
    + pose proof (DecimalFacts.nzhead_nonzero d d). congruence.
    + pose proof (DecimalFacts.nzhead_nonzero d d). congruence.
Qed.

Lemma parse_digits_of_pos (p : positive) (rest : string) (neg : bool) :
  follows rest = true ->
  (let (digits, out) :=
     JSON.span_digits (NilZero.string_of_uint (Pos.to_uint p) ++ rest) in
   if JSON.leading_zero digits || JSON.fraction_follows out then None
   else match NilZero.uint_of_string digits with
        | Some u => let n := Z.of_N (N.of_uint u) in
                    Some (if neg then - n else n, out)
        | None => None
        end)
  = Some (if neg then Z.neg p else Z.pos p, rest).
Proof.
  intros Hrest. destruct (follows_cases rest Hrest) as (_ & Hfrac & Hspan).
  rewrite (span_all_digits _ rest (uint_string_digits _) Hspan).
  destruct (pos_uint_head p) as (c & r & Htext & _ & Hzero & _).
  assert (Hlead : JSON.leading_zero (NilZero.string_of_uint (Pos.to_uint p)) = false).
  { rewrite Htext. simpl. destruct r; [reflexivity|exact Hzero]. }
  rewrite Hlead, Hfrac. simpl.
  rewrite NilZero.usu.
  2:{ rewrite <- pos_uint_normal. apply DecimalFacts.unorm_nonnil. }
  unfold N.of_uint. rewrite DecimalPos.Unsigned.of_to. simpl.
  destruct neg; reflexivity.
Qed.

Lemma parse_number_text (n : Z) (rest : string) :
  follows rest = true ->
  JSON.parse_number (JSON.number_to_string n ++ rest) = Some (n, rest).
Proof.
  intros Hrest. unfold JSON.number_to_string.
  destruct n as [|p|p]; simpl Z.to_int; simpl NilZero.string_of_int.
  - destruct (follows_cases rest Hrest) as (_ & Hfrac & Hspan).
    unfold JSON.parse_number. simpl. rewrite Hspan. simpl. rewrite Hfrac.
    reflexivity.
  - destruct (pos_uint_head p) as (c & r & Htext & _ & _ & Hminus).
    pose proof (parse_digits_of_pos p rest false Hrest) as H.
    rewrite Htext in *. simpl append in *.
    unfold JSON.parse_number. rewrite Hminus. exact H.
  - unfold JSON.parse_number. simpl.
    apply (parse_digits_of_pos p rest true Hrest).
Qed.

Lemma number_head (n : Z) :
  exists c r, JSON.number_to_string n = String c r /\
              (JSON.is_digit c || (c =? "-")%char) = true.
Proof.
  unfold JSON.number_to_string. destruct n as [|p|p]; simpl.
  - eexists. eexists. split; reflexivity.
  - destruct (pos_uint_head p) as (c & r & Htext & Hdigit & _).
    exists c, r. rewrite Hdigit. auto.
  - eexists. eexists. split; reflexivity.
Qed.

Lemma number_head_dispatch (c : ascii) :
  (JSON.is_digit c || (c =? "-")%char) = true ->
  JSON.is_ws c = false /\ (c =? "n")%char = false /\ (c =? "t")%char = false /\
  (c =? "f")%char = false /\ (c =? JSON.dquote)%char = false /\
  (c =? "[")%char = false /\ (c =? "{")%char = false /\
  (c =? "]")%char = false /\ (c =? "}")%char = false.
Proof.
  destruct c as [b0 b1 b2 b3 b4 b5 b6 b7].
  destruct b0, b1, b2, b3, b4, b5, b6, b7; simpl; intros H;
    try discriminate H; repeat split.
Qed.

(** The text of a value inside an array or an object. *)
Definition text_of (x : JValue) : string :=
  match JSON.stringify x with
  | Some s => s
  | None => "null"
  end.

Definition member_text (kv : string * JValue) : string :=
  (JSON.quote (fst kv) ++ ":" ++ text_of (snd kv))%string.

Lemma stringify_array (l : list JValue) :
  JSON.stringify (JArr l) = Some ("[" ++ JSON.join_comma (map text_of l) ++ "]")%string.
Proof. reflexivity. Qed.

Lemma stringify_defined (x : JValue) :
  json_value x -> exists s, JSON.stringify x = Some s.
Proof.
  destruct x; simpl; try (intros; eexists; reflexivity).
  - intros [].
  - destruct b; eexists; reflexivity.
Qed.

Fixpoint defined_members (fs : list (string * JValue)) : list string :=
  match fs with
  | [] => []
  | (k, x) :: r =>
      match JSON.stringify x with
      | Some s => (JSON.quote k ++ ":" ++ s)%string :: defined_members r
      | None => defined_members r
      end
  end.

Lemma stringify_members (fs : list (string * JValue)) :
  JSON.stringify (JObj fs)
  = Some ("{" ++ JSON.join_comma (defined_members fs) ++ "}")%string.
Proof. reflexivity. Qed.

Lemma defined_members_all (fs : list (string * JValue)) :
  Forall (fun kv => json_value (snd kv)) fs ->
  defined_members fs = map member_text fs.
Proof.
  induction 1 as [|[k x] r Hx _ IH]; simpl; [reflexivity|].
  destruct (stringify_defined x Hx) as [s Hs].
  unfold member_text, text_of. simpl. rewrite Hs. now rewrite IH.
Qed.

Lemma stringify_object (fs : list (string * JValue)) :
  Forall (fun kv => json_value (snd kv)) fs ->
  JSON.stringify (JObj fs)
  = Some ("{" ++ JSON.join_comma (map member_text fs) ++ "}")%string.
Proof.
  intros Hall. rewrite stringify_members. now rewrite defined_members_all.
Qed.

Lemma append_empty_r (s : string) : (s ++ EmptyString)%string = s.
Proof. induction s as [|c s IH]; simpl; [reflexivity|]. now rewrite IH. Qed.

(** The first character of the text of a value tells the parser which
    kind of value follows. *)
Lemma value_head (x : JValue) :
  json_value x ->
  exists c r, text_of x = String c r /\ JSON.is_ws c = false /\
              (c =? "]")%char = false /\ (c =? "}")%char = false.
Proof.
  intros Hx. unfold text_of. destruct x; simpl in *.
  - destruct Hx.
  - eexists. eexists. repeat split.
  - destruct b; eexists; eexists; repeat split.
  - destruct (number_head n) as (c & r & -> & Hc).
    destruct (number_head_dispatch c Hc) as (Hws & _ & _ & _ & _ & _ & _ & H1 & H2).
    exists c, r. auto.
  - eexists. eexists. repeat split.
  - eexists. eexists. repeat split.
  - eexists. eexists. repeat split.
Qed.

Lemma skip_ws_head (c : ascii) (r : string) :
  JSON.is_ws c = false -> JSON.skip_ws (String c r) = String c r.
Proof. intros H. simpl. now rewrite H. Qed.

(** What it means for the parser to read back the text of [x]. *)
Definition parses (x : JValue) : Prop :=
  forall rest fuel,
  follows rest = true -> (String.length (text_of x) < fuel)%nat ->
  JSON.parse_value fuel (text_of x ++ rest) = Some (x, rest).

Lemma parse_elements_step (f : nat) (s : string) :
  JSON.parse_elements (S f) s
  = match JSON.parse_value f s with
    | Some (v, r) =>
        if JSON.starts_with "," (JSON.skip_ws r) then
          match JSON.parse_elements f (JSON.tail (JSON.skip_ws r)) with
          | Some (vs, out) => Some (v :: vs, out)
          | None => None
          end
        else if JSON.starts_with "]" (JSON.skip_ws r)
             then Some ([v], JSON.tail (JSON.skip_ws r))
        else None
    | None => None
    end.
Proof. reflexivity. Qed.

Lemma join_comma_cons (x y : string) (l : list string) :
  JSON.join_comma (x :: y :: l) = (x ++ "," ++ JSON.join_comma (y :: l))%string.
Proof. reflexivity. Qed.

Lemma parse_elements_texts (l : list JValue) :
  Forall (fun x => json_value x /\ parses x) l -> l <> [] ->
  forall rest fuel,
  follows rest = true ->
  (String.length (JSON.join_comma (map text_of l)) + 1 < fuel)%nat ->
  JSON.parse_elements fuel (JSON.join_comma (map text_of l) ++ "]" ++ rest)
  = Some (l, rest).
Proof.
  induction 1 as [|x l [Hx Hpx] Hall IH]; intros Hne rest fuel Hrest Hfuel;
    [congruence|].
  destruct fuel as [|f]; [lia|]. rewrite parse_elements_step.
  destruct l as [|y l].
  - simpl map in *. simpl JSON.join_comma in *.
    rewrite Hpx by (auto; lia). reflexivity.
  - simpl map in *. rewrite join_comma_cons in *.
    remember (JSON.join_comma (text_of y :: map text_of l)) as J eqn:HJ.
    rewrite append_length in Hfuel. simpl String.length in Hfuel.
    rewrite !append_assoc. rewrite Hpx by (auto; lia).
    change ("," ++ J ++ "]" ++ rest)%string
      with (String "," (J ++ "]" ++ rest))%string.
    rewrite skip_ws_head by reflexivity.
    cbn [JSON.starts_with JSON.tail].
    change ("," =? ",")%char with true. cbv iota.
    rewrite IH by (auto; try discriminate; lia). reflexivity.
Qed.

Lemma parse_members_step (f : nat) (s : string) :
  JSON.parse_members (S f) s
  = if JSON.starts_with JSON.dquote (JSON.skip_ws s) then
      match JSON.parse_chars (JSON.tail (JSON.skip_ws s)) with
      | Some (k, r1) =>
          if JSON.starts_with ":" (JSON.skip_ws r1) then
            match JSON.parse_value f (JSON.tail (JSON.skip_ws r1)) with
            | Some (v, r3) =>
                if JSON.starts_with "," (JSON.skip_ws r3) then
                  match JSON.parse_members f (JSON.tail (JSON.skip_ws r3)) with
                  | Some (ms, out) => Some ((k, v) :: ms, out)
                  | None => None
                  end
                else if JSON.starts_with "}" (JSON.skip_ws r3)
                     then Some ([(k, v)], JSON.tail (JSON.skip_ws r3))
                else None
            | None => None
            end
          else None
      | None => None
      end
    else None.
Proof. reflexivity. Qed.

Lemma quoted_head (k rest : string) :
  JSON.skip_ws (JSON.quote k ++ rest) = (JSON.quote k ++ rest)%string /\
  JSON.starts_with JSON.dquote (JSON.quote k ++ rest) = true /\
  JSON.starts_with "}" (JSON.quote k ++ rest) = false.
Proof. unfold JSON.quote. repeat split. Qed.

Lemma member_text_length (k : string) (x : JValue) :
  (String.length (text_of x) < String.length (member_text (k, x)))%nat.
Proof.
  unfold member_text. simpl. rewrite append_length. simpl. lia.
Qed.

Lemma parse_members_texts (fs : list (string * JValue)) :
  Forall (fun kv => json_value (snd kv) /\ parses (snd kv)) fs -> fs <> [] ->
  forall rest fuel,
  follows rest = true ->
  (String.length (JSON.join_comma (map member_text fs)) + 1 < fuel)%nat ->
  JSON.parse_members fuel (JSON.join_comma (map member_text fs) ++ "}" ++ rest)
  = Some (fs, rest).
Proof.
  induction 1 as [|[k x] fs [Hx Hpx] Hall IH]; intros Hne rest fuel Hrest Hfuel;
    [congruence|].
  simpl in Hx, Hpx. pose proof (member_text_length k x) as Hlen.
  destruct fuel as [|f]; [lia|]. rewrite parse_members_step.
  assert (Hstep : forall tailpart,
            JSON.starts_with JSON.dquote
              (JSON.skip_ws (member_text (k, x) ++ tailpart)) = true /\
            JSON.parse_chars (JSON.tail (JSON.skip_ws (member_text (k, x) ++ tailpart)))
            = Some (k, String ":" (text_of x ++ tailpart))).
  { intros tailpart. unfold member_text. simpl fst. simpl snd.
    rewrite append_assoc.
    destruct (quoted_head k ((":" ++ text_of x) ++ tailpart)) as (-> & -> & _).
    split; [reflexivity|]. rewrite parse_quoted. now rewrite append_assoc. }
  destruct fs as [|kv fs].
  - simpl map in *. cbn [JSON.join_comma] in *.
    destruct (Hstep ("}" ++ rest)%string) as [-> ->].
    rewrite skip_ws_head by reflexivity. cbn [JSON.starts_with JSON.tail].
    change (":" =? ":")%char with true. cbv iota.
    rewrite Hpx by (auto; lia). reflexivity.
  - simpl map in *. rewrite join_comma_cons in *.
    remember (JSON.join_comma (member_text kv :: map member_text fs)) as J eqn:HJ.
    rewrite !append_length in Hfuel.
    change (String.length ",") with 1%nat in Hfuel.
    rewrite !append_assoc.
    destruct (Hstep ("," ++ J ++ "}" ++ rest)%string) as [-> ->].
    rewrite skip_ws_head by reflexivity. cbn [JSON.starts_with JSON.tail].
    change (":" =? ":")%char with true. cbv iota.
    rewrite Hpx by (auto; lia).
    change ("," ++ J ++ "}" ++ rest)%string
      with (String "," (J ++ "}" ++ rest))%string.
    rewrite skip_ws_head by reflexivity.
    cbn [JSON.starts_with JSON.tail].
    change ("," =? ",")%char with true. cbv iota.
    rewrite IH by (auto; try discriminate; lia). reflexivity.
Qed.

Lemma parse_value_step (f : nat) (c : ascii) (r : string) :
  JSON.is_ws c = false ->
  JSON.parse_value (S f) (String c r)
  = if (c =? "n")%char then option_map (pair JNull) (JSON.expect "ull" r)
    else if (c =? "t")%char then option_map (pair (JBool true)) (JSON.expect "rue" r)
    else if (c =? "f")%char then option_map (pair (JBool false)) (JSON.expect "alse" r)
    else if (c =? JSON.dquote)%char then
      match JSON.parse_chars r with
      | Some (str, out) => Some (JStr str, out)
      | None => None
      end
    else if (c =? "[")%char then
      if JSON.starts_with "]" (JSON.skip_ws r)
      then Some (JArr [], JSON.tail (JSON.skip_ws r))
      else match JSON.parse_elements f r with
           | Some (items, out) => Some (JArr items, out)
           | None => None
           end
    else if (c =? "{")%char then
      if JSON.starts_with "}" (JSON.skip_ws r)
      then Some (JObj [], JSON.tail (JSON.skip_ws r))
      else match JSON.parse_members f r with
           | Some (ms, out) => Some (JObj (JSON.obj_of_members ms), out)
           | None => None
           end
    else if (JSON.is_digit c || (c =? "-")%char) then
      match JSON.parse_number (String c r) with
      | Some (n, out) => Some (JNum n, out)
      | None => None
      end
    else None.
Proof.
  intros Hws. cbn [JSON.parse_value]. rewrite skip_ws_head by exact Hws.
  reflexivity.
Qed.

Lemma join_head (x : JValue) (l : list JValue) (rest : string) :
  json_value x ->
  JSON.skip_ws (JSON.join_comma (map text_of (x :: l)) ++ rest)
  = (JSON.join_comma (map text_of (x :: l)) ++ rest)%string /\
  JSON.starts_with "]" (JSON.join_comma (map text_of (x :: l)) ++ rest) = false.
Proof.
  intros Hx. destruct (value_head x Hx) as (c & r & Htext & Hws & Hclose & _).
  destruct l as [|y l]; simpl map.
  - cbn [JSON.join_comma]. rewrite Htext. simpl append.
    rewrite skip_ws_head by exact Hws. simpl. auto.
  - rewrite join_comma_cons. rewrite Htext. simpl append.
    rewrite skip_ws_head by exact Hws. simpl. auto.
Qed.

Lemma member_join_head (k : string) (x : JValue)
  (fs : list (string * JValue)) (rest : string) :
  JSON.skip_ws (JSON.join_comma (map member_text ((k, x) :: fs)) ++ rest)
  = (JSON.join_comma (map member_text ((k, x) :: fs)) ++ rest)%string /\
  JSON.starts_with "}" (JSON.join_comma (map member_text ((k, x) :: fs)) ++ rest)
  = false.
Proof.
  destruct fs as [|kv fs]; simpl map.
  - cbn [JSON.join_comma]. unfold member_text. simpl fst. simpl snd.
    rewrite !append_assoc.
    match goal with
    | |- JSON.skip_ws (JSON.quote ?k0 ++ ?R) = _ /\ _ =>
        destruct (quoted_head k0 R) as (H1 & _ & H2); auto
    end.
  - rewrite join_comma_cons.
    remember (JSON.join_comma (member_text kv :: map member_text fs)) as J eqn:HJ.
    unfold member_text. simpl fst. simpl snd.
    rewrite !append_assoc.
    match goal with
    | |- JSON.skip_ws (JSON.quote ?k0 ++ ?R) = _ /\ _ =>
        destruct (quoted_head k0 R) as (H1 & _ & H2); auto
    end.
Qed.

Lemma parse_value_text (x : JValue) : json_value x -> parses x.
Proof.
  induction x as [| |b|n|s|l IH|fs IH] using value_ind; intros Hx.
  - destruct Hx.
  - intros rest [|f] Hrest Hfuel; [lia|]. reflexivity.
  - intros rest [|f] Hrest Hfuel; [lia|]. destruct b; reflexivity.
  - intros rest [|f] Hrest Hfuel; [lia|].
    unfold text_of. cbn [JSON.stringify].
    destruct (number_head n) as (c & r & Htext & Hc).
    destruct (number_head_dispatch c Hc)
      as (Hws & H1 & H2 & H3 & H4 & H5 & H6 & _).
    pose proof (parse_number_text n rest Hrest) as Hnum.
    rewrite Htext in *. simpl append in *.
    rewrite parse_value_step by exact Hws.
    rewrite H1, H2, H3, H4, H5, H6, Hc, Hnum. reflexivity.
  - intros rest [|f] Hrest Hfuel; [lia|].
    unfold text_of. cbn [JSON.stringify]. unfold JSON.quote.
    change (String JSON.dquote (JSON.escape s ++ JSON.str1 JSON.dquote) ++ rest)%string
      with (String JSON.dquote ((JSON.escape s ++ JSON.str1 JSON.dquote) ++ rest))%string.
    rewrite parse_value_step by reflexivity.
    change (JSON.dquote =? "n")%char with false.
    change (JSON.dquote =? "t")%char with false.
    change (JSON.dquote =? "f")%char with false.
    change (JSON.dquote =? JSON.dquote)%char with true. cbv iota.
    rewrite append_assoc. unfold JSON.str1. simpl append.
    rewrite parse_escaped. reflexivity.
  - apply json_value_items in Hx.
    assert (Hall : Forall (fun x => json_value x /\ parses x) l).
    { clear -IH Hx. induction l as [|x l IHl]; [constructor|].
      inversion IH; inversion Hx; subst. constructor; auto. }
    intros rest [|f] Hrest Hfuel; [lia|].
    unfold text_of in *. rewrite stringify_array in *.
    change ("[" ++ JSON.join_comma (map text_of l) ++ "]")%string
      with (String "[" (JSON.join_comma (map text_of l) ++ "]"))%string in *.
    simpl String.length in Hfuel. rewrite append_length in Hfuel.
    simpl String.length in Hfuel.
    simpl append. rewrite parse_value_step by reflexivity.
    change ("[" =? "n")%char with false. change ("[" =? "t")%char with false.
    change ("[" =? "f")%char with false.
    change ("[" =? JSON.dquote)%char with false.
    change ("[" =? "[")%char with true. cbv iota.
    rewrite append_assoc.
    destruct l as [|x l].
    + reflexivity.
    + inversion Hx; subst.
      destruct (join_head x l ("]" ++ rest)%string) as [-> ->]; [assumption|].
      rewrite parse_elements_texts; auto; [discriminate|lia].
  - apply json_value_fields in Hx. destruct Hx as [Hcanon Hx].
    assert (Hall : Forall (fun kv => json_value (snd kv) /\ parses (snd kv)) fs).
    { clear -IH Hx. induction fs as [|kv fs IHfs]; [constructor|].
      inversion IH; inversion Hx; subst. constructor; auto. }
    intros rest [|f] Hrest Hfuel; [lia|].
    unfold text_of in *. rewrite (stringify_object fs Hx) in *.
    change ("{" ++ JSON.join_comma (map member_text fs) ++ "}")%string
      with (String "{" (JSON.join_comma (map member_text fs) ++ "}"))%string in *.
    simpl String.length in Hfuel. rewrite append_length in Hfuel.
    simpl String.length in Hfuel.
    simpl append. rewrite parse_value_step by reflexivity.
    change ("{" =? "n")%char with false. change ("{" =? "t")%char with false.
    change ("{" =? "f")%char with false.
    change ("{" =? JSON.dquote)%char with false.
    change ("{" =? "[")%char with false.
    change ("{" =? "{")%char with true. cbv iota.
    rewrite append_assoc.
    destruct fs as [|[k x] fs].
    + reflexivity.
    + destruct (member_join_head k x fs ("}" ++ rest)%string) as [Hskip Hclose].
      rewrite Hskip, Hclose.
      rewrite parse_members_texts; auto; [|discriminate|lia].
      now rewrite Hcanon.
Qed.

(** A value survives serialization when [JSON.parse(JSON.stringify(x))] is
    [x] again. *)
Definition json_roundtrips (x : JValue) : Prop :=
  exists text, JSON.stringify x = Some text /\ JSON.parse text = Ok x.

(** Every JSON value of the model survives serialization. *)
Lemma json_value_roundtrips (x : JValue) : json_value x -> json_roundtrips x.
Proof.
  intros Hx. destruct (stringify_defined x Hx) as [text Htext].
  exists text. split; [exact Htext|].
  pose proof (parse_value_text x Hx EmptyString (S (String.length text)) eq_refl)
    as Hparse.
  unfold text_of in Hparse. rewrite Htext in Hparse.
  rewrite append_empty_r in Hparse.
  unfold JSON.parse. rewrite Hparse by lia. reflexivity.
Qed.

(* ================================================================== *)
(** * Properties of the compression codec *)
(* ================================================================== *)

(** [x.compressed] can be read and is falsy. *)
Definition untagged (x : JValue) : Prop :=
  exists tag, get_prop x "compressed" = Ok tag /\ truthy tag = false.

Lemma decompress_untagged z x :
  untagged x -> Compression.decompress z x = Ok x.
Proof.
  intros (tag & Hget & Hfalsy). unfold Compression.decompress.
  rewrite Hget. simpl. now rewrite Hfalsy.
Qed.

Lemma decompress_wrapper z text :
  Compression.ZlibLaws z ->
  Compression.decompress z
    (Compression.wrapper (Compression.base64_encode z (Compression.gzip z text))
                         (Z.of_nat (String.length text)))
  = JSON.parse text.
Proof.
  intros [Hgz Hb64]. unfold Compression.decompress, Compression.wrapper.
  simpl. now rewrite Hb64, Hgz.
Qed.

(** C2, as the code has it: for every JSON-serializable payload [x] (a
    JSON value) that is not null and does not itself carry a truthy
    [compressed] property, [decompress(compress(x))] is [x], whatever its
    serialized length; [compress] returns [x] itself when the service is
    disabled or the serialized length is below [minLength], and the tagged
    wrapper [{compressed: true, encoding: "gzip", data, originalLength}]
    otherwise. *)
Theorem compress_decompress_roundtrip
  (z : Compression.Zlib) (cfg : Compression.Config) (x : JValue) :
  Compression.ZlibLaws z ->
  json_value x ->
  untagged x ->
  exists text y,
    JSON.stringify x = Some text /\
    Compression.compress z cfg x = Ok y /\
    Compression.decompress z y = Ok x /\
    y = (if negb (Compression.enabled cfg)
            || (Z.of_nat (String.length text) <? Compression.minLength cfg)
         then x
         else Compression.wrapper
                (Compression.base64_encode z (Compression.gzip z text))
                (Z.of_nat (String.length text))).
Proof.
  intros Hlaws Hjson Htag.
  destruct (json_value_roundtrips x Hjson) as (text & Hstr & Hparse).
  exists text. unfold Compression.compress. rewrite Hstr.
  destruct (Compression.enabled cfg); simpl.
  - destruct (Z.of_nat (String.length text) <? Compression.minLength cfg).
    + exists x. repeat split; trivial. now apply decompress_untagged.
    + eexists. repeat split; trivial.
      rewrite decompress_wrapper by assumption. exact Hparse.
  - exists x. repeat split; trivial. now apply decompress_untagged.
Qed.

Lemma compress_decompress_roundtrip_witness :
  let x := JObj [("query", JStr "what is a cache"); ("response", JStr "a store of answers");
                 ("meta", JObj [("ts", JNum 1700000000000); ("key", JStr "k1")])] in
  let cfg := Compression.mkConfig true 40 in
  exists y,
    Compression.compress Compression.stored_zlib cfg x = Ok y /\
    Compression.decompress Compression.stored_zlib y = Ok x /\
    get_prop y "compressed" = Ok (JBool true).
Proof.
  intros x cfg.
  destruct (compress_decompress_roundtrip Compression.stored_zlib cfg x
              Compression.stored_zlib_laws)
    as (text & y & Hstr & Hc & Hd & Hy).
  - simpl. repeat split; try reflexivity; lia.
  - eexists. split; reflexivity.
  - exists y. split; [exact Hc|]. split; [exact Hd|].
    injection Hstr as <-. subst y. reflexivity.
Defined.

(** C2 as stated fails on a small payload that has a [compressed] property
    of its own: [compress] hands it back unchanged and [decompress] takes
    it for a wrapper and raises a TypeError on its missing [data]. *)
Lemma roundtrip_fails_on_payload_with_compressed_field :
  let x := JObj [("compressed", JBool true)] in
  json_value x /\
  Compression.compress Compression.stored_zlib Compression.default_config x = Ok x /\
  Compression.decompress Compression.stored_zlib x = Throw TypeError.
Proof.
  simpl. repeat split.
Qed.

(* ================================================================== *)
(** * Properties of the facade *)
(* ================================================================== *)

Section FacadeFacts.
Variable sv : Cache.Services.

Lemma store_get_run (k : string) (w : Cache.World) :
  Cache.store_get k w
  = (Ok match fst (Store.get (Cache.clock w (Cache.tick w)) k (Cache.store w)) with
        | Some e => Store.entry_object e
        | None => JNull
        end,
     Cache.mkWorld (Cache.clock w) (S (Cache.tick w))
       (snd (Store.get (Cache.clock w (Cache.tick w)) k (Cache.store w)))
       (Cache.memo w) (Cache.stats w)).
Proof.
  unfold Cache.store_get, Cache.bind, Cache.dateNow, Cache.on_store, Cache.ret.
  simpl. destruct (Store.get _ k (Cache.store w)); reflexivity.
Qed.

(** What [_getByKey] makes of a live entry: the entry object has neither a
    [compressed] nor a [response] property, whatever payload it wraps. *)
Lemma getByKey_live (k : string) (e : Store.Entry) (w : Cache.World) :
  JSMap.get k (Cache.store w) = Some e ->
  Cache.clock w (Cache.tick w) <= Store.expiresAt e ->
  fst (Cache._getByKey sv k w) = Ok JUndefined.
Proof.
  intros Hget Hlive. unfold Cache._getByKey, Cache.bind.
  rewrite store_get_run. unfold Store.get. rewrite Hget.
  apply Z.ltb_ge in Hlive. rewrite Hlive. reflexivity.
Qed.

Lemma getByKey_expired (k : string) (e : Store.Entry) (w : Cache.World) :
  JSMap.get k (Cache.store w) = Some e ->
  Store.expiresAt e < Cache.clock w (Cache.tick w) ->
  fst (Cache._getByKey sv k w) = Ok JNull.
Proof.
  intros Hget Hdead. unfold Cache._getByKey, Cache.bind.
  rewrite store_get_run. unfold Store.get. rewrite Hget.
  apply Z.ltb_lt in Hdead. rewrite Hdead. reflexivity.
Qed.

(** The pool loop of [_findSimilar] over the keys of the entries [rest],
    the store being [done ++ rest]: it reads one clock value per key and
    stops with a TypeError at the first entry found expired. *)
Lemma build_pool_expired (rest : list (string * Store.Entry)) :
  forall (done : list (string * Store.Entry)) (queries : list (string * JValue))
         (w : Cache.World) (i : nat) (k : string) (e : Store.Entry),
  Cache.store w = done ++ rest ->
  JSMap.wf (Cache.store w) ->
  nth_error rest i = Some (k, e) ->
  Store.expiresAt e < Cache.clock w (Cache.tick w + i) ->
  fst (Cache.build_pool sv (JSMap.keys rest) queries w) = Throw TypeError.
Proof.
  induction rest as [|[k0 e0] rest IH];
    intros done queries w i k e Hstore Hwf Hnth Hdead.
  - destruct i; discriminate.
  - simpl. unfold Cache.bind at 1. rewrite store_get_run. unfold Store.get.
    assert (Hget : JSMap.get k0 (Cache.store w) = Some e0).
    { apply JSMap.in_get; [assumption|]. rewrite Hstore.
      apply in_or_app. right. now left. }
    rewrite Hget.
    destruct (Store.expiresAt e0 <? Cache.clock w (Cache.tick w)) eqn:Hexp.
    + reflexivity.
    + simpl. destruct i as [|i].
      * simpl in Hnth. injection Hnth as -> ->.
        rewrite Nat.add_0_r in Hdead. apply Z.ltb_ge in Hexp. lia.
      * simpl in Hnth.
        apply (IH (done ++ [(k0, e0)]) _ _ i k e); simpl.
        -- rewrite <- app_assoc. exact Hstore.
        -- exact Hwf.
        -- exact Hnth.
        -- now rewrite <- Nat.add_succ_comm in Hdead.
Qed.

End FacadeFacts.

(** C10: when the facade is enabled with similarity on and [get] is called
    without [options.key], and the entry of some key that
    [store.getKeys()] returns has its [expiresAt] already behind the clock
    at the moment the pool loop fetches it (the i-th key is fetched with
    the i-th clock reading after the call), then [get] raises a TypeError:
    [store.get] answers [null] and the loop reads [item.compressed]. *)
Theorem get_throws_on_expired_pool_entry
  (sv : Cache.Services) (q : JValue) (options : Cache.Options)
  (w : Cache.World) (i : nat) (k : string) (e : Store.Entry) :
  Cache.enabled (Cache.config sv) = true ->
  Cache.similarity_enabled (Cache.config sv) = true ->
  (Cache.opt_key options = None \/ Cache.opt_key options = Some EmptyString) ->
  JSMap.wf (Cache.store w) ->
  nth_error (Cache.store w) i = Some (k, e) ->
  Store.expiresAt e < Cache.clock w (Cache.tick w + i) ->
  fst (Cache.get sv q options w) = Throw TypeError.
Proof.
  intros Hen Hsim Hkey Hwf Hnth Hdead.
  unfold Cache.get. rewrite Hen, Hsim. simpl.
  assert (Hnokey : match Cache.opt_key options with
                   | Some k0 => if Similarity.is_empty k0 then None else Some k0
                   | None => None
                   end = None).
  { destruct Hkey as [-> | ->]; reflexivity. }
  rewrite Hnokey.
  unfold Cache.bind at 1. unfold Cache._findSimilar.
  unfold Cache.bind at 1. unfold Cache.on_store at 1. simpl.
  unfold Cache.bind at 1.
  pose proof (build_pool_expired sv (Cache.store w) [] []
                (Cache.mkWorld (Cache.clock w) (Cache.tick w) (Cache.store w)
                   (Cache.memo w) (Cache.stats w))
                i k e eq_refl Hwf Hnth Hdead) as Hpool.
  unfold Store.getKeys.
  destruct (Cache.build_pool sv (JSMap.keys (Cache.store w)) [] _) as [r w'].
  simpl in Hpool. subst r. reflexivity.
Qed.

Lemma get_throws_on_expired_pool_entry_witness :
  let sv := Cache.default_services Compression.stored_zlib in
  let w := Cache.mkWorld (fun n => 100 + Z.of_nat n) 0
             [("k1", Store.mkEntry (JStr "p1") 0 500);
              ("k2", Store.mkEntry (JStr "p2") 0 100)]
             [] Stats.initial in
  fst (Cache.get sv (JStr "hello") Cache.no_options w) = Throw TypeError.
Proof.
  intros sv w.
  apply (get_throws_on_expired_pool_entry sv (JStr "hello") Cache.no_options w
           1 "k2" (Store.mkEntry (JStr "p2") 0 100)).
  - reflexivity.
  - reflexivity.
  - left. reflexivity.
  - unfold JSMap.wf. simpl. repeat constructor; simpl; intuition discriminate.
  - reflexivity.
  - simpl. lia.
Defined.

Section FacadeSet.
Variable sv : Cache.Services.

Lemma stringify_object_defined (fs : list (string * JValue)) :
  exists text, JSON.stringify (JObj fs) = Some text.
Proof. simpl. eexists. reflexivity. Qed.

(** [set] with an explicit key: the entry written, the clock readings
    taken (one for [meta.ts], one inside [store.set]). *)
Lemma set_with_key_run (q response : JValue) (options : Cache.Options)
  (k : string) (w : Cache.World) :
  Cache.enabled (Cache.config sv) = true ->
  Cache.opt_key options = Some k ->
  k <> EmptyString ->
  exists payload,
    Cache.set sv q response options w
    = (Ok true,
       Cache.mkWorld (Cache.clock w) (S (S (Cache.tick w)))
         (JSMap.set k
            (Store.mkEntry payload (Cache.clock w (S (Cache.tick w)))
               (Cache.clock w (S (Cache.tick w)) + Cache.ttl (Cache.config sv)))
            (Cache.store w))
         (Cache.memo w) (Stats.recordSet (Cache.stats w))).
Proof.
  intros Hen Hkey Hk. unfold Cache.set, Cache.resolve_key.
  rewrite Hen, Hkey. cbn [negb].
  assert (Similarity.is_empty k = false) as ->.
  { unfold Similarity.is_empty. now apply String.eqb_neq. }
  unfold Cache.bind at 1. unfold Cache.lift at 1.
  unfold Cache.bind at 1. unfold Cache.dateNow at 1.
  set (payload := JObj [("query", q); ("response", response);
                        ("meta", JObj [("ts", JNum (Cache.clock w (Cache.tick w)));
                                       ("key", JStr k)])]).
  destruct (stringify_object_defined
              [("query", q); ("response", response);
               ("meta", JObj [("ts", JNum (Cache.clock w (Cache.tick w)));
                              ("key", JStr k)])]) as [text Htext].
  fold payload in Htext. rewrite Htext.
  assert (Hc : exists p, Compression.compress (Cache.zlib sv) (Cache.compression sv) payload = Ok p).
  { unfold Compression.compress. rewrite Htext.
    destruct (negb _); [eauto|]. destruct (_ <? _); eauto. }
  destruct Hc as [p Hp].
  destruct (Cache.compression_enabled (Cache.config sv)
            && (Cache.compression_minLength (Cache.config sv)
                <? Z.of_nat (String.length text))).
  - exists p. unfold Cache.bind at 1. unfold Cache.lift. rewrite Hp. reflexivity.
  - exists payload. reflexivity.
Qed.

(** [get] with that key, right after: [undefined] while the entry is not
    expired, [null] afterwards. *)
Lemma get_with_key_after_set (q response : JValue) (k : string) (w : Cache.World) :
  Cache.enabled (Cache.config sv) = true ->
  k <> EmptyString ->
  let options := Cache.mkOptions (Some k) None None in
  let w1 := snd (Cache.set sv q response options w) in
  let t0 := Cache.clock w (S (Cache.tick w)) in
  let now := Cache.clock w (S (S (Cache.tick w))) in
  (now <= t0 + Cache.ttl (Cache.config sv) ->
     fst (Cache.get sv q options w1) = Ok JUndefined) /\
  (t0 + Cache.ttl (Cache.config sv) < now ->
     fst (Cache.get sv q options w1) = Ok JNull).
Proof.
  intros Hen Hk options w1 t0 now.
  destruct (set_with_key_run q response options k w Hen eq_refl Hk)
    as [payload Hset].
  unfold w1. rewrite Hset. simpl.
  assert (Hkey : Similarity.is_empty k = false).
  { unfold Similarity.is_empty. now apply String.eqb_neq. }
  unfold Cache.get. rewrite Hen. simpl. rewrite Hkey.
  split; intros Ht.
  - unfold Cache.bind at 1.
    match goal with |- context [Cache._getByKey sv k ?w'] =>
      pose proof (getByKey_live sv k _ w' (JSMap.get_set_same k _ _) Ht) as Hg;
      destruct (Cache._getByKey sv k w') as [r w2]
    end.
    simpl in Hg. subst r. reflexivity.
  - unfold Cache.bind at 1.
    match goal with |- context [Cache._getByKey sv k ?w'] =>
      pose proof (getByKey_expired sv k _ w' (JSMap.get_set_same k _ _) Ht) as Hg;
      destruct (Cache._getByKey sv k w') as [r w2]
    end.
    simpl in Hg. subst r. reflexivity.
Qed.

(** [set] without a key on a query that is not a string: [_generateKey]
    calls [query.toLowerCase()]. *)
Lemma set_without_key_needs_a_string (q response : JValue) (w : Cache.World) :
  Cache.enabled (Cache.config sv) = true ->
  (forall text, q <> JStr text) ->
  Cache.set sv q response Cache.no_options w = (Throw TypeError, w).
Proof.
  intros Hen Hq. unfold Cache.set. rewrite Hen. simpl.
  destruct q; try reflexivity. now destruct (Hq s).
Qed.

End FacadeSet.

(** C1 at a failing input: with the default configuration, the response
    "r" is stored under the key "k" at time 1 with the 30-day time to
    live; a [get] with that key at time 2 returns [undefined], not "r". *)
Lemma facade_get_by_key_loses_the_response :
  let sv := Cache.default_services Compression.stored_zlib in
  let options := Cache.mkOptions (Some "k") None None in
  let w0 := Cache.initial_world (fun n => Z.of_nat n) in
  let w1 := snd (Cache.set sv (JStr "q") (JStr "r") options w0) in
  fst (Cache.set sv (JStr "q") (JStr "r") options w0) = Ok true /\
  option_map Store.expiresAt (JSMap.get "k" (Cache.store w1)) = Some 2592000001 /\
  fst (Cache.get sv (JStr "q") options w1) = Ok JUndefined.
Proof. vm_compute. repeat split. Qed.

(** C4 at failing inputs: with the default configuration and no
    [options.key], [set] on a null query raises a TypeError, and [set] on
    the empty query stores an entry and returns [true]. *)
Lemma facade_set_on_null_and_empty_query :
  let sv := Cache.default_services Compression.stored_zlib in
  let w0 := Cache.initial_world (fun n => Z.of_nat n) in
  fst (Cache.set sv JNull (JStr "r") Cache.no_options w0) = Throw TypeError /\
  fst (Cache.set sv (JStr EmptyString) (JStr "r") Cache.no_options w0) = Ok true /\
  Store.getKeys (Cache.store (snd (Cache.set sv (JStr EmptyString) (JStr "r") Cache.no_options w0)))
  = ["cache:7d010443693eec253a121e2aa2ba177c"].
Proof. vm_compute. repeat split. Qed.

(* ================================================================== *)
(** * Properties of the key derivation *)
(* ================================================================== *)

Fixpoint pipe_free (s : string) : bool :=
  match s with
  | EmptyString => true
  | String c r => negb (Ascii.eqb c "|") && pipe_free r
  end.

Lemma split_at_first_pipe (a1 : string) :
  forall a2 r1 r2 : string,
  pipe_free a1 = true -> pipe_free a2 = true ->
  (a1 ++ "|" ++ r1 = a2 ++ "|" ++ r2)%string ->
  a1 = a2 /\ r1 = r2.
Proof.
  induction a1 as [|c a1 IH]; intros [|d a2] r1 r2 H1 H2 Heq; simpl in *.
  - injection Heq as ->. auto.
  - injection Heq as <- _. simpl in H2. discriminate.
  - injection Heq as -> _. simpl in H1. discriminate.
  - injection Heq as -> Heq.
    apply andb_true_iff in H1 as [_ H1]. apply andb_true_iff in H2 as [_ H2].
    destruct (IH a2 r1 r2 H1 H2 Heq) as [-> ->]. auto.
Qed.

Lemma hex_length (bytes : list Z) :
  String.length (MD5.hex bytes) = (2 * List.length bytes)%nat.
Proof.
  induction bytes as [|x r IH]; simpl; [reflexivity|]. rewrite IH. lia.
Qed.

Lemma digest_length (msg : list Z) : List.length (MD5.digest msg) = 16%nat.
Proof.
  unfold MD5.digest.
  destruct (fold_left MD5.compress_block _ MD5.initial) as [[[a b] c] d].
  reflexivity.
Qed.

Lemma md5_hex_length (text : string) : String.length (MD5.md5_hex text) = 32%nat.
Proof. unfold MD5.md5_hex. now rewrite hex_length, digest_length. Qed.

(** C5, as the code has it.  The key of a string query is ["cache:"]
    followed by the MD5 digest, 32 hexadecimal digits (128 bits), of
    [normalized|userId|model], where [normalized] is the lower-cased and
    trimmed query.  Hence the same normalized query with the same [userId]
    and [model] always gives the same key.  When the normalized queries
    and the user ids contain no ["|"], inputs that differ in normalized
    query, [userId] or [model] are hashed from different strings, so that
    they share a key only if MD5 collides.  For "What time is it?" with
    model m1, user u1 and user u2 get different keys. *)
Theorem generateKey_deterministic_md5
  (q1 q2 : string) (o1 o2 : Cache.Options) :
  let n1 := JSString.trim (JSString.toLowerCase q1) in
  let n2 := JSString.trim (JSString.toLowerCase q2) in
  let u1 := Cache.or_empty (Cache.userId o1) in
  let u2 := Cache.or_empty (Cache.userId o2) in
  let m1 := Cache.or_empty (Cache.model o1) in
  let m2 := Cache.or_empty (Cache.model o2) in
  (exists digest,
     Cache._generateKey (JStr q1) o1 = Ok ("cache:" ++ digest)%string /\
     digest = MD5.md5_hex (n1 ++ "|" ++ u1 ++ "|" ++ m1)%string /\
     String.length digest = 32%nat) /\
  (n1 = n2 -> u1 = u2 -> m1 = m2 ->
     Cache._generateKey (JStr q1) o1 = Cache._generateKey (JStr q2) o2) /\
  (pipe_free n1 = true -> pipe_free u1 = true ->
   pipe_free n2 = true -> pipe_free u2 = true ->
   Cache.key_base q1 o1 = Cache.key_base q2 o2 ->
   n1 = n2 /\ u1 = u2 /\ m1 = m2) /\
  Cache._generateKey (JStr "What time is it?")
    (Cache.mkOptions None (Some "u1") (Some "m1"))
  <> Cache._generateKey (JStr "What time is it?")
       (Cache.mkOptions None (Some "u2") (Some "m1")).
Proof.
  intros n1 n2 u1 u2 m1 m2. split; [|split; [|split]].
  - eexists. split; [reflexivity|]. split; [reflexivity|]. apply md5_hex_length.
  - intros Hn Hu Hm. unfold Cache._generateKey, Cache.key_base.
    fold n1 n2 u1 u2 m1 m2. now rewrite Hn, Hu, Hm.
  - intros Hn1 Hu1 Hn2 Hu2 Hbase. unfold Cache.key_base in Hbase.
    fold n1 n2 u1 u2 m1 m2 in Hbase.
    destruct (split_at_first_pipe n1 n2 _ _ Hn1 Hn2 Hbase) as [Hn Hrest].
    destruct (split_at_first_pipe u1 u2 _ _ Hu1 Hu2 Hrest) as [Hu Hm].
    auto.
  - vm_compute. discriminate.
Qed.

(** C5 as stated fails: two inputs that differ in normalized query, in
    [userId] and in [model] are joined into the same string ["a|b||c"] and
    get the same key. *)
Lemma generateKey_collision_on_separator :
  let o1 := Cache.mkOptions None None (Some "c") in
  let o2 := Cache.mkOptions None (Some "b") (Some "|c") in
  JSString.trim (JSString.toLowerCase "a|b") <> JSString.trim (JSString.toLowerCase "a") /\
  Cache.or_empty (Cache.userId o1) <> Cache.or_empty (Cache.userId o2) /\
  Cache.or_empty (Cache.model o1) <> Cache.or_empty (Cache.model o2) /\
  Cache._generateKey (JStr "a|b") o1 = Cache._generateKey (JStr "a") o2.
Proof.
  simpl. repeat split; try discriminate.
Qed.

(* ================================================================== *)
(** * The Levenshtein distance *)
(* ================================================================== *)

Definition subst_cost (x y : ascii) : nat := if Ascii.eqb x y then 0%nat else 1%nat.

(** The distance by its defining recurrence. *)
Fixpoint levenshtein (a b : list ascii) : nat :=
  match a with
  | [] => List.length b
  | x :: a' =>
      (fix against (b : list ascii) : nat :=
         match b with
         | [] => List.length a
         | y :: b' =>
             Nat.min (S (levenshtein a' b))
               (Nat.min (S (against b')) (levenshtein a' b' + subst_cost x y))
         end) b
  end.

(** Edit scripts: [edit a b n] when [a] becomes [b] by [n] insertions,
    deletions and substitutions of single characters. *)
Inductive edit : list ascii -> list ascii -> nat -> Prop :=
| edit_done : edit [] [] 0
| edit_keep x a b n : edit a b n -> edit (x :: a) (x :: b) n
| edit_substitute x y a b n : edit a b n -> edit (x :: a) (y :: b) (S n)
| edit_insert y a b n : edit a b n -> edit a (y :: b) (S n)
| edit_delete x a b n : edit a b n -> edit (x :: a) b (S n).

Lemma levenshtein_nil_r (a : list ascii) : levenshtein a [] = List.length a.
Proof. destruct a; reflexivity. Qed.

Lemma levenshtein_cons (x y : ascii) (a b : list ascii) :
  levenshtein (x :: a) (y :: b)
  = Nat.min (S (levenshtein a (y :: b)))
      (Nat.min (S (levenshtein (x :: a) b)) (levenshtein a b + subst_cost x y)).
Proof. reflexivity. Qed.

Lemma edit_insert_all (b : list ascii) : edit [] b (List.length b).
Proof. induction b; simpl; constructor; assumption. Qed.

Lemma edit_delete_all (a : list ascii) : edit a [] (List.length a).
Proof. induction a; simpl; constructor; assumption. Qed.

Lemma levenshtein_script (a : list ascii) :
  forall b, edit a b (levenshtein a b).
Proof.
  induction a as [|x a IHa]; intros b.
  - apply edit_insert_all.
  - induction b as [|y b IHb].
    + rewrite levenshtein_nil_r. apply edit_delete_all.
    + rewrite levenshtein_cons.
      destruct (Nat.min_spec (S (levenshtein a (y :: b)))
                  (Nat.min (S (levenshtein (x :: a) b))
                     (levenshtein a b + subst_cost x y))) as [[_ ->]|[_ ->]].
      * apply edit_delete. apply IHa.
      * destruct (Nat.min_spec (S (levenshtein (x :: a) b))
                    (levenshtein a b + subst_cost x y)) as [[_ ->]|[_ ->]].
        -- apply edit_insert. exact IHb.
        -- unfold subst_cost. destruct (Ascii.eqb_spec x y) as [->|_].
           ++ rewrite Nat.add_0_r. apply edit_keep. apply IHa.
           ++ rewrite Nat.add_1_r. apply edit_substitute. apply IHa.
Qed.

Lemma levenshtein_insert_le (y : ascii) (a b : list ascii) :
  (levenshtein a (y :: b) <= S (levenshtein a b))%nat.
Proof.
  destruct a as [|x a]; [simpl; lia|]. rewrite levenshtein_cons. lia.
Qed.

Lemma levenshtein_delete_le (x : ascii) (a b : list ascii) :
  (levenshtein (x :: a) b <= S (levenshtein a b))%nat.
Proof.
  destruct b as [|y b].
  - rewrite !levenshtein_nil_r. simpl. lia.
  - rewrite levenshtein_cons. lia.
Qed.

Lemma levenshtein_least (a b : list ascii) (n : nat) :
  edit a b n -> (levenshtein a b <= n)%nat.
Proof.
  induction 1 as [|x a b n _ IH|x y a b n _ IH|y a b n _ IH|x a b n _ IH].
  - simpl. lia.
  - rewrite levenshtein_cons. unfold subst_cost. rewrite Ascii.eqb_refl. lia.
  - rewrite levenshtein_cons. unfold subst_cost. destruct (Ascii.eqb x y); lia.
  - pose proof (levenshtein_insert_le y a b). lia.
  - pose proof (levenshtein_delete_le x a b). lia.
Qed.

Lemma edit_app (a b : list ascii) (n : nat) :
  edit a b n -> forall c d m, edit c d m -> edit (a ++ c) (b ++ d) (n + m).
Proof.
  induction 1; intros c d m Hcd; simpl; try (constructor; auto); auto.
Qed.

Lemma edit_rev (a b : list ascii) (n : nat) :
  edit a b n -> edit (rev a) (rev b) n.
Proof.
  induction 1 as [|x a b n _ IH|x y a b n _ IH|y a b n _ IH|x a b n _ IH]; simpl.
  - constructor.
  - rewrite <- (Nat.add_0_r n). apply edit_app; [exact IH|]. repeat constructor.
  - rewrite <- Nat.add_1_r. apply edit_app; [exact IH|]. repeat constructor.
  - rewrite <- Nat.add_1_r. rewrite <- (app_nil_r (rev a)).
    apply edit_app; [exact IH|]. repeat constructor.
  - rewrite <- Nat.add_1_r. rewrite <- (app_nil_r (rev b)).
    apply edit_app; [exact IH|]. repeat constructor.
Qed.

Lemma edit_sym (a b : list ascii) (n : nat) : edit a b n -> edit b a n.
Proof. induction 1; constructor; assumption. Qed.

Lemma levenshtein_rev (a b : list ascii) :
  levenshtein (rev a) (rev b) = levenshtein a b.
Proof.
  apply Nat.le_antisymm.
  - apply levenshtein_least, edit_rev, levenshtein_script.
  - apply levenshtein_least.
    rewrite <- (rev_involutive a), <- (rev_involutive b) at 1.
    apply edit_rev, levenshtein_script.
Qed.

Lemma levenshtein_sym (a b : list ascii) : levenshtein a b = levenshtein b a.
Proof.
  apply Nat.le_antisymm; apply levenshtein_least, edit_sym, levenshtein_script.
Qed.

Lemma levenshtein_le_max (a : list ascii) :
  forall b, (levenshtein a b <= Nat.max (List.length a) (List.length b))%nat.
Proof.
  induction a as [|x a IH]; intros b; [simpl; lia|].
  destruct b as [|y b]; [simpl; lia|].
  rewrite levenshtein_cons. specialize (IH b). unfold subst_cost.
  destruct (Ascii.eqb x y); simpl List.length; lia.
Qed.

Lemma levenshtein_same (a : list ascii) : levenshtein a a = 0%nat.
Proof.
  induction a as [|x a IH]; [reflexivity|].
  rewrite levenshtein_cons. unfold subst_cost. rewrite Ascii.eqb_refl. lia.
Qed.

(* ================================================================== *)
(** * [_levenshteinSim] computes the Levenshtein distance *)
(* ================================================================== *)

Lemma fold_seq_invariant {X : Type} (f : X -> nat -> X) (P : nat -> X)
  (s n : nat) (x0 : X) :
  P 0%nat = x0 ->
  (forall k, (k < n)%nat -> f (P k) (s + k)%nat = P (S k)) ->
  fold_left f (seq s n) x0 = P n.
Proof.
  intros H0 Hstep. induction n as [|n IH]; [now simpl|].
  rewrite seq_S, fold_left_app. simpl.
  rewrite IH by (intros k Hk; apply Hstep; lia).
  apply Hstep. lia.
Qed.

Lemma row_set_end (v : Similarity.cell) (r : Similarity.row) :
  Similarity.row_set (List.length r) v r = r ++ [v].
Proof. induction r as [|x r IH]; simpl; [reflexivity|]. now rewrite IH. Qed.

Lemma mat_set_at (pre : Similarity.matrix) (r : Similarity.row)
  (post : Similarity.matrix) (j : nat) (v : Similarity.cell) :
  Similarity.mat_set (List.length pre) j v (pre ++ r :: post)
  = pre ++ Similarity.row_set j v r :: post.
Proof. induction pre as [|p pre IH]; simpl; [reflexivity|]. now rewrite IH. Qed.

Lemma nth_map_seq {X : Type} (g : nat -> X) (n i : nat) (rest : list X) (d : X) :
  (i < n)%nat -> nth i (map g (seq 0 n) ++ rest) d = g i.
Proof.
  intros Hi. rewrite app_nth1 by (rewrite length_map, length_seq; exact Hi).
  rewrite (nth_indep _ d (g 0%nat)) by (rewrite length_map, length_seq; exact Hi).
  rewrite map_nth, seq_nth by exact Hi. reflexivity.
Qed.

Lemma row_get_map_seq (g : nat -> Similarity.cell) (n j : nat) :
  (j < n)%nat -> Similarity.row_get j (map g (seq 0 n)) = g j.
Proof.
  intros Hj. unfold Similarity.row_get.
  rewrite <- (app_nil_r (map g (seq 0 n))). now apply nth_map_seq.
Qed.

Lemma string_get_nth_error (s : string) :
  forall i, String.get i s = nth_error (list_ascii_of_string s) i.
Proof.
  induction s as [|c s IH]; intros [|i]; simpl; auto.
Qed.

Lemma string_length_list (s : string) :
  List.length (list_ascii_of_string s) = String.length s.
Proof. induction s; simpl; auto. Qed.

Lemma firstn_snoc {X : Type} (l : list X) :
  forall i x, nth_error l i = Some x -> firstn (S i) l = firstn i l ++ [x].
Proof.
  induction l as [|y l IH]; intros [|i] x H; simpl in *; try discriminate.
  - now injection H as ->.
  - f_equal. now apply IH.
Qed.

Section MatrixInvariant.
Variables a b : string.

Let A := list_ascii_of_string a.
Let B := list_ascii_of_string b.
Let la := String.length a.
Let lb := String.length b.

(** The distance between the prefixes of length [i] and [j]. *)
Definition prefix_distance (i j : nat) : nat :=
  levenshtein (rev (firstn i A)) (rev (firstn j B)).

Definition full_row (i : nat) : Similarity.row :=
  map (fun j => Some (prefix_distance i j)) (seq 0 (lb + 1)).

Definition part_row (i j : nat) : Similarity.row :=
  map (fun j' => Some (prefix_distance i j')) (seq 0 (j + 1)).

Definition stub_row (i : nat) : Similarity.row := [Some i].

(** The matrix once the rows up to [i] are filled. *)
Definition rows_done (i : nat) : Similarity.matrix :=
  map full_row (seq 0 (i + 1)) ++ map stub_row (seq (i + 1) (la - i)).

(** The matrix while row [i + 1] is filled up to column [j]. *)
Definition row_in_progress (i j : nat) : Similarity.matrix :=
  map full_row (seq 0 (i + 1))
  ++ part_row (i + 1) j :: map stub_row (seq (i + 2) (la - i - 1)).

Lemma prefix_distance_col0 (i : nat) :
  (i <= la)%nat -> prefix_distance i 0 = i.
Proof.
  intros Hi. unfold prefix_distance. simpl. rewrite levenshtein_nil_r.
  rewrite length_rev, length_firstn. unfold A. rewrite string_length_list.
  fold la. lia.
Qed.

Lemma prefix_distance_row0 (j : nat) :
  (j <= lb)%nat -> prefix_distance 0 j = j.
Proof.
  intros Hj. unfold prefix_distance. simpl.
  rewrite length_rev, length_firstn. unfold B. rewrite string_length_list.
  fold lb. lia.
Qed.

Lemma prefix_distance_step (i j : nat) :
  (i < la)%nat -> (j < lb)%nat ->
  prefix_distance (S i) (S j)
  = Nat.min (prefix_distance i (S j) + 1)
      (Nat.min (prefix_distance (S i) j + 1)
         (prefix_distance i j
          + if Similarity.same_unit (String.get i a) (String.get j b)
            then 0 else 1))%nat.
Proof.
  intros Hi Hj. unfold prefix_distance.
  destruct (nth_error A i) as [x|] eqn:Hx.
  2:{ apply nth_error_None in Hx. unfold A in Hx.
      rewrite string_length_list in Hx. fold la in Hx. lia. }
  destruct (nth_error B j) as [y|] eqn:Hy.
  2:{ apply nth_error_None in Hy. unfold B in Hy.
      rewrite string_length_list in Hy. fold lb in Hy. lia. }
  rewrite (firstn_snoc A i x Hx), (firstn_snoc B j y Hy).
  rewrite !rev_unit, levenshtein_cons.
  rewrite !string_get_nth_error. fold A B. rewrite Hx, Hy. simpl.
  unfold subst_cost. rewrite !Nat.add_1_r. reflexivity.
Qed.

Lemma init_columns :
  fold_left (fun m i => Similarity.mat_set i 0 (Some i) m) (seq 0 (la + 1))
    (repeat ([] : Similarity.row) (la + 1))
  = map stub_row (seq 0 (la + 1)).
Proof.
  rewrite (fold_seq_invariant _
             (fun k => map stub_row (seq 0 k)
                       ++ repeat ([] : Similarity.row) (la + 1 - k)) 0 (la + 1)).
  - rewrite Nat.sub_diag. simpl. now rewrite app_nil_r.
  - simpl. now rewrite Nat.sub_0_r.
  - intros k Hk. cbn [Nat.add].
    replace (la + 1 - k)%nat with (S (la + 1 - S k)) by lia. cbn [repeat].
    pose proof (mat_set_at (map stub_row (seq 0 k)) []
                  (repeat [] (la + 1 - S k)) 0 (Some k)) as H.
    rewrite length_map, length_seq in H. rewrite H.
    rewrite seq_S, map_app, <- app_assoc. reflexivity.
Qed.

Lemma init_rows :
  fold_left (fun m j => Similarity.mat_set 0 j (Some j) m) (seq 0 (lb + 1))
    (map stub_row (seq 0 (la + 1)))
  = rows_done 0.
Proof.
  rewrite (fold_seq_invariant _
             (fun k => map Some (seq 0 (Nat.max k 1))
                       :: map stub_row (seq 1 la)) 0 (lb + 1)).
  - unfold rows_done, full_row. simpl. rewrite Nat.sub_0_r.
    replace (Nat.max (lb + 1) 1) with (lb + 1)%nat by lia.
    f_equal. apply map_ext_in. intros j Hj. apply in_seq in Hj.
    rewrite prefix_distance_row0 by lia. reflexivity.
  - rewrite Nat.add_1_r. reflexivity.
  - intros k Hk. simpl Nat.add. destruct k as [|k]; [reflexivity|].
    replace (Nat.max (S k) 1) with (S k) by lia.
    replace (Nat.max (S (S k)) 1) with (S (S k)) by lia.
    cbn [Similarity.mat_set]. f_equal.
    pose proof (row_set_end (Some (S k)) (map Some (seq 0 (S k)))) as H.
    rewrite length_map, length_seq in H. rewrite H.
    rewrite (seq_S (S k) 0), map_app. reflexivity.
Qed.

Lemma fill_cell_step (i j : nat) :
  (i < la)%nat -> (j < lb)%nat ->
  Similarity.fill_cell a b (S i) (S j) (row_in_progress i j)
  = row_in_progress i (S j).
Proof.
  intros Hi Hj. unfold Similarity.fill_cell, Similarity.mat_get.
  simpl Nat.sub. rewrite !Nat.sub_0_r.
  unfold row_in_progress at 1 2 3.
  rewrite !(nth_map_seq full_row (i + 1) i) by lia.
  assert (Hcur : forall d,
            nth (S i) (map full_row (seq 0 (i + 1))
                       ++ part_row (i + 1) j
                          :: map stub_row (seq (i + 2) (la - i - 1))) d
            = part_row (i + 1) j).
  { intros d. rewrite app_nth2; rewrite length_map, length_seq; [|lia].
    replace (S i - (i + 1))%nat with 0%nat by lia. reflexivity. }
  rewrite Hcur.
  unfold full_row, part_row. rewrite !row_get_map_seq by lia.
  simpl Similarity.plus_cell. simpl Similarity.min3.
  replace (i + 1)%nat with (S i) by lia.
  rewrite <- (prefix_distance_step i j Hi Hj).
  unfold row_in_progress.
  pose proof (mat_set_at (map full_row (seq 0 (i + 1)))
                (part_row (i + 1) j)
                (map stub_row (seq (i + 2) (la - i - 1)))
                (S j) (Some (prefix_distance (S i) (S j)))) as H.
  rewrite length_map, length_seq in H.
  replace (i + 1)%nat with (S i) in H by lia.
  replace (i + 1)%nat with (S i) by lia.
  rewrite H. f_equal. f_equal.
  pose proof (row_set_end (Some (prefix_distance (S i) (S j)))
                (part_row (S i) j)) as H'.
  unfold part_row in H' at 1. rewrite length_map, length_seq in H'.
  replace (j + 1)%nat with (S j) in H' by lia. rewrite H'.
  unfold part_row. replace (S j + 1)%nat with (S (j + 1)) by lia.
  rewrite (seq_S (j + 1) 0), map_app. simpl.
  replace (j + 1)%nat with (S j) by lia. reflexivity.
Qed.

Lemma fill_row_step (i : nat) :
  (i < la)%nat ->
  Similarity.fill_row a b (S i) (rows_done i) = rows_done (S i).
Proof.
  intros Hi. unfold Similarity.fill_row. fold lb.
  rewrite (fold_seq_invariant _ (fun j => row_in_progress i j) 1 lb).
  - unfold row_in_progress, rows_done, part_row, full_row.
    replace (S i + 1)%nat with (S (i + 1)) by lia.
    rewrite (seq_S (i + 1) 0), map_app, <- app_assoc.
    replace (la - i - 1)%nat with (la - S i)%nat by lia.
    replace (i + 2)%nat with (S (i + 1)) by lia.
    reflexivity.
  - unfold row_in_progress, rows_done, part_row.
    remember (la - i - 1)%nat as n eqn:Hn.
    replace (la - i)%nat with (S n) by lia.
    replace (i + 2)%nat with (S (i + 1)) by lia.
    cbn [seq map Nat.add]. rewrite prefix_distance_col0 by lia.
    reflexivity.
  - intros j Hj. simpl. now apply fill_cell_step.
Qed.

Lemma levenshtein_matrix_filled :
  Similarity.levenshtein_matrix a b = rows_done la.
Proof.
  unfold Similarity.levenshtein_matrix. fold la lb.
  rewrite init_columns, init_rows.
  apply (fold_seq_invariant _ rows_done 1 la); [reflexivity|].
  intros i Hi. simpl. now apply fill_row_step.
Qed.

(** The matrix has no hole where the distance is read, and the number
    read is the Levenshtein distance of the two strings. *)
Lemma distance_defined :
  Similarity.distance a b = Some (levenshtein A B).
Proof.
  unfold Similarity.distance. rewrite levenshtein_matrix_filled. fold la lb.
  unfold Similarity.mat_get, rows_done.
  rewrite (nth_map_seq full_row (la + 1) la) by lia.
  unfold full_row. rewrite row_get_map_seq by lia.
  unfold prefix_distance.
  rewrite !firstn_all2 by (unfold A, B; rewrite string_length_list; fold la lb; lia).
  now rewrite levenshtein_rev.
Qed.

End MatrixInvariant.

(* ================================================================== *)
(** * Scores *)
(* ================================================================== *)

(** ** Rounding *)

Lemma binade_spec (p q : Z) :
  0 < p -> p <= q ->
  0 <= Double.binade p q /\
  q <= p * 2 ^ Double.binade p q /\
  p * 2 ^ Double.binade p q < 2 * q.
Proof.
  intros Hp Hpq. unfold Double.binade.
  assert (Hq : 0 < q) by lia.
  pose proof (Z.log2_spec p Hp) as [Hp1 Hp2].
  pose proof (Z.log2_spec q Hq) as [Hq1 Hq2].
  pose proof (Z.log2_le_mono p q Hpq) as Hmono.
  pose proof (Z.log2_nonneg p) as Hlp.
  set (lp := Z.log2 p) in *. set (lq := Z.log2 q) in *.
  set (s0 := lq - lp).
  assert (Hs0 : 0 <= s0) by (unfold s0; lia).
  assert (Hlq : 2 ^ lq = 2 ^ lp * 2 ^ s0).
  { unfold s0. rewrite <- Z.pow_add_r by lia. f_equal. lia. }
  assert (Hpos : 0 < 2 ^ s0) by (apply Z.pow_pos_nonneg; lia).
  assert (Hpos' : 0 < 2 ^ lp) by (apply Z.pow_pos_nonneg; lia).
  rewrite Z.pow_succ_r in Hp2, Hq2 by lia.
  destruct (q <=? p * 2 ^ s0) eqn:Hc.
  - apply Z.leb_le in Hc. split; [exact Hs0|]. split; [exact Hc|]. nia.
  - apply Z.leb_gt in Hc. split; [lia|].
    rewrite Z.pow_add_r by lia. change (2 ^ 1) with 2. nia.
Qed.

Lemma nearest_even_near (n rem q : Z) :
  0 <= rem < q ->
  let m := Double.nearest_even n rem q in
  (m = n \/ m = n + 1) /\ (rem = 0 -> m = n) /\
  2 * Z.abs (m * q - (n * q + rem)) <= q.
Proof.
  intros Hrem m. unfold m, Double.nearest_even.
  destruct (2 * rem <? q) eqn:H1; [apply Z.ltb_lt in H1|apply Z.ltb_ge in H1].
  - repeat split; auto; lia.
  - destruct (q <? 2 * rem) eqn:H2; [apply Z.ltb_lt in H2|apply Z.ltb_ge in H2].
    + repeat split; auto; lia.
    + destruct (Z.even n); repeat split; auto; lia.
Qed.

Definition in_unit (x : Q) : Prop := 0 < Qnum x /\ Qnum x <= Zpos (Qden x).

(** The shape of a rounded value: a significand [m] over [2^k], the
    nearest to [x] on that grid. *)
Lemma round_grid (x : Q) :
  in_unit x ->
  let p := Qnum x in
  let q := Zpos (Qden x) in
  let k := 52 + Double.binade p q in
  let num := p * 2 ^ k in
  exists m,
    Double.round x = m # Double.pow2 k /\
    Zpos (Double.pow2 k) = 2 ^ k /\
    52 <= k /\
    (forall j, j * q <= num -> j <= m) /\
    (forall j, num <= j * q -> m <= j) /\
    2 * Z.abs (m * q - num) <= q.
Proof.
  intros [Hp Hpq] p q k num. fold p q in Hp, Hpq.
  destruct (binade_spec p q Hp Hpq) as (Hs & Hlo & Hhi).
  assert (Hk : 52 <= k) by (unfold k; lia).
  assert (Hq : 0 < q) by (unfold q; lia).
  assert (H2k : 0 < 2 ^ k) by (apply Z.pow_pos_nonneg; lia).
  pose proof (Z.div_mod num q ltac:(lia)) as Hdm.
  pose proof (Z.mod_pos_bound num q Hq) as Hrem.
  destruct (nearest_even_near (num / q) (num mod q) q Hrem) as (Hm & Hexact & Herr).
  set (m := Double.nearest_even (num / q) (num mod q) q) in *.
  exists m. split; [|split; [|split; [|split; [|split]]]].
  - unfold Double.round. fold p q.
    assert ((0 <? p) && (p <=? q) = true) as ->.
    { apply andb_true_iff. split; [now apply Z.ltb_lt|now apply Z.leb_le]. }
    reflexivity.
  - unfold Double.pow2. rewrite Z2Pos.id; lia.
  - exact Hk.
  - intros j Hj. assert (j <= num / q) by (apply Z.div_le_lower_bound; lia). lia.
  - intros j Hj.
    assert (Hn : num / q <= j).
    { apply Z.div_le_upper_bound; lia. }
    destruct (Z.eq_dec (num / q) j) as [He|Hne]; [|lia].
    assert (num mod q = 0) by nia. rewrite (Hexact H). lia.
  - replace num with (num / q * q + num mod q) at 1 by lia. exact Herr.
Qed.

Lemma in_unit_lt_binade (x : Q) :
  in_unit x -> Qnum x < Zpos (Qden x) -> 53 <= 52 + Double.binade (Qnum x) (Zpos (Qden x)).
Proof.
  intros [Hp Hpq] Hlt.
  destruct (binade_spec _ _ Hp Hpq) as (Hs & Hlo & _).
  destruct (Z.eq_dec (Double.binade (Qnum x) (Zpos (Qden x))) 0) as [H0|]; [|lia].
  rewrite H0 in Hlo. simpl in Hlo. lia.
Qed.

Lemma round_unit (x : Q) : in_unit x -> (0 < Double.round x <= 1)%Q.
Proof.
  intros Hx. pose proof Hx as [Hp Hpq].
  destruct (round_grid x Hx) as (m & -> & H2k & Hk & Hlo & Hhi & _).
  destruct (binade_spec _ _ Hp Hpq) as (Hs & Hb & _).
  set (k := 52 + Double.binade (Qnum x) (Zpos (Qden x))) in *.
  assert (Hpow : 0 < 2 ^ k) by (apply Z.pow_pos_nonneg; lia).
  assert (H1 : 1 <= m).
  { apply Hlo. unfold k. rewrite Z.pow_add_r by lia.
    assert (0 < 2 ^ 52) by (apply Z.pow_pos_nonneg; lia). nia. }
  assert (H2 : m <= 2 ^ k) by (apply Hhi; nia).
  unfold Qlt, Qle. cbn [Qnum Qden]. rewrite H2k. lia.
Qed.

Lemma round_exact_one (x : Q) :
  Qnum x = Zpos (Qden x) -> (Double.round x == 1)%Q.
Proof.
  intros Hx.
  assert (Hu : in_unit x) by (unfold in_unit; lia).
  destruct (round_grid x Hu) as (m & -> & H2k & Hk & Hlo & Hhi & _).
  set (k := 52 + Double.binade (Qnum x) (Zpos (Qden x))) in *.
  assert (Hpow : 0 < 2 ^ k) by (apply Z.pow_pos_nonneg; lia).
  assert (m = 2 ^ k).
  { apply Z.le_antisymm; [apply Hhi|apply Hlo]; rewrite Hx; lia. }
  unfold Qeq. cbn [Qnum Qden]. rewrite H2k. lia.
Qed.

Lemma round_ge_tiny (x : Q) :
  in_unit x -> Zpos (Qden x) <= Qnum x * 2 ^ 53 ->
  exists m k, Double.round x = m # Double.pow2 k /\
              Zpos (Double.pow2 k) = 2 ^ k /\
              0 < m <= 2 ^ k /\ 2 ^ k <= m * 2 ^ 53.
Proof.
  intros Hx Hbig. pose proof Hx as [Hp Hpq].
  destruct (round_grid x Hx) as (m & Hr & H2k & Hk & Hlo & Hhi & _).
  destruct (binade_spec _ _ Hp Hpq) as (Hs & Hb & _).
  set (k := 52 + Double.binade (Qnum x) (Zpos (Qden x))) in *.
  assert (Hpow : 0 < 2 ^ k) by (apply Z.pow_pos_nonneg; lia).
  exists m, k. split; [exact Hr|]. split; [exact H2k|].
  assert (H1 : 1 <= m).
  { apply Hlo. unfold k. rewrite Z.pow_add_r by lia.
    assert (0 < 2 ^ 52) by (apply Z.pow_pos_nonneg; lia). nia. }
  assert (H2 : m <= 2 ^ k) by (apply Hhi; nia).
  split; [lia|].
  destruct (Z_le_gt_dec k 53) as [Hle|Hgt].
  - assert (2 ^ k <= 2 ^ 53) by (apply Z.pow_le_mono_r; lia). nia.
  - assert (Hsplit : 2 ^ k = 2 ^ (k - 53) * 2 ^ 53).
    { rewrite <- Z.pow_add_r by lia. f_equal. lia. }
    assert (Hj : 2 ^ (k - 53) <= m).
    { apply Hlo. rewrite Hsplit.
      assert (0 < 2 ^ (k - 53)) by (apply Z.pow_pos_nonneg; lia). nia. }
    rewrite Hsplit. nia.
Qed.

Lemma round_lt_one (y : Q) :
  in_unit y -> Qnum y * 2 ^ 53 <= (2 ^ 53 - 1) * Zpos (Qden y) ->
  (Double.round y < 1)%Q.
Proof.
  intros Hy Hsmall. pose proof Hy as [Hp Hpq].
  assert (Hlt : Qnum y < Zpos (Qden y)) by lia.
  pose proof (in_unit_lt_binade y Hy Hlt) as Hk53.
  destruct (round_grid y Hy) as (m & -> & H2k & Hk & Hlo & Hhi & _).
  set (k := 52 + Double.binade (Qnum y) (Zpos (Qden y))) in *.
  assert (Hsplit : 2 ^ k = 2 ^ (k - 53) * 2 ^ 53).
  { rewrite <- Z.pow_add_r by lia. f_equal. lia. }
  assert (Hpos : 0 < 2 ^ (k - 53)) by (apply Z.pow_pos_nonneg; lia).
  assert (Hm : m <= 2 ^ k - 1).
  { apply Hhi. rewrite Hsplit. nia. }
  unfold Qlt. cbn [Qnum Qden]. rewrite H2k. lia.
Qed.

Lemma round_error (x : Q) :
  in_unit x -> (Qabs (Double.round x - x) <= 1 # Double.pow2 54)%Q.
Proof.
  intros Hx. pose proof Hx as [Hp Hpq].
  destruct (round_grid x Hx) as (m & -> & H2k & Hk & Hlo & Hhi & Herr).
  set (k := 52 + Double.binade (Qnum x) (Zpos (Qden x))) in *.
  assert (Hpow : 0 < 2 ^ k) by (apply Z.pow_pos_nonneg; lia).
  destruct x as [p q]. cbn [Qnum Qden] in *.
  unfold Qminus, Qplus, Qopp, Qabs, Qle. cbn [Qnum Qden].
  rewrite !Pos2Z.inj_mul, H2k.
  change (Z.pos (Double.pow2 54)) with (2 ^ 54).
  replace (m * Z.pos q + - p * 2 ^ k) with (m * Z.pos q - p * 2 ^ k) by lia.
  destruct (Z.eq_dec p (Z.pos q)) as [Heq|Hne].
  - assert (m = 2 ^ k).
    { apply Z.le_antisymm; [apply Hhi|apply Hlo]; rewrite Heq; lia. }
    subst m. rewrite Heq. replace (2 ^ k * Z.pos q - Z.pos q * 2 ^ k) with 0 by lia.
    simpl Z.abs. lia.
  - assert (Hk53 : 53 <= k).
    { apply (in_unit_lt_binade (p # q)); [exact Hx|simpl; lia]. }
    assert (Hsplit : 2 ^ k = 2 ^ (k - 53) * 2 ^ 53).
    { rewrite <- Z.pow_add_r by lia. f_equal. lia. }
    assert (Hpos : 0 < 2 ^ (k - 53)) by (apply Z.pow_pos_nonneg; lia).
    change (2 ^ 54) with (2 * 2 ^ 53).
    set (e := Z.abs (m * Z.pos q - p * 2 ^ k)) in *.
    assert (0 <= e) by apply Z.abs_nonneg.
    rewrite Hsplit. assert (0 < 2 ^ 53) by lia. nia.
Qed.


Lemma round_outside (x : Q) : Qnum x <= 0 -> Double.round x = x.
Proof.
  intros H. unfold Double.round.
  assert ((0 <? Qnum x) = false) as -> by (apply Z.ltb_ge; lia). reflexivity.
Qed.

Lemma zero_num (y : Q) : Qnum y = 0 -> (y == 0)%Q.
Proof. intros H. unfold Qeq. rewrite H. reflexivity. Qed.

Lemma complement_parts (m : Z) (P : positive) :
  Qnum (1 - (m # P)) = Zpos P - m /\ Zpos (Qden (1 - (m # P))) = Zpos P.
Proof.
  unfold Qminus, Qplus, Qopp. cbn [Qnum Qden]. split; [lia|].
  now rewrite Pos.mul_1_l.
Qed.

Lemma pos_of_nat_Z (m : nat) : (1 <= m)%nat -> Zpos (Pos.of_nat m) = Z.of_nat m.
Proof.
  intros Hm. rewrite <- positive_nat_Z, Nat2Pos.id by lia. reflexivity.
Qed.

Lemma ratio_in_unit (d m : nat) :
  (1 <= d <= m)%nat -> in_unit (Z.of_nat d # Pos.of_nat m).
Proof.
  intros H. unfold in_unit. cbn [Qnum Qden]. rewrite pos_of_nat_Z by lia. lia.
Qed.

(** The rounded quotient and what is left of 1. *)
Lemma rounded_ratio (d m : nat) :
  (1 <= d <= m)%nat -> Z.of_nat m < 2 ^ 53 ->
  exists n k,
    Double.round (Z.of_nat d # Pos.of_nat m) = n # Double.pow2 k /\
    Zpos (Double.pow2 k) = 2 ^ k /\
    0 < n <= 2 ^ k /\ 2 ^ k <= n * 2 ^ 53.
Proof.
  intros Hd Hm. apply round_ge_tiny; [now apply ratio_in_unit|].
  cbn [Qnum Qden]. rewrite pos_of_nat_Z by lia. lia.
Qed.

Lemma one_minus_ratio_bounds (d m : nat) :
  (d <= m)%nat -> (1 <= m)%nat ->
  (0 <= Double.one_minus_ratio d m <= 1)%Q.
Proof.
  intros Hd Hm. unfold Double.one_minus_ratio.
  assert (Hexact : (0 <= 1 - (Z.of_nat d # Pos.of_nat m) <= 1)%Q).
  { assert (H1 : (Z.of_nat d # Pos.of_nat m <= 1)%Q).
    { unfold Qle. cbn [Qnum Qden]. rewrite pos_of_nat_Z by lia. lia. }
    assert (H0 : (0 <= Z.of_nat d # Pos.of_nat m)%Q).
    { unfold Qle. cbn [Qnum Qden]. lia. }
    split; lra. }
  destruct (Z.of_nat m <? 2 ^ 53) eqn:Hsmall; [|exact Hexact].
  apply Z.ltb_lt in Hsmall.
  assert (Hgen : forall n P, 0 <= n <= Zpos P ->
            (0 <= Double.round (1 - (n # P)) <= 1)%Q).
  { intros n P Hn. destruct (complement_parts n P) as [Hnum Hden].
    destruct (Z.eq_dec n (Zpos P)) as [->|Hne].
    - rewrite round_outside by lia.
      rewrite (zero_num (1 - (Z.pos P # P))) by lia. split; lra.
    - assert (Hu : in_unit (1 - (n # P))) by (unfold in_unit; lia).
      pose proof (round_unit _ Hu). split; lra. }
  destruct (Nat.eq_dec d 0) as [->|Hd0].
  - rewrite (round_outside (Z.of_nat 0 # Pos.of_nat m)) by (cbn; lia). apply Hgen.
    rewrite pos_of_nat_Z by lia. lia.
  - destruct (rounded_ratio d m ltac:(lia) Hsmall) as (n & k & -> & H2k & Hn & _).
    apply Hgen. lia.
Qed.

Lemma one_minus_ratio_zero (m : nat) :
  (1 <= m)%nat -> (Double.one_minus_ratio 0 m == 1)%Q.
Proof.
  intros Hm. unfold Double.one_minus_ratio.
  destruct (Z.of_nat m <? 2 ^ 53).
  - rewrite (round_outside (Z.of_nat 0 # Pos.of_nat m)) by (cbn; lia). apply round_exact_one.
    destruct (complement_parts 0 (Pos.of_nat m)) as [Hnum Hden].
    cbn [Z.of_nat]. rewrite Hnum, Hden. lia.
  - unfold Qeq. cbn. lia.
Qed.

Lemma one_minus_ratio_all (m : nat) :
  (1 <= m)%nat -> (Double.one_minus_ratio m m == 0)%Q.
Proof.
  intros Hm. unfold Double.one_minus_ratio.
  assert (Hone : (Z.of_nat m # Pos.of_nat m == 1)%Q).
  { unfold Qeq. cbn [Qnum Qden]. rewrite pos_of_nat_Z by lia. lia. }
  destruct (Z.of_nat m <? 2 ^ 53).
  - assert (Hr : (Double.round (Z.of_nat m # Pos.of_nat m) == 1)%Q).
    { apply round_exact_one. cbn [Qnum Qden]. now rewrite pos_of_nat_Z by lia. }
    destruct (Double.round (Z.of_nat m # Pos.of_nat m)) as [n P] eqn:Hx.
    destruct (complement_parts n P) as [Hnum Hden].
    assert (Hn : n = Zpos P) by (unfold Qeq in Hr; cbn in Hr; lia).
    rewrite round_outside by lia. apply zero_num. lia.
  - lra.
Qed.

Lemma one_minus_ratio_lt_one (d m : nat) :
  (1 <= d <= m)%nat -> (Double.one_minus_ratio d m < 1)%Q.
Proof.
  intros Hd. unfold Double.one_minus_ratio.
  destruct (Z.of_nat m <? 2 ^ 53) eqn:Hsmall.
  - apply Z.ltb_lt in Hsmall.
    destruct (rounded_ratio d m Hd Hsmall) as (n & k & -> & H2k & Hn & Htiny).
    destruct (complement_parts n (Double.pow2 k)) as [Hnum Hden].
    destruct (Z.eq_dec n (2 ^ k)) as [Heq|Hne].
    + rewrite round_outside by lia.
      rewrite (zero_num (1 - (n # Double.pow2 k))) by lia. lra.
    + apply round_lt_one; [unfold in_unit; lia|].
      rewrite Hnum, Hden, H2k. lia.
  - assert (H0 : (0 < Z.of_nat d # Pos.of_nat m)%Q).
    { unfold Qlt. cbn [Qnum Qden]. lia. }
    lra.
Qed.

Definition ulp_below_one : Q := 1 # Double.pow2 53.

Lemma half_ulps : ((1 # Double.pow2 54) + (1 # Double.pow2 54) == ulp_below_one)%Q.
Proof. reflexivity. Qed.

Lemma round_error_any (x : Q) :
  0 <= Qnum x <= Zpos (Qden x) ->
  (Qabs (Double.round x - x) <= 1 # Double.pow2 54)%Q.
Proof.
  intros Hx. destruct (Z.eq_dec (Qnum x) 0) as [H0|Hne].
  - rewrite round_outside by lia.
    assert (Hz : (x - x == 0)%Q) by ring. rewrite Hz. discriminate.
  - apply round_error. unfold in_unit. lia.
Qed.

Lemma one_minus_ratio_error (d m : nat) :
  (d <= m)%nat -> (1 <= m)%nat ->
  (Qabs (Double.one_minus_ratio d m - (1 - (Z.of_nat d # Pos.of_nat m)))
   <= ulp_below_one)%Q.
Proof.
  intros Hd Hm. unfold Double.one_minus_ratio.
  set (x := Z.of_nat d # Pos.of_nat m).
  destruct (Z.of_nat m <? 2 ^ 53) eqn:Hsmall.
  2:{ assert (Hz : (1 - x - (1 - x) == 0)%Q) by ring. rewrite Hz. discriminate. }
  assert (Hx : 0 <= Qnum x <= Zpos (Qden x)).
  { unfold x. cbn [Qnum Qden]. rewrite pos_of_nat_Z by lia. lia. }
  pose proof (round_error_any x Hx) as E1.
  assert (Hx1 : exists n P, Double.round x = n # P /\ 0 <= n <= Zpos P).
  { destruct (Z.eq_dec (Qnum x) 0) as [H0|Hne].
    - rewrite round_outside by lia. exists (Qnum x), (Qden x).
      split; [now destruct x|lia].
    - destruct (round_grid x ltac:(unfold in_unit; lia))
        as (n & Hr & H2k & Hk & Hlo & Hhi & _).
      eexists. eexists. split; [exact Hr|].
      set (k := 52 + Double.binade (Qnum x) (Zpos (Qden x))) in *.
      assert (0 < 2 ^ k) by (apply Z.pow_pos_nonneg; lia).
      rewrite H2k. split.
      + assert (0 <= n); [apply Hlo; nia|lia].
      + apply Hhi. nia. }
  destruct Hx1 as (n & P & Hr & Hn). rewrite Hr in *.
  destruct (complement_parts n P) as [Hnum Hden].
  pose proof (round_error_any (1 - (n # P)) ltac:(lia)) as E2.
  apply Qabs_Qle_condition in E1. apply Qabs_Qle_condition in E2.
  apply Qabs_Qle_condition. pose proof half_ulps.
  split; lra.
Qed.

(** ** The formula *)

(** [1 - levenshtein(a, b) / max(len(a), len(b))] as the code evaluates
    it: the quotient rounded to a double, then the difference. *)
Definition similarity_formula (a b : string) : Q :=
  Double.one_minus_ratio
    (levenshtein (list_ascii_of_string a) (list_ascii_of_string b))
    (Nat.max (String.length a) (String.length b)).

(** The same expression in exact arithmetic. *)
Definition exact_similarity (a b : string) : Q :=
  1 - (Z.of_nat (levenshtein (list_ascii_of_string a) (list_ascii_of_string b))
       # Pos.of_nat (Nat.max (String.length a) (String.length b))).

Lemma string_length_zero (s : string) : String.length s = 0%nat -> s = EmptyString.
Proof. destruct s; [reflexivity|discriminate]. Qed.

Lemma longer_not_empty (a b : string) :
  ~ (a = EmptyString /\ b = EmptyString) ->
  (1 <= Nat.max (String.length a) (String.length b))%nat.
Proof.
  intros Hne.
  destruct (Nat.max (String.length a) (String.length b)) as [|n] eqn:Hmax; [|lia].
  exfalso. apply Hne. split; apply string_length_zero; lia.
Qed.

Lemma distance_le_longer (a b : string) :
  (levenshtein (list_ascii_of_string a) (list_ascii_of_string b)
   <= Nat.max (String.length a) (String.length b))%nat.
Proof.
  pose proof (levenshtein_le_max (list_ascii_of_string a) (list_ascii_of_string b)) as Hle.
  now rewrite !string_length_list in Hle.
Qed.

Lemma levenshteinSim_formula (a b : string) :
  ~ (a = EmptyString /\ b = EmptyString) ->
  Similarity._levenshteinSim a b = similarity_formula a b.
Proof.
  intros Hne. pose proof (longer_not_empty a b Hne) as Hlen.
  unfold Similarity._levenshteinSim, similarity_formula.
  rewrite distance_defined.
  destruct (Nat.max (String.length a) (String.length b)) as [|n]; [lia|reflexivity].
Qed.

Lemma similarity_formula_sym (a b : string) :
  similarity_formula a b = similarity_formula b a.
Proof.
  unfold similarity_formula.
  now rewrite levenshtein_sym, Nat.max_comm.
Qed.

Lemma similarity_formula_bounds (a b : string) :
  ~ (a = EmptyString /\ b = EmptyString) ->
  (0 <= similarity_formula a b <= 1)%Q.
Proof.
  intros Hne. unfold similarity_formula.
  apply one_minus_ratio_bounds; [apply distance_le_longer|now apply longer_not_empty].
Qed.

Lemma similarity_formula_same (a : string) :
  a <> EmptyString -> (similarity_formula a a == 1)%Q.
Proof.
  intros Ha. unfold similarity_formula. rewrite levenshtein_same.
  apply one_minus_ratio_zero. apply longer_not_empty. tauto.
Qed.

Lemma similarity_formula_one_empty (a b : string) :
  a <> b -> a = EmptyString \/ b = EmptyString ->
  (similarity_formula a b == 0)%Q.
Proof.
  intros Hab Hempty.
  assert (H : forall s, s <> EmptyString ->
            (similarity_formula EmptyString s == 0)%Q).
  { intros s Hs. unfold similarity_formula. simpl.
    rewrite string_length_list.
    apply one_minus_ratio_all.
    destruct (String.length s) eqn:Hlen; [|lia].
    now apply string_length_zero in Hlen. }
  destruct Hempty as [-> | ->].
  - apply H. congruence.
  - rewrite similarity_formula_sym. apply H. congruence.
Qed.

(** The rounded score is within one unit in the last place of the exact
    one. *)
Lemma similarity_formula_error (a b : string) :
  ~ (a = EmptyString /\ b = EmptyString) ->
  (Qabs (similarity_formula a b - exact_similarity a b) <= ulp_below_one)%Q.
Proof.
  intros Hne. unfold similarity_formula, exact_similarity.
  apply one_minus_ratio_error; [apply distance_le_longer|now apply longer_not_empty].
Qed.

(** ** The memo *)

(** Normalized text has no ["|"], so that the pair can be read off the
    memo key. *)
Definition clean (s : string) : Prop := pipe_free s = true.

Lemma clean_strip (s : string) : clean (JSString.strip_non_word s).
Proof.
  unfold clean. induction s as [|c s IH]; simpl; [reflexivity|].
  destruct (JSString.is_word c || JSString.is_space c) eqn:Hc; [|exact IH].
  simpl. rewrite IH, andb_true_r.
  destruct (Ascii.eqb_spec c "|") as [->|]; [discriminate Hc|reflexivity].
Qed.

Lemma clean_collapse (s : string) :
  forall in_run, clean s -> clean (JSString.collapse_spaces in_run s).
Proof.
  unfold clean. induction s as [|c s IH]; intros in_run H; simpl in *; [reflexivity|].
  apply andb_true_iff in H as [Hc Hs].
  destruct (JSString.is_space c).
  - destruct in_run; simpl; auto.
  - simpl. rewrite Hc. simpl. auto.
Qed.

Lemma clean_trimStart (s : string) : clean s -> clean (JSString.trimStart s).
Proof.
  unfold clean. induction s as [|c s IH]; intros H; simpl in *; [reflexivity|].
  destruct (JSString.is_space c); [|exact H].
  apply andb_true_iff in H as [_ Hs]. auto.
Qed.

Lemma clean_trimEnd (s : string) : clean s -> clean (JSString.trimEnd s).
Proof.
  unfold clean. induction s as [|c s IH]; intros H; simpl in *; [reflexivity|].
  apply andb_true_iff in H as [Hc Hs]. specialize (IH Hs).
  destruct (JSString.trimEnd s) as [|d r].
  - destruct (JSString.is_space c); simpl; [reflexivity|]. now rewrite Hc.
  - simpl in *. now rewrite Hc, IH.
Qed.

Lemma clean_normalize (cfg : Similarity.Config) (s : string) :
  Similarity.normalizeText cfg = true ->
  clean (Similarity.normalize_string cfg s).
Proof.
  intros Hn. unfold Similarity.normalize_string. rewrite Hn.
  unfold JSString.trim.
  apply clean_trimEnd, clean_trimStart, clean_collapse, clean_strip.
Qed.

Lemma clean_normalize_value (cfg : Similarity.Config) (v : JValue) (s : string) :
  Similarity.normalizeText cfg = true ->
  Similarity._normalize cfg v = Ok s -> clean s.
Proof.
  intros Hn. unfold Similarity._normalize.
  destruct (negb (truthy v)).
  - intros [= <-]. reflexivity.
  - destruct v; try discriminate. intros [= <-]. now apply clean_normalize.
Qed.

Lemma join_pipes_inj (x y x' y' : string) :
  clean x -> clean x' ->
  (x ++ "||" ++ y = x' ++ "||" ++ y')%string -> x = x' /\ y = y'.
Proof.
  intros Hx Hx' Heq.
  destruct (split_at_first_pipe x x' ("|" ++ y) ("|" ++ y') Hx Hx' Heq)
    as [-> Hrest].
  injection Hrest as ->. auto.
Qed.

Lemma cacheKey_inj (a b a' b' : string) :
  clean a -> clean b -> clean a' -> clean b' ->
  Similarity.cacheKey a b = Similarity.cacheKey a' b' ->
  (a = a' /\ b = b') \/ (a = b' /\ b = a').
Proof.
  intros Ha Hb Ha' Hb'. unfold Similarity.cacheKey, JSString.sort_join.
  destruct (String.ltb b a); destruct (String.ltb b' a'); intros Heq;
    apply join_pipes_inj in Heq; auto; destruct Heq as [-> ->]; auto.
Qed.

(** Every memo entry was computed by [_levenshteinSim] for a pair of
    distinct, non-empty normalized strings.  This holds after
    [initialize] and is kept by [_calculate]. *)
Definition memo_ok (memo : Similarity.Memo) : Prop :=
  forall k s, In (k, s) memo ->
  exists a b, clean a /\ clean b /\
              ~ (a = EmptyString /\ b = EmptyString) /\
              k = Similarity.cacheKey a b /\
              s = Similarity._levenshteinSim a b.

Lemma memo_ok_initial : memo_ok [].
Proof. intros k s []. Qed.

Lemma in_delete {V : Type} (k : string) (m : JSMap.t V) (kv : string * V) :
  In kv (JSMap.delete k m) -> In kv m.
Proof.
  induction m as [|[k' v'] r IH]; simpl; [tauto|].
  destruct (String.eqb k k'); simpl; tauto.
Qed.

Lemma in_set {V : Type} (k : string) (v : V) (m : JSMap.t V) (kv : string * V) :
  In kv (JSMap.set k v m) -> kv = (k, v) \/ In kv m.
Proof.
  induction m as [|[k' v'] r IH]; simpl.
  - intros [<-|[]]. now left.
  - destruct (String.eqb k k'); simpl; intros [<-|H]; auto.
    destruct (IH H); auto.
Qed.

Lemma memo_ok_delete_oldest (memo : Similarity.Memo) :
  memo_ok memo -> memo_ok (Similarity.delete_oldest memo).
Proof.
  intros Hok k s Hin. apply Hok. unfold Similarity.delete_oldest in Hin.
  destruct memo as [|[k0 v0] r]; [assumption|].
  now apply in_delete in Hin.
Qed.

Lemma memo_lookup_formula (memo : Similarity.Memo) (a b : string) (s : Q) :
  memo_ok memo -> clean a -> clean b ->
  JSMap.get (Similarity.cacheKey a b) memo = Some s ->
  s = similarity_formula a b.
Proof.
  intros Hok Ha Hb Hget. apply JSMap.get_in in Hget.
  destruct (Hok _ _ Hget) as (a' & b' & Ha' & Hb' & Hne & Hkey & ->).
  rewrite levenshteinSim_formula by assumption.
  destruct (cacheKey_inj a b a' b' Ha Hb Ha' Hb' Hkey) as [[-> ->]|[-> ->]].
  - reflexivity.
  - apply similarity_formula_sym.
Qed.

Lemma is_empty_spec (s : string) :
  Similarity.is_empty s = true <-> s = EmptyString.
Proof. unfold Similarity.is_empty. apply String.eqb_eq. Qed.

Lemma calculate_spec (cfg : Similarity.Config) (a b : string)
  (memo : Similarity.Memo) :
  memo_ok memo -> clean a -> clean b ->
  (a = b -> fst (Similarity._calculate cfg a b memo) = 1%Q) /\
  (a <> b -> a = EmptyString \/ b = EmptyString ->
     fst (Similarity._calculate cfg a b memo) = 0%Q) /\
  (a <> b -> a <> EmptyString -> b <> EmptyString ->
     fst (Similarity._calculate cfg a b memo) = similarity_formula a b) /\
  memo_ok (snd (Similarity._calculate cfg a b memo)).
Proof.
  intros Hok Ha Hb. unfold Similarity._calculate.
  destruct (String.eqb_spec a b) as [Heq|Hneq]; simpl.
  { repeat split; auto; intros; congruence. }
  destruct (Similarity.is_empty a || Similarity.is_empty b) eqn:Hempty; simpl.
  { apply orb_true_iff in Hempty. rewrite !is_empty_spec in Hempty.
    repeat split; auto; intros; try congruence. tauto. }
  apply orb_false_iff in Hempty as [Hea Heb].
  assert (Hna : a <> EmptyString).
  { intros H. apply is_empty_spec in H. congruence. }
  assert (Hnb : b <> EmptyString).
  { intros H. apply is_empty_spec in H. congruence. }
  assert (Hsim : Similarity._levenshteinSim a b = similarity_formula a b).
  { apply levenshteinSim_formula. tauto. }
  destruct (Similarity.useCache cfg).
  - destruct (JSMap.get (Similarity.cacheKey a b) memo) as [cached|] eqn:Hget; simpl.
    + repeat split; auto; intros; try tauto.
      now apply (memo_lookup_formula memo).
    + repeat split; auto; intros; try tauto.
      intros k s Hin. apply in_set in Hin. destruct Hin as [[= -> ->]|Hin].
      * exists a, b. repeat split; auto. tauto.
      * destruct (Similarity.cacheSize cfg <? Z.of_nat (JSMap.size memo)).
        -- now apply (memo_ok_delete_oldest memo Hok).
        -- now apply Hok.
  - simpl. repeat split; auto; intros; tauto.
Qed.

Lemma calculate_formula (cfg : Similarity.Config) (a b : string)
  (memo : Similarity.Memo) :
  memo_ok memo -> clean a -> clean b ->
  ~ (a = EmptyString /\ b = EmptyString) ->
  (fst (Similarity._calculate cfg a b memo) == similarity_formula a b)%Q.
Proof.
  intros Hok Ha Hb Hne.
  destruct (calculate_spec cfg a b memo Hok Ha Hb) as (H1 & H0 & Hf & _).
  destruct (string_dec a b) as [Heq|Hneq].
  - rewrite (H1 Heq). subst b. symmetry. apply similarity_formula_same.
    intros ->. tauto.
  - destruct (string_dec a EmptyString) as [Hea|Hna].
    + rewrite (H0 Hneq (or_introl Hea)). symmetry.
      apply similarity_formula_one_empty; auto.
    + destruct (string_dec b EmptyString) as [Heb|Hnb].
      * rewrite (H0 Hneq (or_intror Heb)). symmetry.
        apply similarity_formula_one_empty; auto.
      * rewrite (Hf Hneq Hna Hnb). reflexivity.
Qed.

Lemma calculate_bounds (cfg : Similarity.Config) (a b : string)
  (memo : Similarity.Memo) :
  memo_ok memo -> clean a -> clean b ->
  (0 <= fst (Similarity._calculate cfg a b memo) <= 1)%Q.
Proof.
  intros Hok Ha Hb.
  destruct (string_dec a EmptyString) as [Hea|Hna];
    [destruct (string_dec b EmptyString) as [Heb|Hnb]|].
  - destruct (calculate_spec cfg a b memo Hok Ha Hb) as (H1 & _).
    rewrite H1 by congruence. split; lra.
  - rewrite (calculate_formula cfg a b memo Hok Ha Hb) by tauto.
    apply similarity_formula_bounds. tauto.
  - rewrite (calculate_formula cfg a b memo Hok Ha Hb) by tauto.
    apply similarity_formula_bounds. tauto.
Qed.

(* ================================================================== *)
(** * Properties of [findBestMatch] *)
(* ================================================================== *)

Lemma Qgtb_true (x y : Q) : Similarity.Qgtb x y = true <-> (y < x)%Q.
Proof.
  unfold Similarity.Qgtb. rewrite negb_true_iff.
  split.
  - intros H. apply Qnot_le_lt. intros Hle.
    apply Qle_bool_iff in Hle. congruence.
  - intros H. destruct (Qle_bool x y) eqn:E; [|reflexivity].
    apply Qle_bool_iff in E. lra.
Qed.

Lemma Qgtb_false (x y : Q) : Similarity.Qgtb x y = false <-> (x <= y)%Q.
Proof.
  unfold Similarity.Qgtb. rewrite negb_false_iff. apply Qle_bool_iff.
Qed.

(** The candidates of the pool with the scores that the loop of
    [findBestMatch] computes for them, in the order of the loop; the memo
    is threaded as the loop threads it. *)
Fixpoint scored (cfg : Similarity.Config) (normalized : string)
  (entries : list (string * JValue)) (memo : Similarity.Memo)
  : list (string * JValue * Q) :=
  match entries with
  | [] => []
  | (k, v) :: rest =>
      match Similarity._normalize cfg v with
      | Throw _ => []
      | Ok candidate =>
          let (s, memo') := Similarity._calculate cfg normalized candidate memo in
          (k, v, s) :: scored cfg normalized rest memo'
      end
  end.

Definition as_match (e : string * JValue * Q) : Similarity.Match :=
  Similarity.mkMatch (fst (fst e)) (snd (fst e)) (snd e).

Definition choose (threshold : Q) (best : option Similarity.Match)
  (e : string * JValue * Q) : option Similarity.Match :=
  if Similarity.improves threshold best (snd e) then Some (as_match e) else best.

Lemma match_loop_scored (cfg : Similarity.Config) (normalized : string)
  (threshold : Q) (entries : list (string * JValue)) :
  forall best memo r memo',
  Similarity.match_loop cfg normalized threshold entries best memo = (Ok r, memo') ->
  r = fold_left (choose threshold) (scored cfg normalized entries memo) best /\
  map fst (scored cfg normalized entries memo) = entries.
Proof.
  induction entries as [|[k v] rest IH]; intros best memo r memo' Hrun; simpl in *.
  - injection Hrun as <- _. auto.
  - destruct (Similarity._normalize cfg v) as [candidate|]; [|discriminate].
    destruct (Similarity._calculate cfg normalized candidate memo) as [s memo1].
    apply IH in Hrun. destruct Hrun as [-> Hmap]. simpl. split.
    + reflexivity.
    + now rewrite Hmap.
Qed.

Lemma not_improves (threshold : Q) (m0 : Similarity.Match) (s : Q) :
  (threshold < Similarity.score m0)%Q ->
  Similarity.improves threshold (Some m0) s = false ->
  (s <= Similarity.score m0)%Q.
Proof.
  unfold Similarity.improves. intros Ht H.
  apply andb_false_iff in H. destruct H as [H|H]; apply Qgtb_false in H; lra.
Qed.

Lemma fold_choose_none (threshold : Q) (l : list (string * JValue * Q)) :
  forall acc, fold_left (choose threshold) l acc = None ->
  acc = None /\ forall e, In e l -> (snd e <= threshold)%Q.
Proof.
  induction l as [|e l IH]; intros acc H; simpl in *.
  - split; [assumption|]. intros e [].
  - apply IH in H. destruct H as [Hacc Hall]. unfold choose in Hacc.
    destruct (Similarity.improves threshold acc (snd e)) eqn:Himp; [discriminate|].
    subst acc. split; [reflexivity|].
    intros e' [<-|Hin]; [|now apply Hall].
    unfold Similarity.improves in Himp. rewrite andb_true_r in Himp.
    now apply Qgtb_false.
Qed.

Lemma fold_choose_some (threshold : Q) (l : list (string * JValue * Q)) :
  forall acc m,
  (forall m0, acc = Some m0 -> (threshold < Similarity.score m0)%Q) ->
  fold_left (choose threshold) l acc = Some m ->
  (threshold < Similarity.score m)%Q /\
  ((acc = Some m /\ forall e, In e l -> (snd e <= Similarity.score m)%Q) \/
   (exists pre post,
      l = pre ++ (Similarity.key m, Similarity.query m, Similarity.score m) :: post /\
      (forall m0, acc = Some m0 -> (Similarity.score m0 < Similarity.score m)%Q) /\
      (forall e, In e pre -> (snd e < Similarity.score m)%Q) /\
      (forall e, In e post -> (snd e <= Similarity.score m)%Q))).
Proof.
  induction l as [|e l IH]; intros acc m Hinv H; simpl in *.
  - split; [now apply Hinv|]. left. split; [assumption|]. intros e [].
  - assert (Hinv' : forall m0, choose threshold acc e = Some m0 ->
                      (threshold < Similarity.score m0)%Q).
    { unfold choose. intros m0.
      destruct (Similarity.improves threshold acc (snd e)) eqn:Himp.
      - intros [= <-]. simpl. unfold Similarity.improves in Himp.
        apply andb_true_iff in Himp as [Himp _]. now apply Qgtb_true.
      - apply Hinv. }
    destruct (IH _ m Hinv' H) as [Ht Hcases]. split; [exact Ht|].
    unfold choose in Hcases.
    destruct (Similarity.improves threshold acc (snd e)) eqn:Himp.
    + assert (Hacc : forall m0, acc = Some m0 -> (Similarity.score m0 < snd e)%Q).
      { intros m0 ->. unfold Similarity.improves in Himp.
        apply andb_true_iff in Himp as [_ Himp]. now apply Qgtb_true. }
      destruct Hcases as [[Hm Hall]|(pre & post & -> & Hprev & Hpre & Hpost)].
      * injection Hm as <-. right. exists [], l. simpl.
        destruct e as [[k v] s]. simpl in *. repeat split; auto.
        intros e [].
      * right. exists (e :: pre), post. simpl. repeat split; auto.
        -- intros m0 Hm0. specialize (Hacc m0 Hm0).
           specialize (Hprev _ eq_refl). simpl in Hprev. lra.
        -- intros e' [<-|Hin]; [|now apply Hpre].
           specialize (Hprev _ eq_refl). exact Hprev.
    + destruct Hcases as [[Hm Hall]|(pre & post & -> & Hprev & Hpre & Hpost)].
      * left. split; [assumption|]. subst acc.
        intros e' [<-|Hin]; [|now apply Hall].
        now apply (not_improves threshold m).
      * right. exists (e :: pre), post. simpl. repeat split; auto.
        intros e' [<-|Hin]; [|now apply Hpre].
        destruct acc as [m0|].
        -- pose proof (not_improves threshold m0 (snd e) (Hinv _ eq_refl) Himp).
           specialize (Hprev _ eq_refl). lra.
        -- unfold Similarity.improves in Himp. rewrite andb_true_r in Himp.
           apply Qgtb_false in Himp. lra.
Qed.

(** A string, or a falsy value ([undefined], [null], [false], [0]). *)
Definition is_text (v : JValue) : bool :=
  match v with
  | JStr _ => true
  | _ => negb (truthy v)
  end.

(** The runs that the model follows to the end: the configuration lowers
    the case or normalizes the text (a truthy value that is not a string
    then raises a TypeError, in the code as in the model), or the query
    and the candidates are strings or falsy.  With both switches off the
    code goes on to score values that are not strings, and the model
    does not. *)
Definition within_model (cfg : Similarity.Config) (q : JValue)
  (pool : list (string * JValue)) : Prop :=
  Similarity.ignoreCase cfg || Similarity.normalizeText cfg = true \/
  (is_text q = true /\ Forall (fun kv => is_text (snd kv) = true) pool).

(** C6: when [findBestMatch] returns normally, a match it returns has a
    score strictly above the threshold, every candidate before it in the
    order of the pool scored strictly less and every candidate after it
    scored at most as much (so it is the first candidate with the highest
    score, and a candidate scoring exactly the threshold is never
    returned); when it returns [null] for a truthy query with the service
    enabled, no candidate scored above the threshold.  The scores are
    the doubles that the loop computes and the comparisons are those of
    doubles. *)
Theorem findBestMatch_first_strict_maximum
  (cfg : Similarity.Config) (q : JValue) (pool : list (string * JValue))
  (threshold : Q) (memo memo' : Similarity.Memo)
  (result : option Similarity.Match) :
  within_model cfg q pool ->
  Similarity.findBestMatch cfg q pool threshold memo = (Ok result, memo') ->
  (forall best, result = Some best ->
     exists normalized pre post,
       Similarity._normalize cfg q = Ok normalized /\
       map fst (scored cfg normalized pool memo) = pool /\
       scored cfg normalized pool memo
       = pre ++ (Similarity.key best, Similarity.query best, Similarity.score best)
                :: post /\
       (threshold < Similarity.score best)%Q /\
       (forall e, In e pre -> (snd e < Similarity.score best)%Q) /\
       (forall e, In e post -> (snd e <= Similarity.score best)%Q)) /\
  (result = None -> Similarity.enabled cfg = true -> truthy q = true ->
     exists normalized,
       Similarity._normalize cfg q = Ok normalized /\
       map fst (scored cfg normalized pool memo) = pool /\
       forall e, In e (scored cfg normalized pool memo) -> (snd e <= threshold)%Q).
Proof.
  unfold Similarity.findBestMatch. intros _ Hrun.
  destruct (negb (Similarity.enabled cfg) || negb (truthy q)) eqn:Hguard.
  - injection Hrun as <- _. split; [discriminate|].
    intros _ Hen Hq. rewrite Hen, Hq in Hguard. discriminate.
  - destruct (Similarity._normalize cfg q) as [normalized|]; [|discriminate].
    apply match_loop_scored in Hrun. destruct Hrun as [Hres Hmap]. split.
    + intros best ->. symmetry in Hres.
      apply fold_choose_some in Hres; [|discriminate].
      destruct Hres as [Ht [[Habs _]|(pre & post & Hsplit & _ & Hpre & Hpost)]];
        [discriminate|].
      exists normalized, pre, post. auto 6.
    + intros -> _ _. symmetry in Hres. apply fold_choose_none in Hres.
      exists normalized. repeat split; [assumption|apply Hres].
Qed.

Lemma findBestMatch_first_strict_maximum_witness :
  let pool := [("b", JStr "goodbye"); ("a", JStr "abcxxxxxxx");
               ("c", JStr "ABCxxxxxxx")] in
  let threshold := Double.round (3 # 10) in
  let s := Double.round (1 - Double.round (7 # 10)) in
  exists pre post,
    scored Similarity.default_config "abcdefghij" pool []
    = pre ++ ("a", JStr "abcxxxxxxx", s) :: post /\
    (threshold < s)%Q /\
    (forall e, In e pre -> (snd e < s)%Q) /\
    (forall e, In e post -> (snd e <= s)%Q).
Proof.
  intros pool threshold s.
  assert (Hrun : Similarity.findBestMatch Similarity.default_config
                   (JStr "abcdefghij") pool threshold []
                 = (Ok (Some (Similarity.mkMatch "a" (JStr "abcxxxxxxx") s)),
                    snd (Similarity.findBestMatch Similarity.default_config
                           (JStr "abcdefghij") pool threshold []))).
  { vm_compute. reflexivity. }
  destruct (findBestMatch_first_strict_maximum Similarity.default_config
              (JStr "abcdefghij") pool threshold [] _ _
              (or_introl eq_refl) Hrun) as [H _].
  destruct (H _ eq_refl) as (normalized & pre & post & Hn & _ & Hs & Ht & Hpre & Hpost).
  injection Hn as <-. exists pre, post. auto.
Defined.

(* ================================================================== *)
(** * The score of the matcher *)
(* ================================================================== *)

Lemma calculate_same (cfg : Similarity.Config) (a : string) (memo : Similarity.Memo) :
  Similarity._calculate cfg a a memo = (1%Q, memo).
Proof. unfold Similarity._calculate. now rewrite String.eqb_refl. Qed.

(** C7, as the code has it.  With text normalization on (the default) and
    a memo whose entries the matcher computed itself, the score of two
    normalized strings lies in [0, 1], is exactly 1 when they are
    identical (two empty strings included), is exactly 0 when exactly one
    of them is empty, and unless both are empty it is the double that
    [1 - levenshtein(a, b) / max(len(a), len(b))] evaluates to (the
    quotient rounded to the nearest double, then the difference), which
    is within 2^-53 of the exact value of that expression; the memo stays
    as described.  In particular
    [findBestMatch("Hello World!", {a: "hello world", b: "goodbye"}, 0.5)]
    returns key [a] with score 1. *)
Theorem similarity_score_formula
  (cfg : Similarity.Config) (memo : Similarity.Memo) (q v : string) :
  Similarity.normalizeText cfg = true ->
  memo_ok memo ->
  let a := Similarity.normalize_string cfg q in
  let b := Similarity.normalize_string cfg v in
  let s := fst (Similarity._calculate cfg a b memo) in
  (0 <= s <= 1)%Q /\
  (a = b -> s = 1%Q) /\
  (a <> b -> a = EmptyString \/ b = EmptyString -> s = 0%Q) /\
  (~ (a = EmptyString /\ b = EmptyString) ->
     (s == similarity_formula a b)%Q /\
     (Qabs (s - exact_similarity a b) <= 1 # Double.pow2 53)%Q) /\
  memo_ok (snd (Similarity._calculate cfg a b memo)) /\
  fst (Similarity.findBestMatch Similarity.default_config (JStr "Hello World!")
         [("a", JStr "hello world"); ("b", JStr "goodbye")] (1 # 2) memo)
  = Ok (Some (Similarity.mkMatch "a" (JStr "hello world") 1)).
Proof.
  intros Hnorm Hok a b s.
  assert (Ha : clean a) by now apply clean_normalize.
  assert (Hb : clean b) by now apply clean_normalize.
  destruct (calculate_spec cfg a b memo Hok Ha Hb) as (H1 & H0 & _ & Hmemo).
  split; [now apply calculate_bounds|].
  split; [exact H1|]. split; [exact H0|].
  split.
  { intros Hne. pose proof (calculate_formula cfg a b memo Hok Ha Hb Hne) as Hf.
    split; [exact Hf|]. fold s in Hf. rewrite Hf.
    now apply similarity_formula_error. }
  split; [exact Hmemo|].
  unfold Similarity.findBestMatch.
  change (Similarity._normalize Similarity.default_config (JStr "Hello World!"))
    with (@Ok string "hello world").
  cbn [negb orb Similarity.enabled Similarity.default_config truthy String.eqb
       Ascii.eqb Bool.eqb].
  cbn [Similarity.match_loop].
  change (Similarity._normalize Similarity.default_config (JStr "hello world"))
    with (@Ok string "hello world").
  change (Similarity._normalize Similarity.default_config (JStr "goodbye"))
    with (@Ok string "goodbye").
  cbv beta iota. rewrite calculate_same. cbv beta iota.
  pose proof (calculate_bounds Similarity.default_config "hello world" "goodbye"
                memo Hok eq_refl eq_refl) as [_ Hle].
  destruct (Similarity._calculate Similarity.default_config "hello world"
              "goodbye" memo) as [s2 memo2].
  simpl in Hle.
  assert (Himp : Similarity.improves (1 # 2)
                   (Some (Similarity.mkMatch "a" (JStr "hello world") 1)) s2 = false).
  { unfold Similarity.improves. apply andb_false_iff. right.
    now apply Qgtb_false. }
  change (Similarity.improves (1 # 2) None 1) with true. cbn iota.
  rewrite Himp. reflexivity.
Qed.

Lemma similarity_score_formula_witness :
  let s := fst (Similarity._calculate Similarity.default_config
                  "abcdefghij" "abcxxxxxxx" []) in
  (s == Double.round (1 - Double.round (7 # 10)))%Q /\
  (3 # 10 < s)%Q /\
  (Qabs (s - (3 # 10)) <= 1 # Double.pow2 53)%Q.
Proof.
  intros s.
  destruct (similarity_score_formula Similarity.default_config []
              "ABCdefghij!" "  abcxxxxxxx " eq_refl memo_ok_initial)
    as (_ & _ & _ & Hf & _).
  destruct Hf as [Heq Herr]; [intros [H _]; discriminate H|].
  change (Similarity.normalize_string Similarity.default_config "ABCdefghij!")
    with "abcdefghij" in Heq, Herr.
  change (Similarity.normalize_string Similarity.default_config "  abcxxxxxxx ")
    with "abcxxxxxxx" in Heq, Herr.
  fold s in Heq, Herr.
  assert (Hform : similarity_formula "abcdefghij" "abcxxxxxxx"
                  = Double.round (1 - Double.round (7 # 10))).
  { rewrite <- levenshteinSim_formula by (intros [H _]; discriminate H).
    vm_compute. reflexivity. }
  assert (Hexact : (exact_similarity "abcdefghij" "abcxxxxxxx" == 3 # 10)%Q).
  { unfold exact_similarity.
    assert (Hd : levenshtein (list_ascii_of_string "abcdefghij")
                   (list_ascii_of_string "abcxxxxxxx") = 7%nat).
    { assert (Hm : Similarity.distance "abcdefghij" "abcxxxxxxx" = Some 7%nat)
        by (vm_compute; reflexivity).
      rewrite distance_defined in Hm.
      exact (f_equal (fun o => match o with Some n => n | None => O end) Hm). }
    rewrite Hd. reflexivity. }
  split; [now rewrite Heq, Hform|]. split.
  - rewrite Heq, Hform. reflexivity.
  - now rewrite <- Hexact.
Defined.

(** C7 as stated fails when both normalized strings are empty: they are
    identical and score 1, not 0; so a query of punctuation only matches
    a candidate of punctuation only. *)
Lemma both_empty_scores_one :
  Similarity.normalize_string Similarity.default_config "!!!" = EmptyString /\
  Similarity.normalize_string Similarity.default_config "???" = EmptyString /\
  fst (Similarity._calculate Similarity.default_config EmptyString EmptyString []) = 1%Q /\
  ~ (1 == 0)%Q /\
  fst (Similarity.findBestMatch Similarity.default_config (JStr "!!!")
         [("a", JStr "???")] (1 # 2) [])
  = Ok (Some (Similarity.mkMatch "a" (JStr "???") 1)).
Proof.
  repeat split; try reflexivity. intros H. discriminate H.
Qed.

(** With normalization off the memo key is ambiguous: the pairs
    ("a", "a||b") and ("a||a", "b") share the key "a||a||b", and the
    second one is answered with the score of the first. *)
Lemma memo_key_collision_without_normalization :
  let cfg := Similarity.mkConfig true (8 # 10) false false true 500 in
  let memo1 := snd (Similarity._calculate cfg "a" "a||b" []) in
  (fst (Similarity._calculate cfg "a||a" "b" memo1) == 1 - (3 # 4))%Q /\
  (Similarity._levenshteinSim "a||a" "b" == 1 - (4 # 4))%Q.
Proof. split; reflexivity. Qed.

(* ================================================================== *)
(** * The size of the memo *)
(* ================================================================== *)

Lemma set_absent {V : Type} (k : string) (v : V) (m : JSMap.t V) :
  JSMap.get k m = None -> JSMap.set k v m = m ++ [(k, v)].
Proof.
  unfold JSMap.get. induction m as [|[k' v'] r IH]; simpl; [reflexivity|].
  destruct (String.eqb k k'); [discriminate|]. intros H. now rewrite IH.
Qed.

Lemma delete_oldest_tail (memo : Similarity.Memo) :
  Similarity.delete_oldest memo = tl memo.
Proof.
  destruct memo as [|[k v] r]; [reflexivity|].
  unfold Similarity.delete_oldest. simpl. now rewrite String.eqb_refl.
Qed.

Lemma get_tail_absent {V : Type} (k : string) (m : JSMap.t V) :
  JSMap.get k m = None -> JSMap.get k (tl m) = None.
Proof.
  unfold JSMap.get. destruct m as [|[k' v'] r]; simpl; [reflexivity|].
  destruct (String.eqb k k'); [discriminate|trivial].
Qed.

(** What one score computation does to the memo: nothing, or one
    insertion at the end, preceded by the eviction of the oldest entry
    exactly when the size is above [cacheSize] before the insertion. *)
Lemma calculate_memo_step (cfg : Similarity.Config) (a b : string)
  (memo : Similarity.Memo) :
  let memo' := snd (Similarity._calculate cfg a b memo) in
  let entry := (Similarity.cacheKey a b, Similarity._levenshteinSim a b) in
  memo' = memo \/
  (Z.of_nat (JSMap.size memo) <= Similarity.cacheSize cfg /\
   memo' = memo ++ [entry]) \/
  (Similarity.cacheSize cfg < Z.of_nat (JSMap.size memo) /\
   memo' = tl memo ++ [entry]).
Proof.
  unfold Similarity._calculate.
  destruct (String.eqb a b); [now left|].
  destruct (Similarity.is_empty a || Similarity.is_empty b); [now left|].
  destruct (Similarity.useCache cfg); [|now left].
  destruct (JSMap.get (Similarity.cacheKey a b) memo) eqn:Hget; [now left|].
  right. simpl.
  destruct (Similarity.cacheSize cfg <? Z.of_nat (JSMap.size memo)) eqn:Hsize.
  - right. apply Z.ltb_lt in Hsize. split; [exact Hsize|].
    rewrite delete_oldest_tail. apply set_absent. now apply get_tail_absent.
  - left. apply Z.ltb_ge in Hsize. split; [exact Hsize|]. now apply set_absent.
Qed.

(** The bound that the guard [size > cacheSize] gives: one more than
    [cacheSize]. *)
Lemma calculate_memo_bound (cfg : Similarity.Config) (a b : string)
  (memo : Similarity.Memo) :
  0 <= Similarity.cacheSize cfg ->
  Z.of_nat (JSMap.size memo) <= Similarity.cacheSize cfg + 1 ->
  Z.of_nat (JSMap.size (snd (Similarity._calculate cfg a b memo)))
  <= Similarity.cacheSize cfg + 1.
Proof.
  intros Hcap Hsize.
  destruct (calculate_memo_step cfg a b memo) as [->|[[H ->]|[H ->]]].
  - exact Hsize.
  - unfold JSMap.size in *. rewrite length_app. simpl. lia.
  - unfold JSMap.size in *. rewrite length_app. simpl.
    destruct memo as [|e r]; simpl in *; lia.
Qed.

(** C9 at a failing input: with the default configuration (capacity
    500) and an empty memo, one [findBestMatch] of the query "q" against
    a pool of 501 distinct candidates "x0" ... "x500" leaves 501 entries
    in the memo. *)
Lemma memo_exceeds_capacity :
  let pool := map (fun n => (("k" ++ JSON.number_to_string (Z.of_nat n))%string,
                             JStr ("x" ++ JSON.number_to_string (Z.of_nat n))))
                  (seq 0 501) in
  let memo := snd (Similarity.findBestMatch Similarity.default_config
                     (JStr "q") pool (8 # 10) []) in
  Similarity.cacheSize Similarity.default_config = 500 /\
  JSMap.size memo = 501%nat.
Proof. vm_compute. split; reflexivity. Qed.

(** A sequence of score computations, as [findBestMatch] or any other
    caller issues them. *)
Definition run_calculations (cfg : Similarity.Config)
  (pairs : list (string * string)) (memo : Similarity.Memo) : Similarity.Memo :=
  fold_left (fun m p => snd (Similarity._calculate cfg (fst p) (snd p) m)) pairs memo.

Lemma run_calculations_bound (cfg : Similarity.Config)
  (pairs : list (string * string)) :
  0 <= Similarity.cacheSize cfg ->
  Z.of_nat (JSMap.size (run_calculations cfg pairs []))
  <= Similarity.cacheSize cfg + 1.
Proof.
  intros Hcap. unfold run_calculations.
  assert (H : forall memo,
            Z.of_nat (JSMap.size memo) <= Similarity.cacheSize cfg + 1 ->
            Z.of_nat (JSMap.size
                        (fold_left
                           (fun m p => snd (Similarity._calculate cfg (fst p) (snd p) m))
                           pairs memo))
            <= Similarity.cacheSize cfg + 1).
  { induction pairs as [|p pairs IH]; intros memo Hm; simpl; [exact Hm|].
    apply IH. now apply calculate_memo_bound. }
  apply H. simpl. lia.
Qed.

(** The scores of a scan obey the formula, and the scan keeps the memo
    as [memo_ok] describes it. *)
Lemma scored_formula (cfg : Similarity.Config) (normalized : string)
  (entries : list (string * JValue)) :
  Similarity.normalizeText cfg = true -> clean normalized ->
  forall memo, memo_ok memo ->
  forall k v s, In (k, v, s) (scored cfg normalized entries memo) ->
  exists candidate,
    Similarity._normalize cfg v = Ok candidate /\
    (0 <= s <= 1)%Q /\
    (normalized = candidate -> s = 1%Q) /\
    (~ (normalized = EmptyString /\ candidate = EmptyString) ->
     (s == similarity_formula normalized candidate)%Q).
Proof.
  intros Hnorm Hn. induction entries as [|[k0 v0] rest IH];
    intros memo Hok k v s Hin; simpl in Hin; [contradiction|].
  destruct (Similarity._normalize cfg v0) as [candidate|] eqn:Hc; [|contradiction].
  assert (Hclean : clean candidate) by now apply (clean_normalize_value cfg v0).
  pose proof (calculate_spec cfg normalized candidate memo Hok Hn Hclean)
    as (H1 & _ & _ & Hmemo).
  pose proof (calculate_bounds cfg normalized candidate memo Hok Hn Hclean) as Hb.
  pose proof (calculate_formula cfg normalized candidate memo Hok Hn Hclean) as Hf.
  destruct (Similarity._calculate cfg normalized candidate memo) as [s0 memo1].
  simpl in *. destruct Hin as [[= <- <- <-]|Hin].
  - exists candidate. auto.
  - now apply (IH memo1 Hmemo k v s).
Qed.

Lemma match_loop_keeps_memo_ok (cfg : Similarity.Config) (normalized : string)
  (threshold : Q) (entries : list (string * JValue)) :
  Similarity.normalizeText cfg = true -> clean normalized ->
  forall best memo, memo_ok memo ->
  memo_ok (snd (Similarity.match_loop cfg normalized threshold entries best memo)).
Proof.
  intros Hnorm Hn. induction entries as [|[k v] rest IH];
    intros best memo Hok; simpl; [exact Hok|].
  destruct (Similarity._normalize cfg v) as [candidate|] eqn:Hc; [|exact Hok].
  assert (Hclean : clean candidate) by now apply (clean_normalize_value cfg v).
  pose proof (calculate_spec cfg normalized candidate memo Hok Hn Hclean)
    as (_ & _ & _ & Hmemo).
  destruct (Similarity._calculate cfg normalized candidate memo) as [s memo1].
  now apply IH.
Qed.

Lemma findBestMatch_keeps_memo_ok (cfg : Similarity.Config) (q : JValue)
  (pool : list (string * JValue)) (threshold : Q) (memo : Similarity.Memo) :
  Similarity.normalizeText cfg = true -> memo_ok memo ->
  memo_ok (snd (Similarity.findBestMatch cfg q pool threshold memo)).
Proof.
  intros Hnorm Hok. unfold Similarity.findBestMatch.
  destruct (negb (Similarity.enabled cfg) || negb (truthy q)); [exact Hok|].
  destruct (Similarity._normalize cfg q) as [normalized|] eqn:Hq; [|exact Hok].
  apply match_loop_keeps_memo_ok; auto.
  now apply (clean_normalize_value cfg q).
Qed.

(* ================================================================== *)
(** * [get] on an empty or null query *)
(* ================================================================== *)

Section FacadeGet.
Variable sv : Cache.Services.

Lemma build_pool_live (rest : list (string * Store.Entry)) :
  forall (done : list (string * Store.Entry)) (queries : list (string * JValue))
         (w : Cache.World),
  Cache.store w = done ++ rest ->
  JSMap.wf (Cache.store w) ->
  (forall i k e, nth_error rest i = Some (k, e) ->
     Cache.clock w (Cache.tick w + i) <= Store.expiresAt e) ->
  exists pool,
    Cache.build_pool sv (JSMap.keys rest) queries w
    = (Ok pool,
       Cache.mkWorld (Cache.clock w) (Cache.tick w + List.length rest)
         (Cache.store w) (Cache.memo w) (Cache.stats w)).
Proof.
  induction rest as [|[k0 e0] rest IH]; intros done queries w Hstore Hwf Hlive.
  - exists queries. simpl. rewrite Nat.add_0_r. now destruct w.
  - simpl. unfold Cache.bind at 1. rewrite store_get_run. unfold Store.get.
    assert (Hget : JSMap.get k0 (Cache.store w) = Some e0).
    { apply JSMap.in_get; [assumption|]. rewrite Hstore.
      apply in_or_app. right. now left. }
    rewrite Hget.
    pose proof (Hlive 0%nat k0 e0 eq_refl) as H0. rewrite Nat.add_0_r in H0.
    apply Z.ltb_ge in H0. rewrite H0. simpl.
    destruct (IH (done ++ [(k0, e0)]) (Cache.assign k0 JUndefined queries)
                (Cache.mkWorld (Cache.clock w) (S (Cache.tick w)) (Cache.store w)
                   (Cache.memo w) (Cache.stats w))) as [pool Hpool].
    + simpl. rewrite <- app_assoc. exact Hstore.
    + exact Hwf.
    + intros i k e Hnth. simpl.
      specialize (Hlive (S i) k e Hnth).
      now rewrite <- Nat.add_succ_comm in Hlive.
    + exists pool. unfold Cache.bind, Cache.lift, Cache.ret in *. simpl in *.
      rewrite Hpool. now rewrite <- Nat.add_succ_comm.
Qed.

(** [get] without a key on an empty or null query: [findBestMatch] stops
    on [!query] and [get] returns [null], provided the pool loop met no
    expired entry. *)
Lemma get_falsy_query_returns_null (q : JValue) (options : Cache.Options)
  (w : Cache.World) :
  Cache.enabled (Cache.config sv) = true ->
  (Cache.opt_key options = None \/ Cache.opt_key options = Some EmptyString) ->
  truthy q = false ->
  JSMap.wf (Cache.store w) ->
  (forall i k e, nth_error (Cache.store w) i = Some (k, e) ->
     Cache.clock w (Cache.tick w + i) <= Store.expiresAt e) ->
  fst (Cache.get sv q options w) = Ok JNull.
Proof.
  intros Hen Hkey Hq Hwf Hlive. unfold Cache.get. rewrite Hen. simpl.
  assert (Hnokey : match Cache.opt_key options with
                   | Some k0 => if Similarity.is_empty k0 then None else Some k0
                   | None => None
                   end = None).
  { destruct Hkey as [-> | ->]; reflexivity. }
  rewrite Hnokey.
  destruct (Cache.similarity_enabled (Cache.config sv)); [|reflexivity].
  unfold Cache.bind at 1. unfold Cache._findSimilar.
  unfold Cache.bind at 1. unfold Cache.on_store at 1. simpl.
  unfold Cache.bind at 1. unfold Store.getKeys.
  destruct (build_pool_live (Cache.store w) [] []
              (Cache.mkWorld (Cache.clock w) (Cache.tick w) (Cache.store w)
                 (Cache.memo w) (Cache.stats w)) eq_refl Hwf Hlive)
    as [pool Hpool].
  rewrite Hpool. unfold Cache.bind at 1. unfold Cache.find_best.
  unfold Similarity.findBestMatch. rewrite Hq. rewrite orb_true_r.
  reflexivity.
Qed.

End FacadeGet.

(* ================================================================== *)
(** * More on the store: writing, reading back, removing *)
(* ================================================================== *)

Lemma keys_set_present {V : Type} (k : string) (v : V) (m : JSMap.t V) :
  JSMap.has k m = true -> JSMap.keys (JSMap.set k v m) = JSMap.keys m.
Proof.
  unfold JSMap.has, JSMap.keys. induction m as [|[k' v'] r IH]; simpl; [discriminate|].
  destruct (String.eqb_spec k k') as [->|Hne]; simpl; [reflexivity|].
  intros H. now rewrite IH.
Qed.

Lemma keys_set_absent {V : Type} (k : string) (v : V) (m : JSMap.t V) :
  JSMap.has k m = false -> JSMap.keys (JSMap.set k v m) = JSMap.keys m ++ [k].
Proof.
  unfold JSMap.has, JSMap.keys. induction m as [|[k' v'] r IH]; simpl; [reflexivity|].
  destruct (String.eqb_spec k k') as [->|Hne]; simpl; [discriminate|].
  intros H. now rewrite IH.
Qed.

(** The integers that a double holds exactly and on which its arithmetic
    is exact: [Number.MAX_SAFE_INTEGER] and below in absolute value. *)
Definition safe_integer (n : Z) : Prop := Z.abs n <= 9007199254740991.

(** X1: [set] followed by [get] on the same key, for a time of writing, a
    time to live and a sum of the two within the safe integers: the entry
    written is read back, with [createdAt] the time of writing and
    [expiresAt] that time plus the time to live, at every instant up to
    [expiresAt] included, and the read changes nothing; after [expiresAt]
    the read answers [null].  With a negative time to live the entry is
    already gone at the instant of writing. *)
Theorem store_set_then_get
  (now later : Z) (key : string) (v : JValue) (ttl : Z) (s : Store.t) :
  safe_integer now -> safe_integer ttl -> safe_integer (now + ttl) ->
  let s1 := snd (Store.set now key v ttl s) in
  (later <= now + ttl ->
     Store.get later key s1 = (Some (Store.mkEntry v now (now + ttl)), s1)) /\
  (now + ttl < later -> fst (Store.get later key s1) = None) /\
  (ttl < 0 -> fst (Store.get now key s1) = None).
Proof.
  intros _ _ _ s1. unfold s1, Store.set, Store.get. simpl.
  rewrite JSMap.get_set_same. simpl. repeat split.
  - intros H. apply Z.ltb_ge in H. now rewrite H.
  - intros H. apply Z.ltb_lt in H. now rewrite H.
  - intros H. assert (Hlt : now + ttl < now) by lia.
    apply Z.ltb_lt in Hlt. now rewrite Hlt.
Qed.

Lemma store_set_then_get_witness :
  let s1 := snd (Store.set 1700000000000 "k" (JStr "v") 2592000000 []) in
  Store.get 1702592000000 "k" s1
  = (Some (Store.mkEntry (JStr "v") 1700000000000 1702592000000), s1) /\
  fst (Store.get 1702592000001 "k" s1) = None.
Proof.
  intros s1.
  destruct (store_set_then_get 1700000000000 1702592000000 "k" (JStr "v")
              2592000000 []) as (Hlive & _ & _);
    [unfold safe_integer; simpl; lia ..|].
  destruct (store_set_then_get 1700000000000 1702592000001 "k" (JStr "v")
              2592000000 []) as (_ & Hdead & _);
    [unfold safe_integer; simpl; lia ..|].
  split; [apply Hlive; lia|apply Hdead; lia].
Defined.

(** X2: [set] keeps one entry per key: writing a key that is present replaces
    its entry in place (the key list is unchanged), writing a new key
    appends it, and no other key is affected. *)
Theorem store_set_one_entry_per_key
  (now : Z) (key : string) (v : JValue) (ttl : Z) (s : Store.t) :
  JSMap.wf s ->
  let s1 := snd (Store.set now key v ttl s) in
  JSMap.wf s1 /\
  (forall k, k <> key -> JSMap.get k s1 = JSMap.get k s) /\
  Store.getKeys s1
  = (if JSMap.has key s then Store.getKeys s else Store.getKeys s ++ [key]).
Proof.
  intros Hwf s1. unfold s1, Store.set, Store.getKeys. simpl.
  split; [now apply JSMap.wf_set|]. split.
  - intros k Hk. apply JSMap.get_set_other. congruence.
  - destruct (JSMap.has key s) eqn:Hhas.
    + now apply keys_set_present.
    + now apply keys_set_absent.
Qed.

Lemma store_set_one_entry_per_key_witness :
  let s : Store.t := [("a", Store.mkEntry (JStr "x") 0 5);
                      ("b", Store.mkEntry (JStr "y") 0 50)] in
  Store.getKeys (snd (Store.set 7 "a" (JStr "z") 10 s)) = ["a"; "b"] /\
  Store.getKeys (snd (Store.set 7 "c" (JStr "z") 10 s)) = ["a"; "b"; "c"].
Proof.
  intros s.
  assert (Hwf : JSMap.wf s).
  { unfold s, JSMap.wf. simpl. repeat constructor; simpl; intuition discriminate. }
  split.
  - apply (proj2 (proj2 (store_set_one_entry_per_key 7 "a" (JStr "z") 10 s Hwf))).
  - apply (proj2 (proj2 (store_set_one_entry_per_key 7 "c" (JStr "z") 10 s Hwf))).
Defined.

Lemma has_get {V : Type} (k : string) (m : JSMap.t V) :
  JSMap.has k m = match JSMap.get k m with Some _ => true | None => false end.
Proof. reflexivity. Qed.

(** X3: [remove] answers whether the key was stored (expired or not), leaves
    the key absent and every other key as it was; removing an absent key
    changes nothing. *)
Theorem store_remove_only_that_key (key : string) (s : Store.t) :
  JSMap.wf s ->
  let s1 := snd (Store.remove key s) in
  (fst (Store.remove key s) = true <-> exists e, JSMap.get key s = Some e) /\
  JSMap.get key s1 = None /\
  (forall k, k <> key -> JSMap.get k s1 = JSMap.get k s) /\
  JSMap.wf s1 /\
  (fst (Store.remove key s) = false -> s1 = s).
Proof.
  intros Hwf s1. unfold s1, Store.remove. simpl. rewrite has_get.
  split; [|split; [|split; [|split]]].
  - destruct (JSMap.get key s) as [e|]; split; intros H;
      try discriminate; eauto. destruct H as [e H]. discriminate.
  - now apply JSMap.get_delete_same.
  - intros k Hk. apply JSMap.get_delete_other. congruence.
  - now apply JSMap.wf_delete.
  - destruct (JSMap.get key s) as [e|] eqn:Hget; [discriminate|].
    intros _. apply JSMap.delete_notin. now apply JSMap.get_none_notin.
Qed.

Lemma store_remove_only_that_key_witness :
  let s : Store.t := [("a", Store.mkEntry (JStr "x") 0 5);
                      ("b", Store.mkEntry (JStr "y") 0 50)] in
  JSMap.get "a" (snd (Store.remove "a" s)) = None /\
  JSMap.get "b" (snd (Store.remove "a" s)) = Some (Store.mkEntry (JStr "y") 0 50).
Proof.
  intros s.
  assert (Hwf : JSMap.wf s).
  { unfold s, JSMap.wf. simpl. repeat constructor; simpl; intuition discriminate. }
  destruct (store_remove_only_that_key "a" s Hwf) as (_ & Ha & Hother & _).
  split; [exact Ha|]. rewrite (Hother "b"); [reflexivity|discriminate].
Defined.

(** X4: A [get] touches the key it reads and nothing else: lazy deletion
    removes at most that one entry and never another key's. *)
Theorem store_get_touches_one_key (now : Z) (key : string) (s : Store.t) :
  let s1 := snd (Store.get now key s) in
  (forall k, k <> key -> JSMap.get k s1 = JSMap.get k s) /\
  (List.length (Store.getKeys s1) <= List.length (Store.getKeys s)
   <= S (List.length (Store.getKeys s1)))%nat /\
  (forall e, fst (Store.get now key s) = Some e -> s1 = s).
Proof.
  intros s1. unfold s1, Store.get, Store.getKeys, JSMap.keys.
  destruct (JSMap.get key s) as [item|] eqn:Hget; simpl.
  - destruct (Store.expiresAt item <? now); simpl.
    + split; [|split].
      * intros k Hk. apply JSMap.get_delete_other. congruence.
      * rewrite !length_map. clear Hget s1.
        induction s as [|[k' v'] r IH]; simpl; [lia|].
        destruct (String.eqb key k'); simpl; lia.
      * discriminate.
    + repeat split; auto; lia.
  - repeat split; auto; lia.
Qed.

(* ================================================================== *)
(** * More on the store: sweeping and restoring *)
(* ================================================================== *)

Lemma keep_live_twice (now earlier : Z) (s : Store.t) :
  earlier <= now ->
  Store.keep_live earlier (Store.keep_live now s) = Store.keep_live now s /\
  Store.count_expired earlier (Store.keep_live now s) = 0%nat.
Proof.
  intros Hle. unfold Store.keep_live, Store.count_expired, Store.live, Store.expired.
  induction s as [|[k e] r [IH1 IH2]]; simpl; [auto|].
  destruct (Store.expiresAt e <? now) eqn:H1; simpl; [auto|].
  assert (H2 : (Store.expiresAt e <? earlier) = false).
  { apply Z.ltb_ge. apply Z.ltb_ge in H1. lia. }
  rewrite H2. simpl. rewrite IH1. auto.
Qed.

Lemma live_expired_length (now : Z) (s : Store.t) :
  (List.length (Store.keep_live now s) + Store.count_expired now s
   = List.length s)%nat.
Proof.
  unfold Store.keep_live, Store.count_expired, Store.live.
  induction s as [|[k e] r IH]; simpl; [reflexivity|].
  destruct (Store.expired now e); simpl; lia.
Qed.

(** X5: [cleanup] in general: the number it returns is the number of entries
    it took out; exactly the entries with [expiresAt < now] are gone and
    the others (those expiring at [now] included) are kept as they were;
    keys stay unique; and sweeping again at the same or an earlier time
    removes nothing. *)
Theorem store_cleanup_sweeps_once (now : Z) (s : Store.t) :
  JSMap.wf s ->
  let removed := fst (Store.cleanup now s) in
  let s1 := snd (Store.cleanup now s) in
  0 <= removed /\
  Z.of_nat (List.length (Store.getKeys s))
  = Z.of_nat (List.length (Store.getKeys s1)) + removed /\
  (forall k e, JSMap.get k s1 = Some e <->
               JSMap.get k s = Some e /\ now <= Store.expiresAt e) /\
  JSMap.wf s1 /\
  (forall earlier, earlier <= now -> Store.cleanup earlier s1 = (0, s1)).
Proof.
  intros Hwf removed s1. unfold removed, s1.
  rewrite (Store.cleanup_spec now s Hwf). simpl.
  split; [lia|]. split; [|split; [|split]].
  - unfold Store.getKeys, JSMap.keys. rewrite !length_map.
    pose proof (live_expired_length now s). lia.
  - intros k e. rewrite Store.get_keep_live by assumption.
    destruct (JSMap.get k s) as [e0|]; [|split; [discriminate|intros [H _]; discriminate]].
    unfold Store.live, Store.expired.
    destruct (Store.expiresAt e0 <? now) eqn:Hexp; simpl.
    + apply Z.ltb_lt in Hexp. split; [discriminate|].
      intros [[= ->] Hle]. lia.
    + apply Z.ltb_ge in Hexp. split.
      * intros [= ->]. auto.
      * intros [[= ->] _]. reflexivity.
  - now apply Store.wf_keep_live.
  - intros earlier Hle.
    rewrite (Store.cleanup_spec earlier _ (Store.wf_keep_live now s Hwf)).
    destruct (keep_live_twice now earlier s Hle) as [-> ->]. reflexivity.
Qed.

Lemma store_cleanup_sweeps_once_witness :
  let s : Store.t :=
    [("a", Store.mkEntry (JStr "x") 0 5); ("b", Store.mkEntry (JStr "y") 0 10);
     ("c", Store.mkEntry (JStr "z") 1 70)] in
  Store.cleanup 10 (snd (Store.cleanup 10 s))
  = (0, [("b", Store.mkEntry (JStr "y") 0 10); ("c", Store.mkEntry (JStr "z") 1 70)]).
Proof.
  intros s.
  assert (Hwf : JSMap.wf s).
  { unfold s, JSMap.wf. simpl. repeat constructor; simpl; intuition discriminate. }
  destruct (store_cleanup_sweeps_once 10 s Hwf) as (_ & _ & _ & _ & Hidem).
  apply (Hidem 10). lia.
Defined.

(** X6: Readers do not see [cleanup]: a [get] at the time of the sweep answers
    the same with or without the sweep before it, and after the sweep it
    finds nothing left to delete. *)
Theorem store_get_after_cleanup (now : Z) (key : string) (s : Store.t) :
  JSMap.wf s ->
  let s1 := snd (Store.cleanup now s) in
  Store.get now key s1 = (fst (Store.get now key s), s1).
Proof.
  intros Hwf s1. unfold s1. rewrite (Store.cleanup_spec now s Hwf). simpl.
  unfold Store.get. rewrite Store.get_keep_live by assumption.
  destruct (JSMap.get key s) as [e|]; [|reflexivity].
  unfold Store.live, Store.expired.
  destruct (Store.expiresAt e <? now) eqn:Hexp; simpl; [reflexivity|].
  now rewrite Hexp.
Qed.

Lemma store_get_after_cleanup_witness :
  let s : Store.t :=
    [("a", Store.mkEntry (JStr "x") 0 5); ("b", Store.mkEntry (JStr "y") 0 50)] in
  fst (Store.get 10 "a" (snd (Store.cleanup 10 s))) = None /\
  fst (Store.get 10 "b" (snd (Store.cleanup 10 s)))
  = Some (Store.mkEntry (JStr "y") 0 50).
Proof.
  intros s.
  assert (Hwf : JSMap.wf s).
  { unfold s, JSMap.wf. simpl. repeat constructor; simpl; intuition discriminate. }
  rewrite (store_get_after_cleanup 10 "a" s Hwf).
  rewrite (store_get_after_cleanup 10 "b" s Hwf). split; reflexivity.
Defined.

Lemma load_entries_wf (now : Z) (entries : list (string * Store.Entry)) :
  forall s, JSMap.wf s -> JSMap.wf (Store.load_entries now entries s).
Proof.
  induction entries as [|[k e] r IH]; intros s Hwf; simpl; [exact Hwf|].
  destruct (now <? Store.expiresAt e); apply IH; [now apply JSMap.wf_set|exact Hwf].
Qed.

Lemma load_entries_fresh (now : Z) (entries : list (string * Store.Entry)) :
  forall s, NoDup (JSMap.keys s ++ JSMap.keys entries) ->
  Store.load_entries now entries s
  = s ++ filter (fun kv => now <? Store.expiresAt (snd kv)) entries.
Proof.
  induction entries as [|[k e] r IH]; intros s Hnd; simpl.
  - now rewrite app_nil_r.
  - assert (Hk : ~ In k (JSMap.keys s)).
    { simpl in Hnd. apply NoDup_remove_2 in Hnd. intros Hin. apply Hnd.
      apply in_or_app. now left. }
    assert (Hrest : NoDup (JSMap.keys s ++ JSMap.keys r)).
    { simpl in Hnd. now apply NoDup_remove_1 in Hnd. }
    destruct (now <? Store.expiresAt e).
    + rewrite set_absent by now apply JSMap.notin_get_none.
      rewrite IH.
      * now rewrite <- app_assoc.
      * unfold JSMap.keys in *. rewrite map_app, <- app_assoc. simpl.
        simpl in Hnd. exact Hnd.
    + now apply IH.
Qed.

(** X7: The restore loop of [_loadFromDisk] on a snapshot of well-formed
    items: it never leaves two entries under one key, whatever the
    snapshot repeats; from a snapshot with one item per key, as
    [_persistToDisk] writes it, it restores into the empty store exactly
    the items with [expiresAt > now], in their order; and each of them is
    then read back unchanged by [get] at that time.  An item expiring at
    [now] itself is dropped here, though [get] would still return it. *)
Theorem load_restores_unexpired (now : Z) (snapshot : list (string * Store.Entry)) :
  JSMap.wf snapshot ->
  let s1 := Store.load_entries now snapshot [] in
  (forall entries s, JSMap.wf s -> JSMap.wf (Store.load_entries now entries s)) /\
  s1 = filter (fun kv => now <? Store.expiresAt (snd kv)) snapshot /\
  (forall k e, JSMap.get k snapshot = Some e -> now < Store.expiresAt e ->
     Store.get now k s1 = (Some e, s1)) /\
  (forall k e, JSMap.get k snapshot = Some e -> Store.expiresAt e <= now ->
     JSMap.get k s1 = None).
Proof.
  intros Hwf s1.
  assert (Hs1 : s1 = filter (fun kv => now <? Store.expiresAt (snd kv)) snapshot).
  { unfold s1. now rewrite load_entries_fresh. }
  assert (Hget : forall k,
            JSMap.get k s1
            = match JSMap.get k snapshot with
              | Some e => if now <? Store.expiresAt e then Some e else None
              | None => None
              end).
  { intros k. rewrite Hs1. clear s1 Hs1.
    unfold JSMap.wf, JSMap.get, JSMap.keys in *.
    induction snapshot as [|[k' e'] r IH]; simpl; [reflexivity|].
    inversion Hwf as [|? ? Hnotin Hnd]; subst.
    destruct (String.eqb_spec k k') as [->|Hne].
    - destruct (now <? Store.expiresAt e'); simpl.
      + now rewrite String.eqb_refl.
      + apply JSMap.notin_get_none. intros Hin. apply Hnotin.
        unfold JSMap.keys in Hin. apply in_map_iff in Hin.
        destruct Hin as [kv [<- Hin]]. apply filter_In in Hin.
        apply in_map. tauto.
    - destruct (now <? Store.expiresAt e'); simpl.
      + destruct (String.eqb_spec k k'); [congruence|]. now apply IH.
      + now apply IH. }
  split; [intros entries s; apply load_entries_wf|].
  split; [exact Hs1|]. split.
  - intros k e Hk Hlt. unfold Store.get. rewrite Hget, Hk.
    assert ((now <? Store.expiresAt e) = true) as -> by (apply Z.ltb_lt; lia).
    assert ((Store.expiresAt e <? now) = false) as -> by (apply Z.ltb_ge; lia).
    reflexivity.
  - intros k e Hk Hle. rewrite Hget, Hk.
    assert ((now <? Store.expiresAt e) = false) as -> by (apply Z.ltb_ge; lia).
    reflexivity.
Qed.

Lemma load_restores_unexpired_witness :
  let snapshot : list (string * Store.Entry) :=
    [("a", Store.mkEntry (JStr "x") 0 5); ("b", Store.mkEntry (JStr "y") 0 10);
     ("c", Store.mkEntry (JStr "z") 1 70)] in
  Store.load_entries 10 snapshot [] = [("c", Store.mkEntry (JStr "z") 1 70)] /\
  fst (Store.get 10 "b" snapshot) = Some (Store.mkEntry (JStr "y") 0 10).
Proof.
  intros snapshot.
  assert (Hwf : JSMap.wf snapshot).
  { unfold snapshot, JSMap.wf. simpl. repeat constructor; simpl; intuition discriminate. }
  destruct (load_restores_unexpired 10 snapshot Hwf) as (_ & Hs1 & _).
  split; [rewrite Hs1; reflexivity|reflexivity].
Defined.

(* ================================================================== *)
(** * More on the distance computed by [_levenshteinSim] *)
(* ================================================================== *)

Lemma edit_zero (a b : list ascii) (n : nat) :
  edit a b n -> n = 0%nat -> a = b.
Proof.
  induction 1 as [|x a b n _ IH| | |]; intros Hn; try discriminate.
  - reflexivity.
  - now rewrite IH.
Qed.

Lemma levenshtein_zero (a b : list ascii) :
  levenshtein a b = 0%nat <-> a = b.
Proof.
  split.
  - intros H. apply (edit_zero a b _ (levenshtein_script a b) H).
  - intros ->. apply levenshtein_same.
Qed.

(** Edit scripts compose: the edits of one followed by the edits of the
    other, or fewer. *)
Lemma edit_trans (a b : list ascii) (n : nat) :
  edit a b n ->
  forall c m, edit b c m -> exists k, (k <= n + m)%nat /\ edit a c k.
Proof.
  induction 1 as [|x a b n _ IH|x y a b n _ IH|y a b n _ IH|x a b n _ IH].
  - intros c m H. exists m. split; [lia|exact H].
  - intros c m H. remember (x :: b) as b0 eqn:Eb. revert Eb.
    induction H as [|x' b' c n' H' _|x' y' b' c n' H' _|y' b' c n' H' IH'|x' b' c n' H' _];
      intros Eb; try discriminate.
    + injection Eb as -> ->. destruct (IH _ _ H') as (k & Hk & He).
      exists k. split; [lia|now constructor].
    + injection Eb as -> ->. destruct (IH _ _ H') as (k & Hk & He).
      exists (S k). split; [lia|now constructor].
    + destruct (IH' Eb) as (k & Hk & He).
      exists (S k). split; [lia|now constructor].
    + injection Eb as -> ->. destruct (IH _ _ H') as (k & Hk & He).
      exists (S k). split; [lia|now constructor].
  - intros c m H. remember (y :: b) as b0 eqn:Eb. revert Eb.
    induction H as [|x' b' c n' H' _|x' y' b' c n' H' _|y' b' c n' H' IH'|x' b' c n' H' _];
      intros Eb; try discriminate.
    + injection Eb as -> ->. destruct (IH _ _ H') as (k & Hk & He).
      exists (S k). split; [lia|now constructor].
    + injection Eb as -> ->. destruct (IH _ _ H') as (k & Hk & He).
      exists (S k). split; [lia|now constructor].
    + destruct (IH' Eb) as (k & Hk & He).
      exists (S k). split; [lia|now constructor].
    + injection Eb as -> ->. destruct (IH _ _ H') as (k & Hk & He).
      exists (S k). split; [lia|now constructor].
  - intros c m H. remember (y :: b) as b0 eqn:Eb. revert Eb.
    induction H as [|x' b' c n' H' _|x' y' b' c n' H' _|y' b' c n' H' IH'|x' b' c n' H' _];
      intros Eb; try discriminate.
    + injection Eb as -> ->. destruct (IH _ _ H') as (k & Hk & He).
      exists (S k). split; [lia|now constructor].
    + injection Eb as -> ->. destruct (IH _ _ H') as (k & Hk & He).
      exists (S k). split; [lia|now constructor].
    + destruct (IH' Eb) as (k & Hk & He).
      exists (S k). split; [lia|now constructor].
    + injection Eb as -> ->. destruct (IH _ _ H') as (k & Hk & He).
      exists k. split; [lia|exact He].
  - intros c m H. destruct (IH _ _ H) as (k & Hk & He).
    exists (S k). split; [lia|now constructor].
Qed.

Lemma levenshtein_triangle (a b c : list ascii) :
  (levenshtein a c <= levenshtein a b + levenshtein b c)%nat.
Proof.
  destruct (edit_trans a b _ (levenshtein_script a b) c _ (levenshtein_script b c))
    as (k & Hk & He).
  apply levenshtein_least in He. lia.
Qed.

(** X8: The number that [_levenshteinSim] reads at [matrix[a.length][b.length]]
    is always there (never a hole of the matrix), and it is the least
    number of single-character insertions, deletions and substitutions
    that turn [a] into [b]: some edit script has that many steps and none
    has fewer.  It is at most the length of the longer string. *)
Theorem distance_is_least_edit_count (a b : string) :
  exists d,
    Similarity.distance a b = Some d /\
    edit (list_ascii_of_string a) (list_ascii_of_string b) d /\
    (forall n, edit (list_ascii_of_string a) (list_ascii_of_string b) n ->
               (d <= n)%nat) /\
    (d <= Nat.max (String.length a) (String.length b))%nat.
Proof.
  exists (levenshtein (list_ascii_of_string a) (list_ascii_of_string b)).
  split; [apply distance_defined|]. split; [apply levenshtein_script|].
  split; [intros n; apply levenshtein_least|].
  rewrite <- !string_length_list. apply levenshtein_le_max.
Qed.

Lemma list_ascii_inj (a b : string) :
  list_ascii_of_string a = list_ascii_of_string b -> a = b.
Proof.
  intros H. rewrite <- (string_of_list_ascii_of_string a),
              <- (string_of_list_ascii_of_string b). now rewrite H.
Qed.

(** X9: The distance read from the matrix is a metric on strings: zero
    exactly between equal strings, the same in both directions, and
    never more than the sum of the distances through a third string. *)
Theorem distance_is_a_metric (a b c : string) :
  exists dab dba dbc dac,
    Similarity.distance a b = Some dab /\
    Similarity.distance b a = Some dba /\
    Similarity.distance b c = Some dbc /\
    Similarity.distance a c = Some dac /\
    (dab = 0%nat <-> a = b) /\
    dab = dba /\
    (dac <= dab + dbc)%nat.
Proof.
  do 4 eexists. rewrite !distance_defined.
  repeat (split; [reflexivity|]). split; [|split].
  - rewrite levenshtein_zero. split; [apply list_ascii_inj|now intros ->].
  - apply levenshtein_sym.
  - apply levenshtein_triangle.
Qed.

(* ================================================================== *)
(** * More on the scores: symmetry, the top score, the memo *)
(* ================================================================== *)

Lemma calculate_memo_independent (cfg : Similarity.Config) (a b : string)
  (memo1 memo2 : Similarity.Memo) :
  memo_ok memo1 -> memo_ok memo2 -> clean a -> clean b ->
  fst (Similarity._calculate cfg a b memo1)
  = fst (Similarity._calculate cfg a b memo2).
Proof.
  intros H1 H2 Ha Hb.
  destruct (calculate_spec cfg a b memo1 H1 Ha Hb) as (E1 & Z1 & F1 & _).
  destruct (calculate_spec cfg a b memo2 H2 Ha Hb) as (E2 & Z2 & F2 & _).
  destruct (string_dec a b) as [Heq|Hneq]; [now rewrite E1, E2|].
  destruct (string_dec a EmptyString) as [Hea|Hna]; [now rewrite Z1, Z2; auto|].
  destruct (string_dec b EmptyString) as [Heb|Hnb]; [now rewrite Z1, Z2; auto|].
  now rewrite F1, F2.
Qed.

Lemma similarity_formula_lt_one (a b : string) :
  a <> b -> (similarity_formula a b < 1)%Q.
Proof.
  intros Hne. unfold similarity_formula.
  apply one_minus_ratio_lt_one. split; [|apply distance_le_longer].
  destruct (levenshtein (list_ascii_of_string a) (list_ascii_of_string b)) eqn:Hd0;
    [|lia].
  exfalso. apply Hne. apply list_ascii_inj. now apply levenshtein_zero.
Qed.

Lemma calculate_lt_one (cfg : Similarity.Config) (a b : string)
  (memo : Similarity.Memo) :
  memo_ok memo -> clean a -> clean b -> a <> b ->
  (fst (Similarity._calculate cfg a b memo) < 1)%Q.
Proof.
  intros Hok Ha Hb Hne.
  destruct (calculate_spec cfg a b memo Hok Ha Hb) as (_ & Z0 & F & _).
  destruct (string_dec a EmptyString) as [Hea|Hna]; [rewrite Z0; auto; lra|].
  destruct (string_dec b EmptyString) as [Heb|Hnb]; [rewrite Z0; auto; lra|].
  rewrite F by assumption. now apply similarity_formula_lt_one.
Qed.

(** X10: The score does not depend on the order of the two strings nor on what
    the memo holds: for strings without ["|"] (as normalization leaves
    them) and memos filled by the matcher, [_calculate(a, b)] and
    [_calculate(b, a)] return the same number, whichever memo each runs
    on. *)
Theorem score_symmetric_whatever_the_memo
  (cfg : Similarity.Config) (a b : string) (memo1 memo2 : Similarity.Memo) :
  memo_ok memo1 -> memo_ok memo2 -> clean a -> clean b ->
  fst (Similarity._calculate cfg a b memo1)
  = fst (Similarity._calculate cfg b a memo2).
Proof.
  intros H1 H2 Ha Hb.
  destruct (calculate_spec cfg a b memo1 H1 Ha Hb) as (E1 & Z1 & F1 & _).
  destruct (calculate_spec cfg b a memo2 H2 Hb Ha) as (E2 & Z2 & F2 & _).
  destruct (string_dec a b) as [Heq|Hneq]; [now rewrite E1, E2|].
  assert (Hneq' : b <> a) by congruence.
  destruct (string_dec a EmptyString) as [Hea|Hna]; [now rewrite Z1, Z2; auto|].
  destruct (string_dec b EmptyString) as [Heb|Hnb]; [now rewrite Z1, Z2; auto|].
  rewrite F1, F2 by assumption. apply similarity_formula_sym.
Qed.

Lemma score_symmetric_whatever_the_memo_witness :
  fst (Similarity._calculate Similarity.default_config "kitten" "sitting" [])
  = fst (Similarity._calculate Similarity.default_config "sitting" "kitten"
           (snd (Similarity._calculate Similarity.default_config "kitten" "mitten" []))).
Proof.
  apply score_symmetric_whatever_the_memo; try reflexivity.
  - apply memo_ok_initial.
  - apply (calculate_spec Similarity.default_config "kitten" "mitten" []
             memo_ok_initial eq_refl eq_refl).
Defined.

(** X11: Only identical strings reach the top score: under the same
    conditions the score is 1 when the two strings are equal and strictly
    below 1 otherwise. *)
Theorem score_one_only_for_equal_text
  (cfg : Similarity.Config) (a b : string) (memo : Similarity.Memo) :
  memo_ok memo -> clean a -> clean b ->
  ((fst (Similarity._calculate cfg a b memo) == 1)%Q <-> a = b) /\
  (a <> b -> (fst (Similarity._calculate cfg a b memo) < 1)%Q).
Proof.
  intros Hok Ha Hb. split; [split|].
  - intros Hs. destruct (string_dec a b) as [|Hne]; [assumption|].
    pose proof (calculate_lt_one cfg a b memo Hok Ha Hb Hne). lra.
  - intros ->. rewrite calculate_same. reflexivity.
  - now apply calculate_lt_one.
Qed.

Lemma score_one_only_for_equal_text_witness :
  (fst (Similarity._calculate Similarity.default_config "hello world" "hello word" [])
   < 1)%Q.
Proof.
  apply (score_one_only_for_equal_text Similarity.default_config
           "hello world" "hello word" [] memo_ok_initial eq_refl eq_refl).
  discriminate.
Defined.

Lemma match_loop_memo_independent (cfg : Similarity.Config) (normalized : string)
  (threshold : Q) (entries : list (string * JValue)) :
  Similarity.normalizeText cfg = true -> clean normalized ->
  forall best memo1 memo2, memo_ok memo1 -> memo_ok memo2 ->
  fst (Similarity.match_loop cfg normalized threshold entries best memo1)
  = fst (Similarity.match_loop cfg normalized threshold entries best memo2).
Proof.
  intros Hnorm Hn. induction entries as [|[k v] rest IH];
    intros best memo1 memo2 H1 H2; simpl; [reflexivity|].
  destruct (Similarity._normalize cfg v) as [candidate|] eqn:Hc; [|reflexivity].
  assert (Hclean : clean candidate) by now apply (clean_normalize_value cfg v).
  pose proof (calculate_memo_independent cfg normalized candidate memo1 memo2
                H1 H2 Hn Hclean) as Hsame.
  pose proof (calculate_spec cfg normalized candidate memo1 H1 Hn Hclean)
    as (_ & _ & _ & Hm1).
  pose proof (calculate_spec cfg normalized candidate memo2 H2 Hn Hclean)
    as (_ & _ & _ & Hm2).
  destruct (Similarity._calculate cfg normalized candidate memo1) as [s1 m1].
  destruct (Similarity._calculate cfg normalized candidate memo2) as [s2 m2].
  simpl in *. subst s2. now apply IH.
Qed.

(** X12: The memo is an optimisation only: with text normalization on, what
    [findBestMatch] returns (the match, [null], or the exception) is the
    same on every memo filled by the matcher, the empty one included. *)
Theorem findBestMatch_ignores_memo
  (cfg : Similarity.Config) (q : JValue) (pool : list (string * JValue))
  (threshold : Q) (memo1 memo2 : Similarity.Memo) :
  Similarity.normalizeText cfg = true ->
  memo_ok memo1 -> memo_ok memo2 ->
  fst (Similarity.findBestMatch cfg q pool threshold memo1)
  = fst (Similarity.findBestMatch cfg q pool threshold memo2).
Proof.
  intros Hnorm H1 H2. unfold Similarity.findBestMatch.
  destruct (negb (Similarity.enabled cfg) || negb (truthy q)); [reflexivity|].
  destruct (Similarity._normalize cfg q) as [normalized|] eqn:Hq; [|reflexivity].
  apply match_loop_memo_independent; auto.
  now apply (clean_normalize_value cfg q).
Qed.

Lemma findBestMatch_ignores_memo_witness :
  let pool := [("a", JStr "kitten"); ("b", JStr "sitting!")] in
  let memo := snd (Similarity.findBestMatch Similarity.default_config
                     (JStr "Sitting") pool (1 # 2) []) in
  fst (Similarity.findBestMatch Similarity.default_config (JStr "mitten") pool (1 # 2) memo)
  = fst (Similarity.findBestMatch Similarity.default_config (JStr "mitten") pool (1 # 2) []).
Proof.
  intros pool memo.
  apply findBestMatch_ignores_memo; [reflexivity| |apply memo_ok_initial].
  apply findBestMatch_keeps_memo_ok; [reflexivity|apply memo_ok_initial].
Defined.

(* ================================================================== *)
(** * An exact duplicate in the pool *)
(* ================================================================== *)

Definition normalizable (cfg : Similarity.Config) (kv : string * JValue) : Prop :=
  exists candidate, Similarity._normalize cfg (snd kv) = Ok candidate.

Definition differs_from (cfg : Similarity.Config) (normalized : string)
  (kv : string * JValue) : Prop :=
  exists candidate,
    Similarity._normalize cfg (snd kv) = Ok candidate /\ candidate <> normalized.

Lemma match_loop_after_top (cfg : Similarity.Config) (normalized : string)
  (threshold : Q) (m : Similarity.Match) (entries : list (string * JValue)) :
  Similarity.normalizeText cfg = true -> clean normalized ->
  (1 <= Similarity.score m)%Q ->
  Forall (normalizable cfg) entries ->
  forall memo, memo_ok memo ->
  fst (Similarity.match_loop cfg normalized threshold entries (Some m) memo)
  = Ok (Some m).
Proof.
  intros Hnorm Hn Htop. induction 1 as [|[k v] rest [candidate Hc] _ IH];
    intros memo Hok; simpl; [reflexivity|].
  simpl in Hc. rewrite Hc.
  assert (Hclean : clean candidate) by now apply (clean_normalize_value cfg v).
  pose proof (calculate_bounds cfg normalized candidate memo Hok Hn Hclean) as [_ Hle].
  pose proof (calculate_spec cfg normalized candidate memo Hok Hn Hclean)
    as (_ & _ & _ & Hmemo).
  destruct (Similarity._calculate cfg normalized candidate memo) as [s memo1].
  simpl in *.
  assert (Himp : Similarity.improves threshold (Some m) s = false).
  { unfold Similarity.improves. apply andb_false_iff. right.
    apply Qgtb_false. lra. }
  rewrite Himp. now apply IH.
Qed.

Lemma match_loop_up_to_duplicate (cfg : Similarity.Config) (normalized : string)
  (threshold : Q) (k : string) (v : JValue) (post : list (string * JValue))
  (pre : list (string * JValue)) :
  Similarity.normalizeText cfg = true -> clean normalized ->
  (threshold < 1)%Q ->
  Similarity._normalize cfg v = Ok normalized ->
  Forall (normalizable cfg) post ->
  Forall (differs_from cfg normalized) pre ->
  forall best memo, memo_ok memo ->
  (forall m, best = Some m -> (Similarity.score m < 1)%Q) ->
  fst (Similarity.match_loop cfg normalized threshold (pre ++ (k, v) :: post) best memo)
  = Ok (Some (Similarity.mkMatch k v 1)).
Proof.
  intros Hnorm Hn Ht Hv Hpost.
  induction 1 as [|[k0 v0] rest (candidate & Hc & Hdiff) _ IH];
    intros best memo Hok Hbest; simpl.
  - rewrite Hv, calculate_same.
    assert (Himp : Similarity.improves threshold best 1 = true).
    { unfold Similarity.improves. apply andb_true_iff. split.
      - now apply Qgtb_true.
      - destruct best as [m|]; [|reflexivity]. apply Qgtb_true. now apply Hbest. }
    rewrite Himp. apply match_loop_after_top; auto. simpl. lra.
  - simpl in Hc. rewrite Hc.
    assert (Hclean : clean candidate) by now apply (clean_normalize_value cfg v0).
    assert (Hne : normalized <> candidate) by congruence.
    pose proof (calculate_lt_one cfg normalized candidate memo Hok Hn Hclean Hne) as Hlt.
    pose proof (calculate_spec cfg normalized candidate memo Hok Hn Hclean)
      as (_ & _ & _ & Hmemo).
    destruct (Similarity._calculate cfg normalized candidate memo) as [s memo1].
    simpl in *. apply IH; [exact Hmemo|].
    intros m. destruct (Similarity.improves threshold best s).
    + intros [= <-]. exact Hlt.
    + apply Hbest.
Qed.

(** X13: A stored text that normalizes to the same string as the query is
    always found: with the service and text normalization on and a
    threshold below 1, if the pool holds a candidate whose normalized
    text equals the normalized query, every candidate before it
    normalizes to something else and every candidate can be normalized,
    then [findBestMatch] returns that candidate with score 1, whatever
    the others score and whatever the memo holds. *)
Theorem findBestMatch_finds_exact_duplicate
  (cfg : Similarity.Config) (text : string) (k : string) (v : JValue)
  (pre post : list (string * JValue)) (threshold : Q) (memo : Similarity.Memo) :
  Similarity.enabled cfg = true ->
  Similarity.normalizeText cfg = true ->
  memo_ok memo ->
  (threshold < 1)%Q ->
  text <> EmptyString ->
  Similarity._normalize cfg v = Ok (Similarity.normalize_string cfg text) ->
  Forall (differs_from cfg (Similarity.normalize_string cfg text)) pre ->
  Forall (normalizable cfg) post ->
  fst (Similarity.findBestMatch cfg (JStr text) (pre ++ (k, v) :: post) threshold memo)
  = Ok (Some (Similarity.mkMatch k v 1)).
Proof.
  intros Hen Hnorm Hok Ht Htext Hv Hpre Hpost. unfold Similarity.findBestMatch.
  assert (Htruthy : truthy (JStr text) = true).
  { simpl. destruct text; [congruence|reflexivity]. }
  rewrite Hen, Htruthy. simpl negb. simpl orb.
  unfold Similarity._normalize. rewrite Htruthy. simpl negb. cbv iota.
  apply match_loop_up_to_duplicate; auto.
  - now apply clean_normalize.
  - discriminate.
Qed.

Lemma findBestMatch_finds_exact_duplicate_witness :
  fst (Similarity.findBestMatch Similarity.default_config (JStr "What is  a CACHE?")
         [("k1", JStr "what is a cash"); ("k2", JStr "what is a cache");
          ("k3", JStr "What is a cache!"); ("k4", JNull)] (8 # 10) [])
  = Ok (Some (Similarity.mkMatch "k2" (JStr "what is a cache") 1)).
Proof.
  apply (findBestMatch_finds_exact_duplicate Similarity.default_config
           "What is  a CACHE?" "k2" (JStr "what is a cache")
           [("k1", JStr "what is a cash")]
           [("k3", JStr "What is a cache!"); ("k4", JNull)] (8 # 10) []).
  - reflexivity.
  - reflexivity.
  - apply memo_ok_initial.
  - reflexivity.
  - discriminate.
  - reflexivity.
  - repeat constructor. eexists. split; [reflexivity|discriminate].
  - repeat constructor; eexists; reflexivity.
Defined.

(* ================================================================== *)
(** * Normalized text is in normal form *)
(* ================================================================== *)

Fixpoint all_chars (f : ascii -> bool) (s : string) : bool :=
  match s with
  | EmptyString => true
  | String c r => f c && all_chars f r
  end.

(** No white space but single [" "]s; [in_run] as in [collapse_spaces]. *)
Fixpoint single_spaced (in_run : bool) (s : string) : bool :=
  match s with
  | EmptyString => true
  | String c r =>
      if JSString.is_space c
      then Ascii.eqb c " " && negb in_run && single_spaced true r
      else single_spaced false r
  end.

Definition starts_with_text (s : string) : bool :=
  match s with
  | EmptyString => true
  | String c _ => negb (JSString.is_space c)
  end.

Definition kept (c : ascii) : bool := JSString.is_word c || JSString.is_space c.

Definition lowered (c : ascii) : bool := Ascii.eqb (JSString.lower_char c) c.

Lemma lower_char_lowered (c : ascii) : lowered (JSString.lower_char c) = true.
Proof. destruct c as [[] [] [] [] [] [] [] []]; reflexivity. Qed.

Lemma all_chars_trimStart (f : ascii -> bool) (s : string) :
  all_chars f s = true -> all_chars f (JSString.trimStart s) = true.
Proof.
  induction s as [|c r IH]; simpl; [trivial|].
  intros H. apply andb_true_iff in H as [Hc Hr].
  destruct (JSString.is_space c); [auto|]. simpl. now rewrite Hc, Hr.
Qed.

Lemma all_chars_trimEnd (f : ascii -> bool) (s : string) :
  all_chars f s = true -> all_chars f (JSString.trimEnd s) = true.
Proof.
  induction s as [|c r IH]; simpl; [trivial|].
  intros H. apply andb_true_iff in H as [Hc Hr]. specialize (IH Hr).
  destruct (JSString.trimEnd r) as [|c' r'].
  - destruct (JSString.is_space c); simpl; [reflexivity|now rewrite Hc].
  - change (f c && all_chars f (String c' r') = true). now rewrite Hc, IH.
Qed.

Lemma all_chars_collapse (f : ascii -> bool) (s : string) :
  f " "%char = true ->
  forall in_run, all_chars f s = true ->
  all_chars f (JSString.collapse_spaces in_run s) = true.
Proof.
  intros Hsp. induction s as [|c r IH]; intros in_run; simpl; [trivial|].
  intros H. apply andb_true_iff in H as [Hc Hr].
  destruct (JSString.is_space c).
  - destruct in_run; simpl; [auto|]. rewrite Hsp. simpl. auto.
  - simpl. rewrite Hc. simpl. auto.
Qed.

Lemma all_chars_strip (f : ascii -> bool) (s : string) :
  all_chars f s = true -> all_chars f (JSString.strip_non_word s) = true.
Proof.
  induction s as [|c r IH]; simpl; [trivial|].
  intros H. apply andb_true_iff in H as [Hc Hr].
  destruct (JSString.is_word c || JSString.is_space c); simpl; [|auto].
  rewrite Hc. simpl. auto.
Qed.

Lemma strip_kept (s : string) : all_chars kept (JSString.strip_non_word s) = true.
Proof.
  induction s as [|c r IH]; simpl; [reflexivity|].
  destruct (JSString.is_word c || JSString.is_space c) eqn:Hc; [|exact IH].
  simpl. unfold kept at 1. now rewrite Hc.
Qed.

Lemma toLowerCase_lowered (s : string) :
  all_chars lowered (JSString.toLowerCase s) = true.
Proof.
  induction s as [|c r IH]; simpl; [reflexivity|].
  now rewrite lower_char_lowered, IH.
Qed.

Lemma strip_fixed (s : string) :
  all_chars kept s = true -> JSString.strip_non_word s = s.
Proof.
  induction s as [|c r IH]; simpl; [trivial|].
  intros H. apply andb_true_iff in H as [Hc Hr]. unfold kept in Hc.
  rewrite Hc. now rewrite IH.
Qed.

Lemma toLowerCase_fixed (s : string) :
  all_chars lowered s = true -> JSString.toLowerCase s = s.
Proof.
  induction s as [|c r IH]; simpl; [trivial|].
  intros H. apply andb_true_iff in H as [Hc Hr]. unfold lowered in Hc.
  apply Ascii.eqb_eq in Hc. now rewrite Hc, IH.
Qed.

Lemma collapse_single_spaced (s : string) :
  forall in_run, single_spaced in_run (JSString.collapse_spaces in_run s) = true.
Proof.
  induction s as [|c r IH]; intros in_run; simpl; [reflexivity|].
  destruct (JSString.is_space c) eqn:Hc.
  - destruct in_run; [apply IH|]. simpl. apply IH.
  - simpl. rewrite Hc. apply IH.
Qed.

Lemma collapse_fixed (s : string) :
  forall in_run, single_spaced in_run s = true ->
  JSString.collapse_spaces in_run s = s.
Proof.
  induction s as [|c r IH]; intros in_run; simpl; [trivial|].
  destruct (JSString.is_space c).
  - intros H. apply andb_true_iff in H as [H Hr].
    apply andb_true_iff in H as [Hc Hrun].
    apply Ascii.eqb_eq in Hc. subst c.
    destruct in_run; [discriminate|]. now rewrite IH.
  - intros H. now rewrite IH.
Qed.

Lemma single_spaced_trimStart (s : string) :
  forall in_run, single_spaced in_run s = true ->
  single_spaced false (JSString.trimStart s) = true.
Proof.
  induction s as [|c r IH]; intros in_run; simpl; [trivial|].
  destruct (JSString.is_space c) eqn:Hc.
  - intros H. apply andb_true_iff in H as [_ Hr]. now apply (IH true).
  - intros H. simpl. now rewrite Hc.
Qed.

Lemma single_spaced_trimEnd (s : string) :
  forall in_run, single_spaced in_run s = true ->
  single_spaced in_run (JSString.trimEnd s) = true.
Proof.
  induction s as [|c r IH]; intros in_run; simpl; [trivial|].
  destruct (JSString.is_space c) eqn:Hc.
  - intros H. apply andb_true_iff in H as [H Hr]. specialize (IH true Hr).
    destruct (JSString.trimEnd r) as [|c' r']; [reflexivity|].
    change (single_spaced in_run (String c (String c' r')) = true).
    simpl single_spaced at 1. rewrite Hc. now rewrite H.
  - intros H. specialize (IH false H).
    destruct (JSString.trimEnd r) as [|c' r'].
    + simpl. now rewrite Hc.
    + change (single_spaced in_run (String c (String c' r')) = true).
      simpl single_spaced at 1. now rewrite Hc.
Qed.

Lemma trimStart_starts_with_text (s : string) :
  starts_with_text (JSString.trimStart s) = true.
Proof.
  induction s as [|c r IH]; simpl; [reflexivity|].
  destruct (JSString.is_space c) eqn:Hc; [exact IH|]. simpl. now rewrite Hc.
Qed.

Lemma trimStart_fixed (s : string) :
  starts_with_text s = true -> JSString.trimStart s = s.
Proof.
  destruct s as [|c r]; simpl; [trivial|].
  now destruct (JSString.is_space c).
Qed.

Lemma trimEnd_starts_with_text (s : string) :
  starts_with_text s = true -> starts_with_text (JSString.trimEnd s) = true.
Proof.
  destruct s as [|c r]; simpl; [trivial|].
  intros Hc. destruct (JSString.trimEnd r).
  - destruct (JSString.is_space c) eqn:Hsp; [discriminate|]. simpl.
    now rewrite Hsp.
  - exact Hc.
Qed.

Lemma trimEnd_idempotent (s : string) :
  JSString.trimEnd (JSString.trimEnd s) = JSString.trimEnd s.
Proof.
  induction s as [|c r IH]; simpl; [reflexivity|].
  destruct (JSString.trimEnd r) as [|c' r'] eqn:Hr.
  - destruct (JSString.is_space c) eqn:Hc; [reflexivity|].
    simpl. now rewrite Hc.
  - change (JSString.trimEnd (String c (String c' r')) = String c (String c' r')).
    simpl JSString.trimEnd at 1.
    change (match JSString.trimEnd (String c' r') with
            | EmptyString =>
                if JSString.is_space c then EmptyString else String c EmptyString
            | String a0 s0 => String c (String a0 s0)
            end = String c (String c' r')).
    now rewrite IH.
Qed.

Lemma trim_idempotent (s : string) :
  JSString.trim (JSString.trim s) = JSString.trim s.
Proof.
  unfold JSString.trim.
  rewrite (trimStart_fixed (JSString.trimEnd (JSString.trimStart s))).
  - apply trimEnd_idempotent.
  - apply trimEnd_starts_with_text, trimStart_starts_with_text.
Qed.

Lemma normal_form (lower : bool) (s : string) :
  let out := if lower then JSString.toLowerCase s else s in
  let y := JSString.trim (JSString.collapse_spaces false (JSString.strip_non_word out)) in
  (if lower then JSString.toLowerCase y else y) = y /\
  JSString.strip_non_word y = y /\
  JSString.collapse_spaces false y = y /\
  JSString.trim y = y.
Proof.
  intros out y. split; [|split; [|split]].
  - destruct lower; [|reflexivity]. apply toLowerCase_fixed.
    unfold y, JSString.trim.
    apply all_chars_trimEnd, all_chars_trimStart, all_chars_collapse;
      [reflexivity|].
    apply all_chars_strip, toLowerCase_lowered.
  - apply strip_fixed. unfold y, JSString.trim.
    apply all_chars_trimEnd, all_chars_trimStart, all_chars_collapse;
      [reflexivity|].
    apply strip_kept.
  - apply collapse_fixed. unfold y, JSString.trim.
    apply single_spaced_trimEnd, (single_spaced_trimStart _ false),
      collapse_single_spaced.
  - apply trim_idempotent.
Qed.

(** X14: [_normalize] is idempotent, whatever the configuration: normalizing
    a normalized text changes nothing, so a text and its normalized form
    are the same candidate and the same query to the matcher. *)
Theorem normalize_is_idempotent (cfg : Similarity.Config) :
  (forall s,
     Similarity.normalize_string cfg (Similarity.normalize_string cfg s)
     = Similarity.normalize_string cfg s) /\
  (forall v s,
     Similarity._normalize cfg v = Ok s ->
     Similarity._normalize cfg (JStr s) = Ok s).
Proof.
  assert (Hidem : forall s,
            Similarity.normalize_string cfg (Similarity.normalize_string cfg s)
            = Similarity.normalize_string cfg s).
  { intros s. unfold Similarity.normalize_string.
    destruct (Similarity.normalizeText cfg).
    - destruct (normal_form (Similarity.ignoreCase cfg) s) as (Hl & Hs & Hc & Ht).
      cbv zeta in Hl, Hs, Hc, Ht. rewrite Hl, Hs, Hc. exact Ht.
    - destruct (Similarity.ignoreCase cfg); [|reflexivity].
      apply toLowerCase_fixed, toLowerCase_lowered. }
  split; [exact Hidem|].
  intros v s Hv.
  assert (Hs : s = EmptyString \/ exists t, s = Similarity.normalize_string cfg t).
  { unfold Similarity._normalize in Hv. destruct (negb (truthy v)).
    - left. congruence.
    - destruct v; try discriminate. right. eexists. injection Hv as <-. reflexivity. }
  unfold Similarity._normalize.
  destruct s as [|c r]; [reflexivity|]. simpl truthy. simpl negb. cbv iota.
  destruct Hs as [Hs|[t Hs]]; [discriminate|].
  rewrite Hs at 1. rewrite Hidem. now rewrite <- Hs.
Qed.

(* ================================================================== *)
(** * [findBestMatch]: when it returns, and what it leaves in the memo *)
(* ================================================================== *)

Lemma normalize_text (cfg : Similarity.Config) (v : JValue) :
  is_text v = true -> exists s, Similarity._normalize cfg v = Ok s.
Proof.
  unfold is_text, Similarity._normalize. intros H.
  destruct v; try (rewrite H; eauto).
  destruct (negb (truthy (JStr s))); eauto.
Qed.

Lemma match_loop_returns (cfg : Similarity.Config) (normalized : string)
  (threshold : Q) (entries : list (string * JValue)) :
  Forall (fun kv => is_text (snd kv) = true) entries ->
  forall best memo,
  exists r, fst (Similarity.match_loop cfg normalized threshold entries best memo) = Ok r.
Proof.
  induction 1 as [|[k v] rest Hv _ IH]; intros best memo; simpl; [eauto|].
  destruct (normalize_text cfg v Hv) as [candidate ->].
  destruct (Similarity._calculate cfg normalized candidate memo) as [s memo1].
  apply IH.
Qed.

(** X15: [findBestMatch] returns normally (a match or [null]) whenever the
    query and every value of the pool is a string or falsy: neither the
    normalization nor the scoring raises on such input, whatever the
    configuration, the threshold and the memo. *)
Theorem findBestMatch_returns_on_text
  (cfg : Similarity.Config) (q : JValue) (pool : list (string * JValue))
  (threshold : Q) (memo : Similarity.Memo) :
  is_text q = true ->
  Forall (fun kv => is_text (snd kv) = true) pool ->
  exists r, fst (Similarity.findBestMatch cfg q pool threshold memo) = Ok r.
Proof.
  intros Hq Hpool. unfold Similarity.findBestMatch.
  destruct (negb (Similarity.enabled cfg) || negb (truthy q)); [simpl; eauto|].
  destruct (normalize_text cfg q Hq) as [normalized ->].
  now apply match_loop_returns.
Qed.

Lemma findBestMatch_returns_on_text_witness :
  exists r,
    fst (Similarity.findBestMatch Similarity.default_config (JStr "hello")
           [("a", JUndefined); ("b", JStr "Hello!"); ("c", JNum 0)] (8 # 10) [])
    = Ok r.
Proof.
  apply findBestMatch_returns_on_text; [reflexivity|].
  repeat constructor.
Defined.

Lemma calculate_memo_wf (cfg : Similarity.Config) (a b : string)
  (memo : Similarity.Memo) :
  JSMap.wf memo -> JSMap.wf (snd (Similarity._calculate cfg a b memo)).
Proof.
  intros Hwf. unfold Similarity._calculate.
  destruct (String.eqb a b); [exact Hwf|].
  destruct (Similarity.is_empty a || Similarity.is_empty b); [exact Hwf|].
  destruct (Similarity.useCache cfg); [|exact Hwf].
  destruct (JSMap.get (Similarity.cacheKey a b) memo); [exact Hwf|].
  simpl. apply JSMap.wf_set.
  destruct (Similarity.cacheSize cfg <? Z.of_nat (JSMap.size memo)); [|exact Hwf].
  unfold Similarity.delete_oldest. destruct memo as [|[k v] r]; [exact Hwf|].
  now apply JSMap.wf_delete.
Qed.

Lemma calculate_memo_unused (cfg : Similarity.Config) (a b : string)
  (memo : Similarity.Memo) :
  Similarity.useCache cfg = false ->
  snd (Similarity._calculate cfg a b memo) = memo.
Proof.
  intros Hoff. unfold Similarity._calculate. rewrite Hoff.
  destruct (String.eqb a b); [reflexivity|].
  now destruct (Similarity.is_empty a || Similarity.is_empty b).
Qed.

Lemma match_loop_memo_bounded (cfg : Similarity.Config) (normalized : string)
  (threshold : Q) (entries : list (string * JValue)) :
  0 <= Similarity.cacheSize cfg ->
  forall best memo,
  JSMap.wf memo ->
  Z.of_nat (JSMap.size memo) <= Similarity.cacheSize cfg + 1 ->
  let memo' := snd (Similarity.match_loop cfg normalized threshold entries best memo) in
  JSMap.wf memo' /\
  Z.of_nat (JSMap.size memo') <= Similarity.cacheSize cfg + 1 /\
  (Similarity.useCache cfg = false -> memo' = memo).
Proof.
  intros Hcap. induction entries as [|[k v] rest IH];
    intros best memo Hwf Hsize; simpl; [auto|].
  destruct (Similarity._normalize cfg v) as [candidate|]; [|simpl; auto].
  pose proof (calculate_memo_wf cfg normalized candidate memo Hwf) as Hwf1.
  pose proof (calculate_memo_bound cfg normalized candidate memo Hcap Hsize) as Hb1.
  pose proof (calculate_memo_unused cfg normalized candidate memo) as Hu1.
  destruct (Similarity._calculate cfg normalized candidate memo) as [s memo1].
  simpl in *.
  destruct (IH (if Similarity.improves threshold best s
                then Some (Similarity.mkMatch k v s) else best) memo1 Hwf1 Hb1)
    as (Hw & Hs & Hu).
  repeat split; auto. intros Hoff. rewrite (Hu Hoff). now apply Hu1.
Qed.

(** X16: The memo after [findBestMatch], whether it returned or raised: it
    still has one entry per key and at most [cacheSize + 1] entries (the
    eviction guard is [size > cacheSize]) if it had so before, whatever
    the size of the pool; with [useCache] off it is untouched. *)
Theorem findBestMatch_memo_bounded
  (cfg : Similarity.Config) (q : JValue) (pool : list (string * JValue))
  (threshold : Q) (memo : Similarity.Memo) :
  0 <= Similarity.cacheSize cfg ->
  JSMap.wf memo ->
  Z.of_nat (JSMap.size memo) <= Similarity.cacheSize cfg + 1 ->
  let memo' := snd (Similarity.findBestMatch cfg q pool threshold memo) in
  JSMap.wf memo' /\
  Z.of_nat (JSMap.size memo') <= Similarity.cacheSize cfg + 1 /\
  (Similarity.useCache cfg = false -> memo' = memo).
Proof.
  intros Hcap Hwf Hsize. unfold Similarity.findBestMatch.
  destruct (negb (Similarity.enabled cfg) || negb (truthy q)); [simpl; auto|].
  destruct (Similarity._normalize cfg q) as [normalized|]; [|simpl; auto].
  now apply match_loop_memo_bounded.
Qed.

Lemma findBestMatch_memo_bounded_witness :
  let cfg := Similarity.mkConfig true (8 # 10) true true true 1 in
  let pool := [("a", JStr "one"); ("b", JStr "two"); ("c", JStr "three");
               ("d", JStr "four")] in
  Z.of_nat (JSMap.size (snd (Similarity.findBestMatch cfg (JStr "five") pool (8 # 10) [])))
  <= 2.
Proof.
  intros cfg pool.
  apply (findBestMatch_memo_bounded cfg (JStr "five") pool (8 # 10) []).
  - simpl. lia.
  - constructor.
  - simpl. lia.
Defined.

(* ================================================================== *)
(** * What [get] can return *)
(* ================================================================== *)

Definition all_undefined (pool : list (string * JValue)) : Prop :=
  Forall (fun kv => snd kv = JUndefined) pool.

Lemma entry_object_props (e : Store.Entry) :
  get_prop (Store.entry_object e) "compressed" = Ok JUndefined /\
  get_prop (Store.entry_object e) "query" = Ok JUndefined /\
  get_prop (Store.entry_object e) "response" = Ok JUndefined /\
  truthy (Store.entry_object e) = true.
Proof. repeat split. Qed.

Lemma insert_index_forall (P : string * JValue -> Prop) (i : N) (k : string)
  (v : JValue) (fs : list (string * JValue)) :
  P (k, v) -> Forall P fs -> Forall P (JSON.insert_index i k v fs).
Proof.
  intros Hkv. induction 1 as [|[k' v'] r Hx Hr IH]; simpl; [now constructor|].
  destruct (array_index k') as [j|].
  - destruct (j <? i)%N; constructor; auto.
  - constructor; auto.
Qed.

Lemma set_forall {V : Type} (P : string * V -> Prop) (k : string) (v : V)
  (m : JSMap.t V) :
  P (k, v) -> Forall P m -> Forall P (JSMap.set k v m).
Proof.
  intros Hkv. induction 1 as [|[k' v'] r Hx Hr IH]; simpl; [now constructor|].
  destruct (String.eqb k k'); constructor; auto.
Qed.

Lemma assign_undefined (k : string) (queries : list (string * JValue)) :
  all_undefined queries -> all_undefined (Cache.assign k JUndefined queries).
Proof.
  intros H. unfold Cache.assign, JSON.obj_set.
  destruct (String.eqb k "__proto__"); [exact H|].
  destruct (assoc k queries).
  - now apply set_forall.
  - destruct (array_index k).
    + now apply insert_index_forall.
    + apply Forall_app. split; [exact H|]. now constructor.
Qed.

Section FacadeOutcomes.
Variable sv : Cache.Services.

Lemma store_get_outcome (k : string) (w : Cache.World) :
  exists w',
    Cache.memo w' = Cache.memo w /\ Cache.stats w' = Cache.stats w /\
    (JSMap.wf (Cache.store w) -> JSMap.wf (Cache.store w')) /\
    (Cache.store_get k w = (Ok JNull, w') \/
     exists e, Cache.store_get k w = (Ok (Store.entry_object e), w')).
Proof.
  rewrite store_get_run.
  exists (Cache.mkWorld (Cache.clock w) (S (Cache.tick w))
            (snd (Store.get (Cache.clock w (Cache.tick w)) k (Cache.store w)))
            (Cache.memo w) (Cache.stats w)).
  split; [reflexivity|]. split; [reflexivity|].
  split; [apply Store.get_keeps_wf|].
  destruct (fst (Store.get _ k (Cache.store w))) as [e|]; eauto.
Qed.

Lemma build_pool_outcome (keys : list string) :
  forall (queries : list (string * JValue)) (w : Cache.World),
  all_undefined queries ->
  exists r w',
    Cache.build_pool sv keys queries w = (r, w') /\
    Cache.memo w' = Cache.memo w /\ Cache.stats w' = Cache.stats w /\
    (JSMap.wf (Cache.store w) -> JSMap.wf (Cache.store w')) /\
    (r = Throw TypeError \/ exists pool, r = Ok pool /\ all_undefined pool).
Proof.
  induction keys as [|key rest IH]; intros queries w Hq; simpl.
  - exists (Ok queries), w. repeat split; auto. right. eauto.
  - unfold Cache.bind at 1.
    destruct (store_get_outcome key w) as (w' & Hm & Hs & Hw & [Hget|[e Hget]]);
      rewrite Hget.
    + exists (Throw TypeError), w'. simpl. repeat split; auto.
    + destruct (IH (Cache.assign key JUndefined queries) w'
                  (assign_undefined key queries Hq))
        as (r & w2 & Hrun & Hm' & Hs' & Hw' & Hr).
      exists r, w2. unfold Cache.bind, Cache.lift. simpl.
      split; [exact Hrun|]. split; [congruence|]. split; [congruence|].
      split; [auto|exact Hr].
Qed.

Lemma match_loop_undefined (cfg : Similarity.Config) (normalized : string)
  (threshold : Q) (pool : list (string * JValue)) :
  all_undefined pool ->
  forall best memo,
  exists r, Similarity.match_loop cfg normalized threshold pool best memo = (Ok r, memo).
Proof.
  induction 1 as [|[k v] rest Hv _ IH]; intros best memo; simpl; [eauto|].
  simpl in Hv. subst v.
  change (Similarity._normalize cfg JUndefined) with (@Ok string EmptyString).
  cbv iota.
  assert (Hc : snd (Similarity._calculate cfg normalized EmptyString memo) = memo).
  { unfold Similarity._calculate.
    destruct (String.eqb normalized EmptyString); [reflexivity|].
    unfold Similarity.is_empty at 2. simpl String.eqb.
    now rewrite orb_true_r. }
  destruct (Similarity._calculate cfg normalized EmptyString memo) as [s memo1].
  simpl in Hc. subst memo1. apply IH.
Qed.

Lemma find_best_outcome (q : JValue) (pool : list (string * JValue))
  (w : Cache.World) :
  all_undefined pool ->
  Cache.find_best sv q pool w = (Throw TypeError, w) \/
  exists best, Cache.find_best sv q pool w = (Ok best, w).
Proof.
  intros Hpool. unfold Cache.find_best, Similarity.findBestMatch.
  destruct (negb (Similarity.enabled (Cache.similarity sv)) || negb (truthy q)).
  - right. exists None. now destruct w.
  - destruct (Similarity._normalize (Cache.similarity sv) q) as [normalized|e] eqn:Hn.
    + destruct (match_loop_undefined (Cache.similarity sv) normalized
                  (Cache.similarity_threshold (Cache.config sv)) pool Hpool
                  None (Cache.memo w)) as [r ->].
      right. exists r. now destruct w.
    + left. unfold Similarity._normalize in Hn.
      destruct (negb (truthy q)); [discriminate|].
      destruct q; try discriminate; injection Hn as <-; now destruct w.
Qed.

Lemma findSimilar_outcome (q : JValue) (w : Cache.World) :
  exists r w',
    Cache._findSimilar sv q w = (r, w') /\
    Cache.memo w' = Cache.memo w /\ Cache.stats w' = Cache.stats w /\
    (JSMap.wf (Cache.store w) -> JSMap.wf (Cache.store w')) /\
    (r = Throw TypeError \/ r = Ok JNull \/ exists e, r = Ok (Store.entry_object e)).
Proof.
  unfold Cache._findSimilar. unfold Cache.bind at 1. unfold Cache.on_store at 1.
  simpl. unfold Cache.bind at 1.
  match goal with |- context [Cache.build_pool sv ?ks [] ?w0] =>
    destruct (build_pool_outcome ks [] w0 (Forall_nil _))
      as (r1 & w1 & -> & Hm & Hs & Hw & Hr)
  end.
  simpl in Hm, Hs, Hw.
  destruct Hr as [->|(pool & -> & Hpool)].
  { exists (Throw TypeError), w1. repeat split; auto. }
  unfold Cache.bind at 1.
  destruct (find_best_outcome q pool w1 Hpool) as [->|[best ->]].
  { exists (Throw TypeError), w1. repeat split; auto. }
  destruct best as [m|].
  2:{ exists (Ok JNull), w1. unfold Cache.ret. repeat split; auto. }
  unfold Cache.bind at 1.
  destruct (store_get_outcome (Similarity.key m) w1)
    as (w2 & Hm2 & Hs2 & Hw2 & [Hg|[e Hg]]);
    rewrite Hg.
  - exists (Throw TypeError), w2. simpl.
    split; [reflexivity|]. split; [congruence|]. split; [congruence|].
    split; auto.
  - exists (Ok (Store.entry_object e)), w2. simpl.
    split; [reflexivity|]. split; [congruence|]. split; [congruence|].
    split; eauto.
Qed.

Lemma get_outcome (q : JValue) (options : Cache.Options) (w : Cache.World) :
  exists r w',
    Cache.get sv q options w = (r, w') /\
    Cache.memo w' = Cache.memo w /\
    (JSMap.wf (Cache.store w) -> JSMap.wf (Cache.store w')) /\
    ((r = Ok JNull /\
      Cache.stats w'
      = (if Cache.enabled (Cache.config sv)
         then Stats.recordGet false (Cache.stats w) else Cache.stats w)) \/
     (r = Ok JUndefined /\ Cache.enabled (Cache.config sv) = true /\
      exists hit, Cache.stats w' = Stats.recordGet hit (Cache.stats w)) \/
     (r = Throw TypeError /\ Cache.stats w' = Cache.stats w)).
Proof.
  unfold Cache.get.
  destruct (Cache.enabled (Cache.config sv)); cbn [negb].
  2:{ exists (Ok JNull), w. repeat split; auto. }
  destruct (match Cache.opt_key options with
            | Some k => if Similarity.is_empty k then None else Some k
            | None => None
            end) as [k|].
  - unfold Cache.bind at 1. unfold Cache._getByKey. unfold Cache.bind at 1.
    destruct (store_get_outcome k w) as (w' & Hm & Hs & Hw & [Hg|[e Hg]]);
      rewrite Hg; simpl; eexists; eexists; (split; [reflexivity|]); simpl;
      (split; [exact Hm|]); (split; [exact Hw|]); rewrite Hs.
    + left. auto.
    + right. left. repeat split. now exists false.
  - destruct (Cache.similarity_enabled (Cache.config sv)).
    + unfold Cache.bind at 1.
      destruct (findSimilar_outcome q w) as (r1 & w1 & -> & Hm & Hs & Hw & Hr).
      destruct Hr as [->|[->|[e ->]]]; simpl;
        eexists; eexists; (split; [reflexivity|]); simpl;
        (split; [exact Hm|]); (split; [exact Hw|]); rewrite ?Hs.
      * right. right. auto.
      * left. auto.
      * right. left. repeat split. now exists true.
    + simpl. eexists; eexists; (split; [reflexivity|]); simpl. auto.
Qed.

Lemma set_outcome (q response : JValue) (options : Cache.Options)
  (w : Cache.World) :
  exists r w',
    Cache.set sv q response options w = (r, w') /\
    Cache.memo w' = Cache.memo w /\
    (JSMap.wf (Cache.store w) -> JSMap.wf (Cache.store w')) /\
    ((r = Ok false /\ Cache.enabled (Cache.config sv) = false /\ w' = w) \/
     (r = Ok true /\ Cache.enabled (Cache.config sv) = true /\
      Cache.stats w' = Stats.recordSet (Cache.stats w)) \/
     (r = Throw TypeError /\ Cache.stats w' = Cache.stats w /\
      Cache.store w' = Cache.store w)).
Proof.
  unfold Cache.set.
  destruct (Cache.enabled (Cache.config sv)); cbn [negb].
  2:{ exists (Ok false), w. repeat split; auto. }
  unfold Cache.bind at 1. unfold Cache.lift at 1.
  destruct (Cache.resolve_key q options) as [key|e] eqn:Hkey.
  2:{ exists (Throw TypeError), w.
      assert (e = TypeError) as ->.
      { unfold Cache.resolve_key, Cache._generateKey in Hkey.
        destruct (Cache.opt_key options) as [k|];
          [destruct (Similarity.is_empty k); [|discriminate]|];
          destruct q; congruence. }
      repeat split; auto. }
  unfold Cache.bind at 1. unfold Cache.dateNow at 1.
  set (payload := JObj _).
  set (w1 := Cache.mkWorld _ _ _ _ _).
  assert (Hc : Compression.compress (Cache.zlib sv) (Cache.compression sv) payload
               = Throw TypeError \/
               exists p, Compression.compress (Cache.zlib sv) (Cache.compression sv)
                           payload = Ok p).
  { unfold Compression.compress. destruct (negb _); [eauto|].
    destruct (JSON.stringify payload); [|auto]. destruct (_ <? _); eauto. }
  destruct (Cache.compression_enabled (Cache.config sv) && _).
  - unfold Cache.bind at 1. unfold Cache.lift at 1.
    destruct Hc as [->|[p ->]].
    + exists (Throw TypeError), w1. repeat split; auto.
    + eexists. eexists. split; [reflexivity|]. simpl.
      split; [reflexivity|]. split; [apply JSMap.wf_set|]. auto.
  - eexists. eexists. split; [reflexivity|]. simpl.
    split; [reflexivity|]. split; [apply JSMap.wf_set|]. auto.
Qed.

End FacadeOutcomes.

(** X17: [get] never hands out a stored response.  Whatever the configuration,
    the arguments and the state, [get] returns [null] or [undefined] or
    raises a TypeError: the store hands [_getByKey] and [_findSimilar]
    the entry [{ value, createdAt, expiresAt }], on which [response],
    [query] and [compressed] are all undefined.  The pool of the
    similarity search therefore holds no text, and the search leaves the
    memo of the matcher as it was. *)
Theorem get_never_returns_a_response
  (sv : Cache.Services) (q : JValue) (options : Cache.Options) (w : Cache.World) :
  let r := Cache.get sv q options w in
  (fst r = Ok JNull \/ fst r = Ok JUndefined \/ fst r = Throw TypeError) /\
  Cache.memo (snd r) = Cache.memo w.
Proof.
  destruct (get_outcome sv q options w) as (r & w' & -> & Hm & _ & Hr).
  simpl. split; [|exact Hm]. tauto.
Qed.

Lemma get_with_key_run
  (sv : Cache.Services) (q : JValue) (options : Cache.Options) (k : string)
  (w : Cache.World) :
  Cache.enabled (Cache.config sv) = true ->
  Cache.opt_key options = Some k ->
  k <> EmptyString ->
  let now := Cache.clock w (Cache.tick w) in
  let live :=
    match JSMap.get k (Cache.store w) with
    | Some e => negb (Store.expiresAt e <? now)
    | None => false
    end in
  Cache.get sv q options w
  = (Ok (if live then JUndefined else JNull),
     Cache.mkWorld (Cache.clock w) (S (Cache.tick w))
       (snd (Store.get now k (Cache.store w)))
       (Cache.memo w) (Stats.recordGet false (Cache.stats w))).
Proof.
  intros Hen Hkey Hk now live. unfold Cache.get. rewrite Hen, Hkey.
  assert (Similarity.is_empty k = false) as ->.
  { unfold Similarity.is_empty. now apply String.eqb_neq. }
  cbn [negb].
  unfold Cache.bind at 1. unfold Cache._getByKey. unfold Cache.bind at 1.
  rewrite store_get_run. fold now. unfold live, Store.get.
  destruct (JSMap.get k (Cache.store w)) as [e|]; [|reflexivity].
  destruct (Store.expiresAt e <? now); reflexivity.
Qed.

(** X18: [get] with [options.key] never hits and never raises: it returns
    [undefined] when the store holds an entry under the key that is not
    yet expired ([now <= expiresAt]) and [null] otherwise, and either way
    it records one lookup as a miss, reads the clock once and leaves the
    store as [store.get] leaves it. *)
Theorem get_by_key_never_hits
  (sv : Cache.Services) (q : JValue) (options : Cache.Options) (k : string)
  (w : Cache.World) :
  Cache.enabled (Cache.config sv) = true ->
  Cache.opt_key options = Some k ->
  k <> EmptyString ->
  let now := Cache.clock w (Cache.tick w) in
  let live :=
    match JSMap.get k (Cache.store w) with
    | Some e => negb (Store.expiresAt e <? now)
    | None => false
    end in
  Cache.get sv q options w
  = (Ok (if live then JUndefined else JNull),
     Cache.mkWorld (Cache.clock w) (S (Cache.tick w))
       (snd (Store.get now k (Cache.store w)))
       (Cache.memo w) (Stats.recordGet false (Cache.stats w))).
Proof. exact (get_with_key_run sv q options k w). Qed.

Lemma get_by_key_never_hits_witness :
  let sv := Cache.default_services Compression.stored_zlib in
  let options := Cache.mkOptions (Some "k") None None in
  let w0 := Cache.initial_world (fun n => Z.of_nat n) in
  let w1 := snd (Cache.set sv (JStr "q") (JStr "r") options w0) in
  fst (Cache.get sv (JStr "q") options w1) = Ok JUndefined /\
  Stats.misses (Cache.stats (snd (Cache.get sv (JStr "q") options w1))) = 1.
Proof.
  intros sv options w0 w1.
  rewrite (get_by_key_never_hits sv (JStr "q") options "k" w1);
    [|reflexivity|reflexivity|discriminate].
  split; reflexivity.
Defined.

(* ================================================================== *)
(** * What [set] writes *)
(* ================================================================== *)

Lemma payload_is_json (q response : JValue) (ts : Z) (key : string) :
  json_value q -> json_value response -> Z.abs ts <= 9007199254740991 ->
  json_value (JObj [("query", q); ("response", response);
                    ("meta", JObj [("ts", JNum ts); ("key", JStr key)])]).
Proof.
  intros Hq Hr Hts. simpl. repeat split; assumption.
Qed.

Lemma set_resolved_run
  (sv : Cache.Services) (q response : JValue) (options : Cache.Options)
  (key : string) (w : Cache.World) :
  Cache.enabled (Cache.config sv) = true ->
  Compression.ZlibLaws (Cache.zlib sv) ->
  Cache.resolve_key q options = Ok key ->
  json_value q -> json_value response ->
  safe_integer (Cache.clock w (Cache.tick w)) ->
  let ts := Cache.clock w (Cache.tick w) in
  let now := Cache.clock w (S (Cache.tick w)) in
  let payload := JObj [("query", q); ("response", response);
                       ("meta", JObj [("ts", JNum ts); ("key", JStr key)])] in
  exists stored,
    Cache.set sv q response options w
    = (Ok true,
       Cache.mkWorld (Cache.clock w) (S (S (Cache.tick w)))
         (JSMap.set key
            (Store.mkEntry stored now (now + Cache.ttl (Cache.config sv)))
            (Cache.store w))
         (Cache.memo w) (Stats.recordSet (Cache.stats w))) /\
    Compression.decompress (Cache.zlib sv) stored = Ok payload.
Proof.
  intros Hen Hlaws Hkey Hq Hr Hts ts now payload.
  assert (Hjson : json_value payload) by now apply payload_is_json.
  assert (Hplain : Compression.decompress (Cache.zlib sv) payload = Ok payload).
  { apply decompress_untagged. exists JUndefined. split; reflexivity. }
  destruct (json_value_roundtrips payload Hjson) as (text & Htext & Hparse).
  assert (Hc : exists stored,
            Compression.compress (Cache.zlib sv) (Cache.compression sv) payload
            = Ok stored /\
            Compression.decompress (Cache.zlib sv) stored = Ok payload).
  { unfold Compression.compress. rewrite Htext.
    destruct (negb _); [eauto|]. destruct (_ <? _); [eauto|].
    eexists. split; [reflexivity|].
    rewrite decompress_wrapper by assumption. exact Hparse. }
  destruct Hc as (packed & Hpack & Hunpack).
  unfold Cache.set. rewrite Hen, Hkey. cbn [negb].
  unfold Cache.bind at 1. unfold Cache.lift at 1.
  unfold Cache.bind at 1. unfold Cache.dateNow at 1.
  fold ts. fold payload. rewrite Htext.
  destruct (Cache.compression_enabled (Cache.config sv)
            && (Cache.compression_minLength (Cache.config sv)
                <? Z.of_nat (String.length text))).
  - exists packed. split; [|exact Hunpack].
    unfold Cache.bind at 1. unfold Cache.lift. rewrite Hpack. reflexivity.
  - exists payload. split; [reflexivity|exact Hplain].
Qed.

(** X19: [set] writes an entry from which the codec recovers the payload.
    With the cache on, a key that resolves ([options.key], or a string
    query to hash), JSON values as query and response, and the two clock
    readings, the time to live and the time of expiry within the safe
    integers, [set] returns [true], records one [set], reads the clock
    twice (for [meta.ts], then inside [store.set]) and writes under the
    key one entry expiring [ttl] after the second reading; its value is
    the payload [{ query, response, meta: { ts, key } }] itself or its
    compressed wrapper, and [decompress] gives the payload back from it,
    whatever the two size limits are. *)
Theorem set_stores_a_recoverable_payload
  (sv : Cache.Services) (q response : JValue) (options : Cache.Options)
  (key : string) (w : Cache.World) :
  Cache.enabled (Cache.config sv) = true ->
  Compression.ZlibLaws (Cache.zlib sv) ->
  Cache.resolve_key q options = Ok key ->
  json_value q -> json_value response ->
  let ts := Cache.clock w (Cache.tick w) in
  let now := Cache.clock w (S (Cache.tick w)) in
  safe_integer ts ->
  safe_integer now ->
  safe_integer (Cache.ttl (Cache.config sv)) ->
  safe_integer (now + Cache.ttl (Cache.config sv)) ->
  let payload := JObj [("query", q); ("response", response);
                       ("meta", JObj [("ts", JNum ts); ("key", JStr key)])] in
  exists stored,
    Cache.set sv q response options w
    = (Ok true,
       Cache.mkWorld (Cache.clock w) (S (S (Cache.tick w)))
         (JSMap.set key
            (Store.mkEntry stored now (now + Cache.ttl (Cache.config sv)))
            (Cache.store w))
         (Cache.memo w) (Stats.recordSet (Cache.stats w))) /\
    Compression.decompress (Cache.zlib sv) stored = Ok payload.
Proof.
  intros Hen Hlaws Hkey Hq Hr ts now Hts _ _ _.
  now apply set_resolved_run.
Qed.

Lemma set_stores_a_recoverable_payload_witness :
  let sv := Cache.mkServices
              (Cache.mkConfig true true (8 # 10) true 20 1000)
              Similarity.default_config (Compression.mkConfig true 20)
              Compression.stored_zlib in
  let w0 := Cache.initial_world (fun n => 1700000000000 + Z.of_nat n) in
  let w1 := snd (Cache.set sv (JStr "Hello") (JStr "world")
                   (Cache.mkOptions None None None) w0) in
  exists stored,
    option_map Store.value
      (JSMap.get "cache:679f7e56723647641e4e9c852465812b" (Cache.store w1))
    = Some stored /\
    Compression.decompress Compression.stored_zlib stored
    = Ok (JObj [("query", JStr "Hello"); ("response", JStr "world");
                ("meta", JObj [("ts", JNum 1700000000000);
                               ("key", JStr "cache:679f7e56723647641e4e9c852465812b")])]).
Proof.
  intros sv w0 w1.
  destruct (set_stores_a_recoverable_payload sv (JStr "Hello") (JStr "world")
              (Cache.mkOptions None None None)
              "cache:679f7e56723647641e4e9c852465812b" w0)
    as (stored & Hset & Hback).
  - reflexivity.
  - apply Compression.stored_zlib_laws.
  - vm_compute. reflexivity.
  - exact I.
  - exact I.
  - unfold safe_integer. simpl. lia.
  - unfold safe_integer. simpl. lia.
  - unfold safe_integer. simpl. lia.
  - unfold safe_integer. simpl. lia.
  - exists stored. unfold w1. rewrite Hset. cbn [snd Cache.store].
    rewrite JSMap.get_set_same. split; [reflexivity|exact Hback].
Defined.

(* ================================================================== *)
(** * The similarity search of [get] *)
(* ================================================================== *)

Lemma match_loop_undefined_none (cfg : Similarity.Config) (normalized : string)
  (threshold : Q) (pool : list (string * JValue)) :
  normalized <> EmptyString -> (0 <= threshold)%Q ->
  all_undefined pool ->
  forall memo,
  Similarity.match_loop cfg normalized threshold pool None memo = (Ok None, memo).
Proof.
  intros Hn Ht. induction 1 as [|[k v] rest Hv _ IH]; intros memo; simpl;
    [reflexivity|].
  simpl in Hv. subst v.
  change (Similarity._normalize cfg JUndefined) with (@Ok string EmptyString).
  cbv iota.
  assert (Hc : Similarity._calculate cfg normalized EmptyString memo = (0%Q, memo)).
  { unfold Similarity._calculate.
    destruct (String.eqb_spec normalized EmptyString) as [|_]; [contradiction|].
    unfold Similarity.is_empty at 2. simpl String.eqb.
    now rewrite orb_true_r. }
  rewrite Hc.
  assert (Himp : Similarity.improves threshold None 0 = false).
  { unfold Similarity.improves. rewrite andb_true_r. now apply Qgtb_false. }
  rewrite Himp. apply IH.
Qed.

(** X20: The similarity search finds no stored text.  With the cache and the
    similarity search on, no [options.key], a threshold that is not
    negative, and every entry of the store still alive when the pool
    loop reads it, [get] on a query with some letter or digit in it
    returns [null] and records a miss, however close the query is to a
    query stored before: the pool it hands to the matcher holds
    [undefined] for every key.  It reads the clock once per stored entry
    and changes neither the store nor the memo. *)
Theorem get_by_similarity_finds_no_text
  (sv : Cache.Services) (text : string) (options : Cache.Options)
  (w : Cache.World) :
  Cache.enabled (Cache.config sv) = true ->
  Cache.similarity_enabled (Cache.config sv) = true ->
  Cache.opt_key options = None ->
  JSMap.wf (Cache.store w) ->
  (forall i k e, nth_error (Cache.store w) i = Some (k, e) ->
     Cache.clock w (Cache.tick w + i) <= Store.expiresAt e) ->
  (0 <= Cache.similarity_threshold (Cache.config sv))%Q ->
  Similarity.normalize_string (Cache.similarity sv) text <> EmptyString ->
  Cache.get sv (JStr text) options w
  = (Ok JNull,
     Cache.mkWorld (Cache.clock w) (Cache.tick w + List.length (Cache.store w))
       (Cache.store w) (Cache.memo w) (Stats.recordGet false (Cache.stats w))).
Proof.
  intros Hen Hsim Hkey Hwf Hlive Ht Hn. unfold Cache.get.
  rewrite Hen, Hsim, Hkey. cbn [negb].
  unfold Cache.bind at 1. unfold Cache._findSimilar.
  unfold Cache.bind at 1. unfold Cache.on_store at 1. simpl.
  unfold Cache.bind at 1. unfold Store.getKeys.
  set (w0 := Cache.mkWorld (Cache.clock w) (Cache.tick w) (Cache.store w)
               (Cache.memo w) (Cache.stats w)).
  destruct (build_pool_live sv (Cache.store w) [] [] w0 eq_refl Hwf Hlive)
    as [pool Hpool].
  destruct (build_pool_outcome sv (JSMap.keys (Cache.store w)) [] w0 (Forall_nil _))
    as (r & w' & Hrun & _ & _ & _ & Hr).
  rewrite Hpool in Hrun. injection Hrun as <- <-.
  destruct Hr as [Hr|(pool' & [= <-] & Hundef)]; [discriminate|].
  rewrite Hpool. unfold Cache.bind at 1. unfold Cache.find_best.
  unfold Similarity.findBestMatch.
  assert (Htruthy : truthy (JStr text) = true).
  { destruct text; [|reflexivity]. exfalso. apply Hn.
    unfold Similarity.normalize_string.
    now destruct (Similarity.ignoreCase _), (Similarity.normalizeText _). }
  destruct (negb (Similarity.enabled (Cache.similarity sv))
            || negb (truthy (JStr text))); [reflexivity|].
  unfold Similarity._normalize. rewrite Htruthy. cbn [negb].
  rewrite (match_loop_undefined_none _ _ _ pool Hn Ht Hundef). reflexivity.
Qed.

Lemma get_by_similarity_finds_no_text_witness :
  let sv := Cache.default_services Compression.stored_zlib in
  let payload := JObj [("query", JStr "what is a cache");
                       ("response", JStr "a store of answers");
                       ("meta", JObj [("ts", JNum 5); ("key", JStr "k1")])] in
  let w := Cache.mkWorld (fun _ => 10) 0 [("k1", Store.mkEntry payload 5 1000)] []
             Stats.initial in
  fst (Cache.get sv (JStr "what is a cache") Cache.no_options w) = Ok JNull.
Proof.
  intros sv payload w.
  rewrite (get_by_similarity_finds_no_text sv "what is a cache" Cache.no_options w).
  - reflexivity.
  - reflexivity.
  - reflexivity.
  - reflexivity.
  - repeat constructor. simpl. tauto.
  - intros [|[|i]] k e H; simpl in H; try discriminate.
    injection H as <- <-. simpl. lia.
  - unfold Qle. simpl. lia.
  - discriminate.
Defined.

(* ================================================================== *)
(** * Invariants of the facade *)
(* ================================================================== *)

Lemma cleanup_loop_counts_up (now : Z) (entries : list (string * Store.Entry)) :
  forall s removed, removed <= fst (Store.cleanup_loop now entries s removed).
Proof.
  induction entries as [|[k e] rest IH]; intros s removed; simpl; [lia|].
  destruct (Store.expiresAt e <? now).
  - specialize (IH (JSMap.delete k s) (removed + 1)). lia.
  - apply IH.
Qed.

(** The counters add up: every lookup is counted as a hit or as a miss
    and no counter is negative. *)
Definition stats_consistent (s : Stats.t) : Prop :=
  Stats.gets s = Stats.hits s + Stats.misses s /\
  0 <= Stats.sets s /\ 0 <= Stats.hits s /\ 0 <= Stats.misses s /\
  0 <= Stats.clears s /\ 0 <= Stats.removed s /\ 0 <= Stats.cleaned s.

Lemma recordGet_consistent (hit : bool) (s : Stats.t) :
  stats_consistent s -> stats_consistent (Stats.recordGet hit s).
Proof.
  unfold stats_consistent. destruct hit; simpl; lia.
Qed.

(** X22: The counters of cache-stats.js stay consistent through every call of
    the facade: after [set], [get], [remove], [cleanup] or [clear],
    returning or raising, [gets] is still [hits + misses] and no counter
    is negative, if that was so before; the counters after [initialize]
    are so. *)
Theorem facade_keeps_stats_consistent (sv : Cache.Services) (w : Cache.World) :
  stats_consistent (Cache.stats w) ->
  (forall q response options,
     stats_consistent (Cache.stats (snd (Cache.set sv q response options w)))) /\
  (forall q options,
     stats_consistent (Cache.stats (snd (Cache.get sv q options w)))) /\
  (forall key, stats_consistent (Cache.stats (snd (Cache.remove key w)))) /\
  stats_consistent (Cache.stats (snd (Cache.cleanup w))) /\
  stats_consistent (Cache.stats (snd (Cache.clear w))) /\
  stats_consistent Stats.initial.
Proof.
  intros Hok. split; [|split; [|split; [|split; [|split]]]].
  - intros q response options.
    destruct (set_outcome sv q response options w)
      as (r & w' & -> & _ & _ & [(_ & _ & ->)|[(_ & _ & Hs)|(_ & Hs & _)]]);
      simpl; [assumption| |now rewrite Hs].
    rewrite Hs. unfold stats_consistent in *. simpl. lia.
  - intros q options.
    destruct (get_outcome sv q options w)
      as (r & w' & -> & _ & _ & [(_ & Hs)|[(_ & _ & hit & Hs)|(_ & Hs)]]);
      simpl; rewrite Hs.
    + destruct (Cache.enabled (Cache.config sv));
        [now apply recordGet_consistent|assumption].
    + now apply recordGet_consistent.
    + assumption.
  - intros key. unfold stats_consistent in *. simpl. lia.
  - unfold Cache.cleanup, Cache.store_cleanup, Cache.bind, Cache.dateNow,
      Cache.on_store, Cache.on_stats, Cache.ret. simpl.
    pose proof (cleanup_loop_counts_up (Cache.clock w (Cache.tick w))
                  (Cache.store w) (Cache.store w) 0) as Hcount.
    unfold Store.cleanup.
    destruct (Store.cleanup_loop _ (Cache.store w) (Cache.store w) 0) as [n s'].
    unfold stats_consistent in *. simpl in *. lia.
  - unfold stats_consistent in *. simpl. lia.
  - unfold stats_consistent. simpl. lia.
Qed.

Lemma facade_keeps_stats_consistent_witness :
  let sv := Cache.default_services Compression.stored_zlib in
  let w := Cache.mkWorld (fun _ => 10) 0 [("a", Store.mkEntry (JStr "x") 0 50)] []
             (Stats.mkStats 3 5 1 4 0 2 7) in
  stats_consistent
    (Cache.stats (snd (Cache.get sv (JStr "q") (Cache.mkOptions (Some "a") None None) w))).
Proof.
  intros sv w.
  apply (facade_keeps_stats_consistent sv w).
  unfold stats_consistent. simpl. lia.
Defined.

(** X23: Only completed calls are counted.  [set] adds one to [sets] exactly
    when it returns [true]; when it returns [false] (cache off) or raises,
    the counters and the store are as before.  [get] counts one lookup,
    hit or miss, when it returns with the cache on, and nothing when it
    raises or the cache is off.  [remove] counts one removal whether or
    not the key was there, and returns whether it was. *)
Theorem failed_calls_are_not_counted (sv : Cache.Services) (w : Cache.World) :
  (forall q response options,
     let r := Cache.set sv q response options w in
     (fst r = Ok true /\ Cache.stats (snd r) = Stats.recordSet (Cache.stats w)) \/
     (fst r <> Ok true /\ Cache.stats (snd r) = Cache.stats w /\
      Cache.store (snd r) = Cache.store w)) /\
  (forall q options,
     let r := Cache.get sv q options w in
     ((exists v, fst r = Ok v) /\ Cache.enabled (Cache.config sv) = true /\
      exists hit, Cache.stats (snd r) = Stats.recordGet hit (Cache.stats w)) \/
     (((exists e, fst r = Throw e) \/ Cache.enabled (Cache.config sv) = false) /\
      Cache.stats (snd r) = Cache.stats w)) /\
  (forall key,
     Cache.remove key w
     = (Ok (JSMap.has key (Cache.store w)),
        Cache.mkWorld (Cache.clock w) (Cache.tick w)
          (JSMap.delete key (Cache.store w)) (Cache.memo w)
          (Stats.recordRemove (Cache.stats w)))).
Proof.
  split; [|split].
  - intros q response options.
    destruct (set_outcome sv q response options w)
      as (r & w' & -> & _ & _ & [(-> & _ & ->)|[(-> & _ & Hs)|(-> & Hs & Hst)]]);
      simpl.
    + right. repeat split; auto. discriminate.
    + left. auto.
    + right. repeat split; auto. discriminate.
  - intros q options.
    destruct (get_outcome sv q options w)
      as (r & w' & -> & _ & _ & [(-> & Hs)|[(-> & Hen & hit & Hs)|(-> & Hs)]]);
      simpl.
    + destruct (Cache.enabled (Cache.config sv)).
      * left. split; [eauto|]. split; [reflexivity|]. eauto.
      * right. auto.
    + left. split; [eauto|]. split; [exact Hen|]. eauto.
    + right. split; [eauto|exact Hs].
  - intros key. reflexivity.
Qed.

(** X24: After [clear] nothing is found: [clear] returns [true] and empties
    the store (the memo of the matcher is not touched), and a [get] right
    after it, with or without [options.key], returns [null] for every
    query that is a string or falsy. *)
Theorem clear_then_get_finds_nothing
  (sv : Cache.Services) (q : JValue) (options : Cache.Options) (w : Cache.World) :
  is_text q = true ->
  let w1 := snd (Cache.clear w) in
  fst (Cache.clear w) = Ok true /\
  Cache.store w1 = [] /\
  Cache.memo w1 = Cache.memo w /\
  Stats.clears (Cache.stats w1) = Stats.clears (Cache.stats w) + 1 /\
  fst (Cache.get sv q options w1) = Ok JNull.
Proof.
  intros Hq w1. repeat split. unfold Cache.get.
  destruct (negb (Cache.enabled (Cache.config sv))); [reflexivity|].
  destruct (match Cache.opt_key options with
            | Some k => if Similarity.is_empty k then None else Some k
            | None => None
            end) as [k|]; [reflexivity|].
  destruct (Cache.similarity_enabled (Cache.config sv)); [|reflexivity].
  unfold Cache.bind at 1. unfold Cache._findSimilar.
  unfold Cache.bind at 1. unfold Cache.on_store at 1. simpl.
  unfold Cache.bind at 1. unfold Cache.find_best, Similarity.findBestMatch.
  destruct (negb (Similarity.enabled (Cache.similarity sv)) || negb (truthy q));
    [reflexivity|].
  destruct (normalize_text (Cache.similarity sv) q Hq) as [normalized ->].
  reflexivity.
Qed.

Lemma clear_then_get_finds_nothing_witness :
  let sv := Cache.default_services Compression.stored_zlib in
  let w := Cache.mkWorld (fun _ => 10) 0 [("a", Store.mkEntry (JStr "x") 0 50)] []
             Stats.initial in
  fst (Cache.get sv (JStr "x") Cache.no_options (snd (Cache.clear w))) = Ok JNull.
Proof.
  intros sv w.
  apply (clear_then_get_finds_nothing sv (JStr "x") Cache.no_options w).
  reflexivity.
Defined.

(* ================================================================== *)
(** * The caller: [complete] in ai-index.js *)
(* ================================================================== *)

Section CompleteFacts.
Variable cfg : AI.Config.
Variable cache : option Cache.Services.
Variable providers : AI.Providers.

Lemma cacheKey_not_empty (text : string) (settings : AI.Settings) :
  AI.generateCacheKey text settings <> EmptyString.
Proof. unfold AI.generateCacheKey. simpl. discriminate. Qed.

(** The lookup of [complete]: the cache answers [null] or [undefined],
    counting a miss when it is on. *)
Lemma complete_lookup (sv : Cache.Services) (text : string)
  (settings : AI.Settings) (w : Cache.World) :
  let keyed := Cache.mkOptions (Some (AI.generateCacheKey text settings)) None None in
  exists cached w1,
    Cache.get sv (JStr text) keyed w = (Ok cached, w1) /\
    truthy cached = false /\
    Cache.memo w1 = Cache.memo w /\
    Cache.clock w1 = Cache.clock w /\
    (if Cache.enabled (Cache.config sv)
     then Cache.tick w1 = S (Cache.tick w) /\
          Cache.stats w1 = Stats.recordGet false (Cache.stats w) /\
          Cache.store w1
          = snd (Store.get (Cache.clock w (Cache.tick w))
                   (AI.generateCacheKey text settings) (Cache.store w))
     else w1 = w).
Proof.
  intros keyed.
  destruct (Cache.enabled (Cache.config sv)) eqn:Hen.
  - rewrite (get_with_key_run sv (JStr text) keyed
               (AI.generateCacheKey text settings) w Hen eq_refl
               (cacheKey_not_empty text settings)).
    eexists. eexists. split; [reflexivity|]. simpl.
    split; [|auto].
    now destruct (match JSMap.get _ (Cache.store w) with
                  | Some e => _
                  | None => false
                  end).
  - exists JNull, w. unfold Cache.get. rewrite Hen. simpl. auto.
Qed.

(** The write of [complete]: the cache takes the answer, or is off. *)
Lemma complete_store (sv : Cache.Services) (text answer : string)
  (settings : AI.Settings) (w : Cache.World) :
  let key := AI.generateCacheKey text settings in
  let keyed := Cache.mkOptions (Some key) None None in
  exists stored w1,
    Cache.set sv (JStr text) (JStr answer) keyed w = (Ok stored, w1) /\
    Cache.memo w1 = Cache.memo w /\
    Cache.clock w1 = Cache.clock w /\
    (if Cache.enabled (Cache.config sv)
     then Cache.tick w1 = S (S (Cache.tick w)) /\
          Cache.stats w1 = Stats.recordSet (Cache.stats w) /\
          exists payload,
            Cache.store w1
            = JSMap.set key
                (Store.mkEntry payload (Cache.clock w (S (Cache.tick w)))
                   (Cache.clock w (S (Cache.tick w)) + Cache.ttl (Cache.config sv)))
                (Cache.store w)
     else w1 = w).
Proof.
  intros key keyed.
  destruct (Cache.enabled (Cache.config sv)) eqn:Hen.
  - destruct (set_with_key_run sv (JStr text) (JStr answer) keyed key w Hen eq_refl
                (cacheKey_not_empty text settings)) as [payload Hset].
    rewrite Hset. eexists. eexists. split; [reflexivity|]. simpl.
    repeat split. now exists payload.
  - exists false, w. unfold Cache.set. rewrite Hen. simpl. auto.
Qed.

End CompleteFacts.

Lemma complete_run
  (cfg : AI.Config) (cache : option Cache.Services) (providers : AI.Providers)
  (text : string) (options : AI.Options) (w : Cache.World) (svc : AI.Services) :
  AI.services cfg = Some svc ->
  let settings := AI.buildSettings cfg options in
  let answer :=
    if AI.service_on (AI.ollama svc)
    then match AI.callOllama providers text settings with
         | AI.Answered r => AI.Answered r
         | AI.Refused err =>
             if AI.service_on (AI.claude svc)
             then AI.callClaude providers text settings
             else AI.Refused err
         end
    else if AI.service_on (AI.claude svc)
         then AI.callClaude providers text settings
         else AI.Refused "Nessun servizio AI disponibile" in
  fst (AI.complete cfg cache providers text options w)
  = match answer with
    | AI.Answered r =>
        AI.Returned (AI.mkCompletion (JStr (AI.content r)) (AI.response_model r))
    | AI.Refused message => AI.Raised (AI.Failure message)
    end.
Proof.
  intros Hsvc settings answer. unfold AI.complete. rewrite Hsvc.
  fold settings. unfold AI.cache_in_use.
  destruct (AI.useCache settings); [destruct cache as [sv|]|].
  - destruct (complete_lookup sv text settings w)
      as (cached & w1 & -> & -> & _).
    fold answer. destruct answer as [r|message]; [|reflexivity].
    destruct (complete_store sv text (AI.content r) settings w1)
      as (stored & w2 & -> & _).
    reflexivity.
  - fold answer. now destruct answer.
  - fold answer. now destruct answer.
Qed.

(** X25: [complete] never answers from the cache.  Once the module is
    configured, what [complete] returns is decided by the providers
    alone, whatever cache module it was given, whatever that cache holds
    and whether caching is on: the answer of Ollama when Ollama is
    enabled and answers; otherwise the answer or the error of Claude when
    Claude is enabled; otherwise the error of Ollama, or "no service"
    when neither is enabled.  The lookup under the key
    [ai:md5(text|model|userId)] always misses and neither the lookup nor
    the write that follows the answer raises. *)
Theorem complete_never_answers_from_the_cache
  (cfg : AI.Config) (cache : option Cache.Services) (providers : AI.Providers)
  (text : string) (options : AI.Options) (w : Cache.World) (svc : AI.Services) :
  AI.services cfg = Some svc ->
  let settings := AI.buildSettings cfg options in
  let result := fst (AI.complete cfg cache providers text options w) in
  let from_provider (a : AI.Attempt) :=
    match a with
    | AI.Answered r =>
        AI.Returned (AI.mkCompletion (JStr (AI.content r)) (AI.response_model r))
    | AI.Refused message => AI.Raised (AI.Failure message)
    end in
  let first := AI.callOllama providers text settings in
  let second := AI.callClaude providers text settings in
  (AI.service_on (AI.ollama svc) = true ->
     forall r, first = AI.Answered r -> result = from_provider first) /\
  (AI.service_on (AI.ollama svc) = true ->
     forall message, first = AI.Refused message ->
     result = if AI.service_on (AI.claude svc)
              then from_provider second else from_provider first) /\
  (AI.service_on (AI.ollama svc) = false ->
     result = if AI.service_on (AI.claude svc)
              then from_provider second
              else AI.Raised (AI.Failure "Nessun servizio AI disponibile")).
Proof.
  intros Hsvc settings result from_provider first second.
  unfold result. rewrite (complete_run cfg cache providers text options w svc Hsvc).
  fold settings. fold first. fold second.
  split; [|split].
  - intros -> r Hr. now rewrite Hr.
  - intros -> message Hr. rewrite Hr.
    now destruct (AI.service_on (AI.claude svc)).
  - intros ->. now destruct (AI.service_on (AI.claude svc)).
Qed.

Lemma complete_never_answers_from_the_cache_witness :
  let sv := Cache.default_services Compression.stored_zlib in
  let providers :=
    AI.mkProviders (fun _ settings => AI.Answered (AI.mkResponse "fresh" (AI.model settings)))
                   (fun _ _ => AI.Refused "no key") in
  let stored := JObj [("query", JStr "ciao"); ("response", JStr "stale");
                      ("meta", JObj [("ts", JNum 1);
                                     ("key", JStr (AI.generateCacheKey "ciao"
                                        (AI.buildSettings AI.default_config AI.no_options)))])] in
  let w := Cache.mkWorld (fun _ => 10) 0
             [(AI.generateCacheKey "ciao" (AI.buildSettings AI.default_config AI.no_options),
               Store.mkEntry stored 1 1000)] [] Stats.initial in
  fst (AI.complete AI.default_config (Some sv) providers "ciao" AI.no_options w)
  = AI.Returned (AI.mkCompletion (JStr "fresh") "llama3.1:8b").
Proof.
  intros sv providers stored w.
  destruct (complete_never_answers_from_the_cache AI.default_config (Some sv)
              providers "ciao" AI.no_options w
              (AI.mkServices (Some true) (Some false)) eq_refl) as (H & _).
  exact (H eq_refl _ eq_refl).
Defined.

Lemma provider_answer (svc : AI.Services) (providers : AI.Providers)
  (text : string) (settings : AI.Settings) (r : AI.Response) :
  (if AI.service_on (AI.ollama svc)
   then match AI.callOllama providers text settings with
        | AI.Answered r0 => AI.Answered r0
        | AI.Refused err =>
            if AI.service_on (AI.claude svc)
            then AI.callClaude providers text settings
            else AI.Refused err
        end
   else if AI.service_on (AI.claude svc)
        then AI.callClaude providers text settings
        else AI.Refused "Nessun servizio AI disponibile") = AI.Answered r ->
  (AI.service_on (AI.ollama svc) = true /\
   AI.callOllama providers text settings = AI.Answered r) \/
  (AI.service_on (AI.claude svc) = true /\
   AI.callClaude providers text settings = AI.Answered r).
Proof.
  destruct (AI.service_on (AI.ollama svc)).
  - destruct (AI.callOllama providers text settings) as [r0|err].
    + intros [= ->]. auto.
    + destruct (AI.service_on (AI.claude svc)); [auto|discriminate].
  - destruct (AI.service_on (AI.claude svc)); [auto|discriminate].
Qed.

(** X26: What a completed call leaves behind when caching is in use and the
    cache is on, with the clock readings, the time to live and the time
    of expiry within the safe integers.  The completion is the content
    and the model of the answer of an enabled provider; one miss and one
    set are counted, the clock is read three times, the memo is
    untouched, and under the key [ai:md5(text|model|userId)] there is an
    entry written after the answer, expiring [ttl] after the third
    reading, from which [decompress] recovers the payload with the prompt
    as [query] and that content as [response].  The entry is never read
    back: by the theorem above the next call with the same prompt asks
    the providers again. *)
Theorem complete_writes_the_entry_it_never_reads
  (cfg : AI.Config) (sv : Cache.Services) (providers : AI.Providers)
  (text : string) (options : AI.Options) (w : Cache.World) (c : AI.Completion)
  (svc : AI.Services) :
  let settings := AI.buildSettings cfg options in
  let key := AI.generateCacheKey text settings in
  let w' := snd (AI.complete cfg (Some sv) providers text options w) in
  let ts := Cache.clock w (Cache.tick w + 1) in
  let written := Cache.clock w (Cache.tick w + 2) in
  let ttl := Cache.ttl (Cache.config sv) in
  AI.services cfg = Some svc ->
  AI.useCache settings = true ->
  Cache.enabled (Cache.config sv) = true ->
  Compression.ZlibLaws (Cache.zlib sv) ->
  safe_integer ts -> safe_integer written ->
  safe_integer ttl -> safe_integer (written + ttl) ->
  fst (AI.complete cfg (Some sv) providers text options w) = AI.Returned c ->
  exists r stored,
    ((AI.service_on (AI.ollama svc) = true /\
      AI.callOllama providers text settings = AI.Answered r) \/
     (AI.service_on (AI.claude svc) = true /\
      AI.callClaude providers text settings = AI.Answered r)) /\
    c = AI.mkCompletion (JStr (AI.content r)) (AI.response_model r) /\
    Cache.stats w' = Stats.recordSet (Stats.recordGet false (Cache.stats w)) /\
    Cache.tick w' = (Cache.tick w + 3)%nat /\
    Cache.memo w' = Cache.memo w /\
    JSMap.get key (Cache.store w')
    = Some (Store.mkEntry stored written (written + ttl)) /\
    Compression.decompress (Cache.zlib sv) stored
    = Ok (JObj [("query", JStr text); ("response", JStr (AI.content r));
                ("meta", JObj [("ts", JNum ts); ("key", JStr key)])]).
Proof.
  intros settings key w' ts written ttl Hsvc Huse Hen Hlaws Hts _ _ _.
  unfold w'. clear w'. unfold AI.complete. rewrite Hsvc.
  fold settings. unfold AI.cache_in_use. rewrite Huse.
  destruct (complete_lookup sv text settings w)
    as (cached & w1 & -> & -> & Hm1 & Hc1 & H1).
  rewrite Hen in H1. destruct H1 as (Ht1 & Hs1 & _).
  match goal with |- context [match ?a with AI.Answered _ => _ | AI.Refused _ => _ end] =>
    destruct a as [r|message] eqn:Hanswer
  end; [|discriminate].
  apply provider_answer in Hanswer.
  assert (Hts1 : safe_integer (Cache.clock w1 (Cache.tick w1))).
  { rewrite Hc1, Ht1. unfold ts in Hts.
    now replace (S (Cache.tick w)) with (Cache.tick w + 1)%nat by lia. }
  destruct (set_resolved_run sv (JStr text) (JStr (AI.content r))
              (Cache.mkOptions (Some key) None None) key w1 Hen Hlaws)
    as (stored & Hset & Hback).
  { unfold Cache.resolve_key. simpl.
    destruct (Similarity.is_empty key) eqn:He; [|reflexivity].
    apply is_empty_spec in He. now destruct (cacheKey_not_empty text settings). }
  { exact I. }
  { exact I. }
  { exact Hts1. }
  fold key. rewrite Hset. simpl. intros [= <-].
  exists r, stored.
  split; [exact Hanswer|]. split; [reflexivity|].
  split; [now rewrite Hs1|]. split; [rewrite Ht1; lia|].
  split; [exact Hm1|].
  rewrite Hc1, Ht1 in *. unfold written, ttl, ts.
  replace (Cache.tick w + 2)%nat with (S (S (Cache.tick w))) by lia.
  replace (Cache.tick w + 1)%nat with (S (Cache.tick w)) by lia.
  split; [apply JSMap.get_set_same|exact Hback].
Qed.

Lemma complete_writes_the_entry_it_never_reads_witness :
  let sv := Cache.default_services Compression.stored_zlib in
  let providers :=
    AI.mkProviders (fun _ settings => AI.Answered (AI.mkResponse "fresh" (AI.model settings)))
                   (fun _ _ => AI.Refused "no key") in
  let w := Cache.initial_world (fun n => 1700000000000 + Z.of_nat n) in
  let w' := snd (AI.complete AI.default_config (Some sv) providers "ciao" AI.no_options w) in
  Stats.sets (Cache.stats w') = 1 /\ Stats.misses (Cache.stats w') = 1 /\
  Stats.hits (Cache.stats w') = 0 /\
  exists stored,
    option_map Store.value
      (JSMap.get (AI.generateCacheKey "ciao"
                    (AI.buildSettings AI.default_config AI.no_options))
         (Cache.store w'))
    = Some stored /\
    bindR (Compression.decompress Compression.stored_zlib stored)
      (fun payload => get_prop payload "response")
    = Ok (JStr "fresh").
Proof.
  intros sv providers w w'.
  destruct (complete_writes_the_entry_it_never_reads AI.default_config sv providers
              "ciao" AI.no_options w
              (AI.mkCompletion (JStr "fresh") "llama3.1:8b")
              (AI.mkServices (Some true) (Some false)))
    as (r & stored & Hr & Hc & Hstats & _ & _ & Hget & Hback).
  - reflexivity.
  - reflexivity.
  - reflexivity.
  - apply Compression.stored_zlib_laws.
  - unfold safe_integer. simpl. lia.
  - unfold safe_integer. simpl. lia.
  - unfold safe_integer. simpl. lia.
  - unfold safe_integer. simpl. lia.
  - apply (complete_run AI.default_config (Some sv) providers "ciao" AI.no_options w
             (AI.mkServices (Some true) (Some false)) eq_refl).
  - unfold w'. rewrite Hstats.
    split; [reflexivity|]. split; [reflexivity|]. split; [reflexivity|].
    exists stored. rewrite Hget. split; [reflexivity|].
    change (Cache.zlib sv) with Compression.stored_zlib in Hback.
    rewrite Hback. injection Hc as Hcontent _. simpl. now rewrite <- Hcontent.
Defined.

(* ================================================================== *)
(** * [get] while nothing has expired *)
(* ================================================================== *)

Lemma insert_index_keys (i : N) (k : string) (v : JValue)
  (fs : list (string * JValue)) (x : string) :
  In x (map fst (JSON.insert_index i k v fs)) <-> x = k \/ In x (map fst fs).
Proof.
  induction fs as [|[k' v'] r IH]; simpl; [intuition|].
  destruct (array_index k') as [j|]; [destruct (j <? i)%N|]; simpl;
    rewrite ?IH; intuition.
Qed.

Lemma set_keys {V : Type} (k : string) (v : V) (m : JSMap.t V) (x : string) :
  In x (map fst (JSMap.set k v m)) <-> x = k \/ In x (map fst m).
Proof.
  induction m as [|[k' v'] r IH]; simpl; [intuition|].
  destruct (String.eqb_spec k k') as [->|Hne]; simpl; rewrite ?IH; intuition.
Qed.

Lemma assign_keys (k : string) (v : JValue) (fs : list (string * JValue))
  (x : string) :
  In x (map fst (Cache.assign k v fs))
  <-> (x = k /\ k <> "__proto__") \/ In x (map fst fs).
Proof.
  unfold Cache.assign, JSON.obj_set.
  destruct (String.eqb_spec k "__proto__") as [->|Hne]; [intuition|].
  destruct (assoc k fs); [rewrite set_keys|destruct (array_index k)].
  - intuition.
  - rewrite insert_index_keys. intuition.
  - rewrite map_app, in_app_iff. simpl. intuition.
Qed.

Lemma match_loop_key (cfg : Similarity.Config) (normalized : string)
  (threshold : Q) (entries : list (string * JValue)) :
  forall best memo m memo',
  Similarity.match_loop cfg normalized threshold entries best memo
  = (Ok (Some m), memo') ->
  best = Some m \/ In (Similarity.key m) (map fst entries).
Proof.
  induction entries as [|[k v] rest IH]; intros best memo m memo'; simpl.
  - intros [= -> _]. now left.
  - destruct (Similarity._normalize cfg v) as [candidate|]; [|discriminate].
    destruct (Similarity._calculate cfg normalized candidate memo) as [s memo1].
    intros Hrun. apply IH in Hrun. destruct Hrun as [Hbest|Hin]; [|auto].
    destruct (Similarity.improves threshold best s); [|auto].
    injection Hbest as <-. simpl. auto.
Qed.

Section LiveStore.
Variable sv : Cache.Services.

(** Every entry is alive at every clock reading that a [get] can take. *)
Definition nothing_expires (w : Cache.World) : Prop :=
  forall k e n, In (k, e) (Cache.store w) ->
  (Cache.tick w <= n <= Cache.tick w + List.length (Cache.store w))%nat ->
  Cache.clock w n <= Store.expiresAt e.

Lemma build_pool_keys (keys : list string) :
  forall (queries pool : list (string * JValue)) (w w' : Cache.World),
  Cache.build_pool sv keys queries w = (Ok pool, w') ->
  forall x, In x (map fst pool) ->
  (In x keys /\ x <> "__proto__") \/ In x (map fst queries).
Proof.
  induction keys as [|key rest IH]; intros queries pool w w'; simpl.
  - intros [= <- _]. auto.
  - unfold Cache.bind at 1.
    destruct (store_get_outcome key w) as (w1 & _ & _ & _ & [Hget|[e Hget]]);
      rewrite Hget; [discriminate|].
    unfold Cache.bind, Cache.lift. simpl. intros Hrun x Hx.
    destruct (IH _ _ _ _ Hrun x Hx) as [[Hin Hne]|Hin]; [auto|].
    apply assign_keys in Hin. destruct Hin as [[-> Hne]|Hin]; auto.
Qed.

Lemma build_pool_keeps_keys (keys : list string) :
  forall (queries pool : list (string * JValue)) (w w' : Cache.World),
  Cache.build_pool sv keys queries w = (Ok pool, w') ->
  forall x, (In x keys /\ x <> "__proto__") \/ In x (map fst queries) ->
  In x (map fst pool).
Proof.
  induction keys as [|key rest IH]; intros queries pool w w'; simpl.
  - intros [= <- _] x [[[] _]|Hx]. exact Hx.
  - unfold Cache.bind at 1.
    destruct (store_get_outcome key w) as (w1 & _ & _ & _ & [Hget|[e Hget]]);
      rewrite Hget; [discriminate|].
    unfold Cache.bind, Cache.lift. simpl. intros Hrun x Hx.
    apply (IH _ _ _ _ Hrun x). rewrite assign_keys.
    destruct Hx as [[[->|Hin] Hne]|Hin]; auto.
Qed.

Lemma live_pool (w : Cache.World) :
  JSMap.wf (Cache.store w) -> nothing_expires w ->
  exists pool,
    Cache.build_pool sv (JSMap.keys (Cache.store w)) []
      (Cache.mkWorld (Cache.clock w) (Cache.tick w) (Cache.store w)
         (Cache.memo w) (Cache.stats w))
    = (Ok pool,
       Cache.mkWorld (Cache.clock w) (Cache.tick w + List.length (Cache.store w))
         (Cache.store w) (Cache.memo w) (Cache.stats w)) /\
    all_undefined pool /\
    (forall x, In x (map fst pool)
               <-> In x (JSMap.keys (Cache.store w)) /\ x <> "__proto__").
Proof.
  intros Hwf Hlive.
  set (w0 := Cache.mkWorld (Cache.clock w) (Cache.tick w) (Cache.store w)
               (Cache.memo w) (Cache.stats w)).
  assert (Hnth : forall i k e, nth_error (Cache.store w0) i = Some (k, e) ->
            Cache.clock w0 (Cache.tick w0 + i) <= Store.expiresAt e).
  { intros i k e Hi. simpl in *. apply (Hlive k e).
    - now apply nth_error_In in Hi.
    - assert (i < List.length (Cache.store w))%nat
        by (apply nth_error_Some; congruence). lia. }
  destruct (build_pool_live sv (Cache.store w) [] [] w0 eq_refl Hwf Hnth)
    as [pool Hpool].
  destruct (build_pool_outcome sv (JSMap.keys (Cache.store w)) [] w0 (Forall_nil _))
    as (r & w' & Hrun & _ & _ & _ & Hr).
  rewrite Hpool in Hrun. injection Hrun as <- <-.
  destruct Hr as [Hr|(pool' & [= <-] & Hundef)]; [discriminate|].
  exists pool. split; [exact Hpool|]. split; [exact Hundef|].
  intros x. split.
  - intros Hx. destruct (build_pool_keys _ _ _ _ _ Hpool x Hx) as [H|[]]. exact H.
  - intros Hx. apply (build_pool_keeps_keys _ _ _ _ _ Hpool x). now left.
Qed.

Lemma live_entry (w : Cache.World) (k : string) (n : nat) :
  JSMap.wf (Cache.store w) -> nothing_expires w ->
  In k (JSMap.keys (Cache.store w)) ->
  (Cache.tick w <= n <= Cache.tick w + List.length (Cache.store w))%nat ->
  exists e, JSMap.get k (Cache.store w) = Some e /\
            (Store.expiresAt e <? Cache.clock w n) = false.
Proof.
  intros Hwf Hlive Hin Hn.
  unfold JSMap.keys in Hin. apply in_map_iff in Hin.
  destruct Hin as [[k' e] [Hk Hin]]. simpl in Hk. subst k'.
  exists e. split; [now apply JSMap.in_get|].
  apply Z.ltb_ge. now apply (Hlive k e).
Qed.

End LiveStore.

Lemma findSimilar_live_run
  (sv : Cache.Services) (q : JValue) (w : Cache.World) :
  JSMap.wf (Cache.store w) ->
  nothing_expires w ->
  is_text q = true ->
  exists r w',
    Cache._findSimilar sv q w = (Ok r, w') /\
    (r = JNull \/ exists e, r = Store.entry_object e) /\
    Cache.store w' = Cache.store w.
Proof.
  intros Hwf Hlive Hq.
  unfold Cache._findSimilar. unfold Cache.bind at 1.
  unfold Cache.on_store at 1. simpl. unfold Cache.bind at 1.
  unfold Store.getKeys.
  destruct (live_pool sv w Hwf Hlive) as (pool & -> & Hundef & Hkeys).
  unfold Cache.bind at 1. unfold Cache.find_best, Similarity.findBestMatch.
  destruct (negb (Similarity.enabled (Cache.similarity sv)) || negb (truthy q)).
  { eexists. eexists. split; [reflexivity|]. simpl. auto. }
  destruct (normalize_text (Cache.similarity sv) q Hq) as [normalized ->].
  destruct (match_loop_undefined (Cache.similarity sv) normalized
              (Cache.similarity_threshold (Cache.config sv)) pool Hundef
              None (Cache.memo w)) as [r Hloop].
  simpl Cache.memo. rewrite Hloop.
  destruct r as [m|]; [|eexists; eexists; split; [reflexivity|]; simpl; auto].
  apply match_loop_key in Hloop. destruct Hloop as [|Hin]; [discriminate|].
  apply Hkeys in Hin. destruct Hin as [Hin _].
  destruct (live_entry w (Similarity.key m)
              (Cache.tick w + List.length (Cache.store w)) Hwf Hlive Hin
              ltac:(lia)) as (e & Hget & Hnow).
  unfold Cache.bind at 1. rewrite store_get_run. simpl.
  unfold Store.get. rewrite Hget, Hnow. simpl.
  eexists. eexists. split; [reflexivity|]. simpl. eauto.
Qed.

Lemma get_live_run
  (sv : Cache.Services) (q : JValue) (options : Cache.Options) (w : Cache.World) :
  JSMap.wf (Cache.store w) ->
  nothing_expires w ->
  is_text q = true ->
  exists v w',
    Cache.get sv q options w = (Ok v, w') /\
    (v = JNull \/ v = JUndefined) /\
    Cache.store w' = Cache.store w.
Proof.
  intros Hwf Hlive Hq. unfold Cache.get.
  destruct (negb (Cache.enabled (Cache.config sv))).
  { exists JNull, w. simpl. auto. }
  destruct (match Cache.opt_key options with
            | Some k => if Similarity.is_empty k then None else Some k
            | None => None
            end) as [k|].
  - unfold Cache.bind at 1. unfold Cache._getByKey. unfold Cache.bind at 1.
    rewrite store_get_run. unfold Store.get.
    destruct (JSMap.get k (Cache.store w)) as [e|] eqn:Hk.
    + assert (Hnow : (Store.expiresAt e <? Cache.clock w (Cache.tick w)) = false).
      { apply Z.ltb_ge. apply (Hlive k e); [now apply JSMap.get_in|lia]. }
      rewrite Hnow. eexists. eexists. split; [reflexivity|]. simpl. auto.
    + eexists. eexists. split; [reflexivity|]. simpl. auto.
  - destruct (Cache.similarity_enabled (Cache.config sv)).
    2:{ eexists. eexists. split; [reflexivity|]. simpl. auto. }
    destruct (findSimilar_live_run sv q w Hwf Hlive Hq)
      as (r & w' & Hrun & Hr & Hstore).
    unfold Cache.bind at 1. rewrite Hrun.
    destruct Hr as [->|[e ->]];
      eexists; eexists; (split; [reflexivity|]); simpl; auto.
Qed.

(** X27: [get] returns while nothing has expired.  On a store with one entry
    per key whose entries are all alive at every clock reading the call
    takes, [get] on a query that is a string or falsy does not raise,
    with or without [options.key]: it returns [null] or [undefined] and
    leaves the store as it was.  (An expired entry met by the pool
    loop is what makes it raise.) *)
Theorem get_returns_while_nothing_expires
  (sv : Cache.Services) (q : JValue) (options : Cache.Options) (w : Cache.World) :
  JSMap.wf (Cache.store w) ->
  nothing_expires w ->
  is_text q = true ->
  exists v,
    fst (Cache.get sv q options w) = Ok v /\
    (v = JNull \/ v = JUndefined) /\
    Cache.store (snd (Cache.get sv q options w)) = Cache.store w.
Proof.
  intros Hwf Hlive Hq.
  destruct (get_live_run sv q options w Hwf Hlive Hq) as (v & w' & -> & Hv & Hs).
  exists v. auto.
Qed.

Lemma get_returns_while_nothing_expires_witness :
  let sv := Cache.default_services Compression.stored_zlib in
  let w := Cache.mkWorld (fun n => Z.of_nat n) 0
             [("a", Store.mkEntry (JStr "x") 0 5);
              ("b", Store.mkEntry (JStr "y") 0 50)] [] Stats.initial in
  exists v, fst (Cache.get sv (JStr "x") Cache.no_options w) = Ok v.
Proof.
  intros sv w.
  destruct (get_returns_while_nothing_expires sv (JStr "x") Cache.no_options w)
    as (v & Hv & _).
  - repeat constructor; simpl; intuition discriminate.
  - intros k e n Hin Hn. simpl in Hin, Hn.
    destruct Hin as [[= <- <-]|[[= <- <-]|[]]]; simpl; lia.
  - reflexivity.
  - now exists v.
Defined.

Lemma match_loop_undefined_top (cfg : Similarity.Config) (threshold : Q)
  (m : Similarity.Match) (pool : list (string * JValue)) :
  Similarity.score m = 1%Q ->
  all_undefined pool ->
  forall memo,
  Similarity.match_loop cfg EmptyString threshold pool (Some m) memo
  = (Ok (Some m), memo).
Proof.
  intros Hm. induction 1 as [|[k v] rest Hv _ IH]; intros memo; simpl;
    [reflexivity|].
  simpl in Hv. subst v.
  change (Similarity._normalize cfg JUndefined) with (@Ok string EmptyString).
  cbv iota. rewrite calculate_same.
  assert (Himp : Similarity.improves threshold (Some m) 1 = false).
  { unfold Similarity.improves. rewrite Hm. apply andb_false_r. }
  rewrite Himp. apply IH.
Qed.

(** X28: A query without letters or digits is counted as a hit.  With the
    cache, the similarity search and the matcher on, no [options.key], a
    threshold below 1, a store that is not empty and where nothing has
    expired, [get] on a non-empty query whose normalized form is empty
    (such as "?!") returns [undefined] and records a hit: every
    candidate of the pool is [undefined], which normalizes to the empty
    string as the query does, and scores 1. *)
Theorem get_counts_a_hit_on_a_wordless_query
  (sv : Cache.Services) (text : string) (options : Cache.Options)
  (w : Cache.World) (k0 : string) :
  Cache.enabled (Cache.config sv) = true ->
  Cache.similarity_enabled (Cache.config sv) = true ->
  Similarity.enabled (Cache.similarity sv) = true ->
  Cache.opt_key options = None ->
  (Cache.similarity_threshold (Cache.config sv) < 1)%Q ->
  text <> EmptyString ->
  Similarity.normalize_string (Cache.similarity sv) text = EmptyString ->
  JSMap.wf (Cache.store w) ->
  nothing_expires w ->
  In k0 (Store.getKeys (Cache.store w)) -> k0 <> "__proto__" ->
  Cache.get sv (JStr text) options w
  = (Ok JUndefined,
     Cache.mkWorld (Cache.clock w) (S (Cache.tick w + List.length (Cache.store w)))
       (Cache.store w) (Cache.memo w) (Stats.recordGet true (Cache.stats w))).
Proof.
  intros Hen Hsim Hmatcher Hkey Ht Htext Hnorm Hwf Hlive Hk0 Hproto.
  unfold Cache.get. rewrite Hen, Hsim, Hkey. cbn [negb].
  unfold Cache.bind at 1. unfold Cache._findSimilar. unfold Cache.bind at 1.
  unfold Cache.on_store at 1. simpl. unfold Cache.bind at 1.
  unfold Store.getKeys.
  destruct (live_pool sv w Hwf Hlive) as (pool & -> & Hundef & Hkeys).
  assert (Hpool : In k0 (map fst pool)) by (apply Hkeys; auto).
  unfold Cache.bind at 1. unfold Cache.find_best, Similarity.findBestMatch.
  assert (Htruthy : truthy (JStr text) = true).
  { simpl. destruct text; [congruence|reflexivity]. }
  rewrite Hmatcher, Htruthy. cbn [negb orb].
  unfold Similarity._normalize. rewrite Htruthy. cbn [negb]. rewrite Hnorm.
  destruct pool as [|[k1 v1] rest]; [destruct Hpool|].
  inversion Hundef as [|? ? Hv1 Hrest]; subst. simpl in Hv1. subst v1.
  simpl Similarity.match_loop.
  assert (Himp : Similarity.improves (Cache.similarity_threshold (Cache.config sv))
                   None 1 = true).
  { unfold Similarity.improves. rewrite andb_true_r. now apply Qgtb_true. }
  rewrite Himp.
  rewrite (match_loop_undefined_top _ _ (Similarity.mkMatch k1 JUndefined 1) rest
             eq_refl Hrest).
  assert (Hin : In k1 (JSMap.keys (Cache.store w))).
  { apply (Hkeys k1). now left. }
  destruct (live_entry w k1 (Cache.tick w + List.length (Cache.store w))
              Hwf Hlive Hin ltac:(lia)) as (e & Hget & Hnow).
  unfold Cache.bind at 1. rewrite store_get_run. simpl.
  unfold Store.get. rewrite Hget, Hnow. reflexivity.
Qed.

Lemma get_counts_a_hit_on_a_wordless_query_witness :
  let sv := Cache.default_services Compression.stored_zlib in
  let w := Cache.mkWorld (fun _ => 10) 0
             [("k1", Store.mkEntry (JStr "stored") 5 1000)] [] Stats.initial in
  fst (Cache.get sv (JStr "?!") Cache.no_options w) = Ok JUndefined /\
  Stats.hits (Cache.stats (snd (Cache.get sv (JStr "?!") Cache.no_options w))) = 1.
Proof.
  intros sv w.
  rewrite (get_counts_a_hit_on_a_wordless_query sv "?!" Cache.no_options w "k1").
  - split; reflexivity.
  - reflexivity.
  - reflexivity.
  - reflexivity.
  - reflexivity.
  - reflexivity.
  - discriminate.
  - reflexivity.
  - repeat constructor. simpl. tauto.
  - intros k e n [[= <- <-]|[]] _. simpl. lia.
  - simpl. auto.
  - discriminate.
Defined.

(* ================================================================== *)
(** * [cleanup] of the facade, and a lookup after it *)
(* ================================================================== *)

(** X29: [cleanup] makes the next lookup safe.  On a store with one entry per
    key, [cleanup] returns and records in [cleaned] the number of entries
    with [expiresAt < now] and leaves exactly the others; if the clock
    does not move after it, a [get] that follows, on a query that is a
    string or falsy, returns ([null] or [undefined]) instead of raising
    on an expired entry. *)
Theorem cleanup_then_get_returns
  (sv : Cache.Services) (q : JValue) (options : Cache.Options) (w : Cache.World) :
  JSMap.wf (Cache.store w) ->
  (forall n, (Cache.tick w <= n)%nat ->
             Cache.clock w n = Cache.clock w (Cache.tick w)) ->
  is_text q = true ->
  let now := Cache.clock w (Cache.tick w) in
  let removed := Z.of_nat (Store.count_expired now (Cache.store w)) in
  let w1 := snd (Cache.cleanup w) in
  fst (Cache.cleanup w) = Ok removed /\
  Cache.store w1 = Store.keep_live now (Cache.store w) /\
  Stats.cleaned (Cache.stats w1) = Stats.cleaned (Cache.stats w) + removed /\
  exists v, fst (Cache.get sv q options w1) = Ok v /\ (v = JNull \/ v = JUndefined).
Proof.
  intros Hwf Hclock Hq now removed w1.
  assert (Hrun : Cache.cleanup w
                 = (Ok removed,
                    Cache.mkWorld (Cache.clock w) (S (Cache.tick w))
                      (Store.keep_live now (Cache.store w)) (Cache.memo w)
                      (Stats.recordCleanup removed (Cache.stats w)))).
  { unfold Cache.cleanup, Cache.store_cleanup, Cache.bind, Cache.dateNow,
      Cache.on_store, Cache.on_stats, Cache.ret. simpl.
    now rewrite (Store.cleanup_spec _ _ Hwf). }
  unfold w1. rewrite Hrun. cbn [fst snd Cache.store Cache.stats].
  repeat split.
  set (w' := Cache.mkWorld _ _ _ _ _).
  destruct (get_live_run sv q options w') as (v & w2 & -> & Hv & _).
  - now apply Store.wf_keep_live.
  - intros k e n Hin [Hn _]. simpl in Hin, Hn |- *.
    unfold Store.keep_live in Hin. apply filter_In in Hin. destruct Hin as [_ Hl].
    unfold Store.live, Store.expired in Hl. simpl in Hl.
    apply negb_true_iff, Z.ltb_ge in Hl.
    rewrite Hclock by lia. exact Hl.
  - exact Hq.
  - exists v. auto.
Qed.

Lemma cleanup_then_get_returns_witness :
  let sv := Cache.default_services Compression.stored_zlib in
  let w := Cache.mkWorld (fun _ => 10) 0
             [("a", Store.mkEntry (JStr "x") 0 5);
              ("b", Store.mkEntry (JStr "y") 0 50)] [] Stats.initial in
  fst (Cache.get sv (JStr "hello") Cache.no_options w) = Throw TypeError /\
  fst (Cache.cleanup w) = Ok 1 /\
  exists v, fst (Cache.get sv (JStr "hello") Cache.no_options (snd (Cache.cleanup w)))
            = Ok v.
Proof.
  intros sv w.
  destruct (cleanup_then_get_returns sv (JStr "hello") Cache.no_options w)
    as (Hn & _ & _ & v & Hv & _).
  - repeat constructor; simpl; intuition discriminate.
  - reflexivity.
  - reflexivity.
  - split; [reflexivity|]. split; [exact Hn|]. now exists v.
Defined.

(* ================================================================== *)
(** * More on the codec: what was really compressed *)
(* ================================================================== *)

(** X30: Whatever [compress] wraps comes back.  With the service on, every
    JSON value whose serialized text is at least [minLength] long is
    wrapped, and [decompress] returns it from the wrapper, also when the
    value is [null] or carries a [compressed] property of its own (the
    values for which the round trip of a small payload fails). *)
Theorem wrapped_payloads_round_trip
  (z : Compression.Zlib) (cfg : Compression.Config) (x : JValue) (text : string) :
  Compression.ZlibLaws z ->
  json_value x ->
  Compression.enabled cfg = true ->
  JSON.stringify x = Some text ->
  Compression.minLength cfg <= Z.of_nat (String.length text) ->
  let packed := Compression.wrapper
                  (Compression.base64_encode z (Compression.gzip z text))
                  (Z.of_nat (String.length text)) in
  Compression.compress z cfg x = Ok packed /\
  Compression.decompress z packed = Ok x.
Proof.
  intros Hlaws Hjson Hen Htext Hlen packed.
  destruct (json_value_roundtrips x Hjson) as (text' & Hstr & Hparse).
  rewrite Htext in Hstr. injection Hstr as <-.
  split.
  - unfold Compression.compress. rewrite Hen, Htext. cbn [negb].
    assert ((Z.of_nat (String.length text) <? Compression.minLength cfg) = false)
      as -> by (apply Z.ltb_ge; lia).
    reflexivity.
  - unfold packed. rewrite decompress_wrapper by assumption. exact Hparse.
Qed.

Lemma wrapped_payloads_round_trip_witness :
  let x := JObj [("compressed", JBool true)] in
  let cfg := Compression.mkConfig true 10 in
  exists packed,
    Compression.compress Compression.stored_zlib cfg x = Ok packed /\
    Compression.decompress Compression.stored_zlib packed = Ok x /\
    Compression.decompress Compression.stored_zlib x = Throw TypeError.
Proof.
  intros x cfg.
  destruct (wrapped_payloads_round_trip Compression.stored_zlib cfg x
              (String "{" (String "034" "compressed"
                 ++ String "034" ":true}"))%string
              Compression.stored_zlib_laws) as (Hc & Hd).
  - simpl. auto.
  - reflexivity.
  - reflexivity.
  - simpl. lia.
  - eexists. split; [exact Hc|]. split; [exact Hd|reflexivity].
Defined.
